(** * phase10-sim: the condition engine of [sim.py]

    A shallow embedding of the pattern-matching engine of the simulator
    (classes [Card], [Hand], [Condition] and its subclasses) together with
    the properties of its enumeration algorithms.

    Conventions of the embedding.
    - Python [int]s are [Z]; hand positions, which only ever come from
      [enumerate], are [nat].
    - A Python [set] is a [gset].  The order in which CPython iterates over
      a set is an implementation detail of its hash table; it is kept
      abstract here ([SetOrder]): the theorems hold for every iteration
      order, and the examples are evaluated under one of them.
    - A call either returns, raises, or does not finish within the budget
      of loop iterations it was given ([outcome]). *)

From stdpp Require Import strings gmap.

(* The solvers of stdpp clear hypotheses that may already be gone. *)
Set Warnings "-clear-no-such-hyp,-register-all".

Local Open Scope Z_scope.

(** ** Outcomes of a call *)

Inductive exn : Type :=
| Exception (msg : string)
| IndexError
| RecursionError.

Inductive outcome (A : Type) : Type :=
| Ok (a : A)
| Raise (e : exn)
| OutOfFuel.
Arguments Ok {A} a.
Arguments Raise {A} e.
Arguments OutOfFuel {A}.

Definition bind {A B} (m : outcome A) (k : A → outcome B) : outcome B :=
  match m with
  | Ok a => k a
  | Raise e => Raise e
  | OutOfFuel => OutOfFuel
  end.

Notation "x ←! m ; k" := (bind m (λ x, k))
  (at level 20, m at level 100, k at level 200, right associativity,
   format "x  ←!  m ;  '/' k").
Notation "' p ←! m ; k" := (bind m (λ x, match x with p => k end))
  (at level 20, p pattern, m at level 100, k at level 200,
   right associativity).

(** A [for] loop whose body can raise: the first failure ends the loop. *)
Definition for_each {A B} (f : A → outcome B) : list A → outcome (list B) :=
  fix go l :=
    match l with
    | [] => Ok []
    | x :: l' => y ←! f x; ys ←! go l'; Ok (y :: ys)
    end.

Definition filter_each {A} (f : A → outcome bool) : list A → outcome (list A) :=
  fix go l :=
    match l with
    | [] => Ok []
    | x :: l' => b ←! f x; ys ←! go l'; Ok (if b : bool then x :: ys else ys)
    end.

(** ** Python list primitives *)

Definition len {A} (l : list A) : Z := Z.of_nat (length l).

(** [range(n)] *)
Definition range (n : Z) : list nat := seq 0 (Z.to_nat n).

(** [enumerate(l)] *)
Definition enumerate {A} (l : list A) : list (nat * A) :=
  imap (λ i x, (i, x)) l.

(** [l[i]] for a non-negative index. *)
Definition getitem {A} (l : list A) (i : nat) : outcome A :=
  match l !! i with
  | Some x => Ok x
  | None => Raise IndexError
  end.

(** [del l[i]] on a copy of [l], for a non-negative index. *)
Definition del {A} (l : list A) (i : nat) : outcome (list A) :=
  if decide (i < length l)%nat then Ok (delete i l) else Raise IndexError.

(** [l.pop()]: the list without its last element, and that element. *)
Definition pop {A} (l : list A) : outcome (list A * A) :=
  match last l with
  | Some x => Ok (take (pred (length l)) l, x)
  | None => Raise IndexError
  end.

(** Slice bounds are clamped as Python does: a negative bound counts from
    the end. *)
Definition slice_index (n i : Z) : nat :=
  Z.to_nat (if i <? 0 then Z.max 0 (i + n) else Z.min i n).

(** [l[lo:hi]] *)
Definition slice {A} (l : list A) (lo hi : Z) : list A :=
  let a := slice_index (len l) lo in
  let b := slice_index (len l) hi in
  take (b - a)%nat (drop a l).

(** [needle in hay] on strings. *)
Fixpoint str_in (needle hay : string) : bool :=
  String.prefix needle hay ||
  match hay with
  | EmptyString => false
  | String _ hay' => str_in needle hay'
  end.

(** ** Cards and hands *)

Record Card : Type := mkCard { colour : string; number : Z; type : string }.

(** [Card(colour, number)] with the default [type="normal"]. *)
Definition Card_ (colour : string) (number : Z) : Card :=
  mkCard colour number "normal".

Record Hand : Type := mkHand { cards : list Card }.

(** [Hand.__init__] *)
Definition Hand_init (cards : list Card) : outcome Hand :=
  if (len cards <? 10) || (len cards >? 10)
  then Raise (Exception "Invalid number of cards")
  else Ok (mkHand cards).

(** ** Sets and their iteration order *)

Abbreviation PositionSet := (gset nat).

Class SetOrder : Type := {
  iter : ∀ `{Countable A}, gset A → list A;
  iter_perm : ∀ `{Countable A} (X : gset A), iter X ≡ₚ elements X;
}.

(** One iteration order (that of [elements]), to evaluate examples with. *)
Definition elements_order : SetOrder :=
  {| iter := λ A _ _ X, elements X; iter_perm := λ A _ _ X, reflexivity _ |}.

(** ** Conditions

    An object of the [Condition] hierarchy: its class and the two fields
    that [Condition.__init__] stores. *)

Inductive class : Type :=
| SameNumberC | SameColourC | AnyListC | SameColourListC | GroupConditionC.

Unset Elimination Schemes.
Inductive Condition : Type :=
  mkCondition {
    cls : class;
    required_number : Z;
    sub_conditions : list Condition;
  }.
Set Elimination Schemes.

(** [Condition.__init__] *)
Definition Condition_init (c : class) (required_number : Z)
    (sub_conditions : list Condition) : outcome Condition :=
  Ok (mkCondition c required_number sub_conditions).

(** [SetBased.__init__] and [ListBased.__init__] pass the default
    [sub_conditions=[]]. *)
Definition SetBased_init (c : class) (required_number : Z) : outcome Condition :=
  Condition_init c required_number [].
Definition ListBased_init (c : class) (required_number : Z) : outcome Condition :=
  Condition_init c required_number [].

Definition SameNumber_init (required_number : Z) : outcome Condition :=
  SetBased_init SameNumberC required_number.
Definition SameColour_init (required_number : Z) : outcome Condition :=
  SetBased_init SameColourC required_number.
Definition AnyList_init (required_number : Z) : outcome Condition :=
  ListBased_init AnyListC required_number.
Definition SameColourList_init (required_number : Z) : outcome Condition :=
  ListBased_init SameColourListC required_number.
(** [GroupCondition.__init__] stores the required number [0]. *)
Definition GroupCondition_init (sub_conditions : list Condition) : outcome Condition :=
  Condition_init GroupConditionC 0 sub_conditions.

(** The objects these constructors build. *)
Definition SameNumber (k : Z) : Condition := mkCondition SameNumberC k [].
Definition SameColour (k : Z) : Condition := mkCondition SameColourC k [].
Definition AnyList (k : Z) : Condition := mkCondition AnyListC k [].
Definition SameColourList (k : Z) : Condition := mkCondition SameColourListC k [].
Definition GroupCondition (subs : list Condition) : Condition :=
  mkCondition GroupConditionC 0 subs.

(** The positions collected by a [for i, card in enumerate(hand.cards)]
    loop that keeps the cards satisfying [P]. *)
Definition positions_where (P : Card → Prop) `{!∀ c, Decision (P c)}
    (cs : list Card) : list nat :=
  (filter (λ ic, P ic.2) (enumerate cs)).*1.

(** ** SetBased *)

(** [SetBased.internal_possibilities].  Every recursive call receives a
    list that one [del] made shorter, so the depth of the recursion is at
    most [len(sub_range) + 1]; [fuel] bounds that depth. *)
Fixpoint internal_possibilities (fuel : nat) (prefix : PositionSet)
    (sub_range : list nat) (remaining_levels : Z) : outcome (list PositionSet) :=
  match fuel with
  | O => OutOfFuel
  | S fuel' =>
    sub_combinations ←!
      (if remaining_levels =? 1 then
         for_each (λ rem,
                     list_modified ←! del sub_range rem;
                     Ok (list_to_set list_modified ∪ prefix))
                  (range (len sub_range))
       else
         possibilities ←!
           for_each (λ rem,
                       list_modified ←! del sub_range rem;
                       let prefix_ : PositionSet := list_to_set (take rem list_modified) in
                       let sub_range_ := drop rem list_modified in
                       internal_possibilities fuel' prefix_ sub_range_
                                              (remaining_levels - 1))
                    (range (len sub_range - remaining_levels + 1));
         Ok (mjoin possibilities));
    Ok (map (λ sub_combination, sub_combination ∪ prefix) sub_combinations)
  end.

(** The tail shared by [SameNumber.find_matches] and
    [SameColour.find_matches], once [matches] is collected. *)
Definition select_matches (required_number : Z) (matches : list nat)
    : outcome (list PositionSet) :=
  if len matches <? required_number then Ok []
  else if len matches =? required_number then Ok [list_to_set matches]
  else internal_possibilities (S (length matches)) ∅ matches
         (len matches - required_number).

(** [SameNumber.candidates]; the first component is always ["any"]. *)
Definition SameNumber_candidates `{SetOrder} (hand : Hand) : list (string * Z) :=
  let available_numbers : gset Z :=
    list_to_set (number <$> filter (λ card, number card ≠ -1) (cards hand)) in
  (λ number, ("any"%string, number)) <$> iter available_numbers.

(** The test of [SameNumber.find_matches]:
    [card.number == number or card.number == -1]. *)
Definition matches_number (number_ : Z) (card : Card) : Prop :=
  number card = number_ ∨ number card = -1.

Global Instance matches_number_dec number_ card : Decision (matches_number number_ card).
Proof. unfold matches_number. apply _. Defined.

(** [SameNumber.find_matches] *)
Definition SameNumber_find_matches (required_number : Z) (hand : Hand)
    (colour_ : string) (number_ : Z) : outcome (list PositionSet) :=
  let matches := positions_where (matches_number number_) (cards hand) in
  select_matches required_number matches.

(** [SameColour.candidates] *)
Definition SameColour_candidates `{SetOrder} (hand : Hand) : list (string * Z) :=
  let available_colours : gset string :=
    list_to_set
      (colour <$> filter (λ card, str_in "black" (colour card) = false) (cards hand)) in
  (λ colour, (colour, -1)) <$> iter available_colours.

(** The test of [SameColour.find_matches]:
    [card.colour == colour or card.number == -1]. *)
Definition matches_colour (colour_ : string) (card : Card) : Prop :=
  colour card = colour_ ∨ number card = -1.

Global Instance matches_colour_dec colour_ card : Decision (matches_colour colour_ card).
Proof. unfold matches_colour. apply _. Defined.

(** [SameColour.find_matches] *)
Definition SameColour_find_matches (required_number : Z) (hand : Hand)
    (colour_ : string) (number_ : Z) : outcome (list PositionSet) :=
  let matches := positions_where (matches_colour colour_) (cards hand) in
  select_matches required_number matches.

(** [SetBased.possibilities], given the two abstract methods. *)
Definition SetBased_possibilities
    (candidates : list (string * Z))
    (find_matches : string → Z → outcome (list PositionSet))
    : outcome (list PositionSet) :=
  per_candidate ←! for_each (λ candidate, find_matches candidate.1 candidate.2) candidates;
  Ok (mjoin per_candidate).

(** ** ListBased *)

(** [ListBased.get_combinations].  On the empty list the [else] branch calls
    itself on [remaining_list[1:]], the empty list again, without end: the
    interpreter stops that with a [RecursionError]. *)
Fixpoint get_combinations `{SetOrder} (remaining_list : list PositionSet)
    : outcome (list PositionSet) :=
  match remaining_list with
  | [] => Raise RecursionError
  | [positions] => Ok ((λ pos, {[ pos ]}) <$> iter positions)
  | positions :: rest =>
    sub_combinations ←! get_combinations rest;
    Ok (position ← iter positions;
        sub_combination ← sub_combinations;
        [sub_combination ∪ {[ position ]}])
  end.

(** [ListBased.get_possibilities] *)
Definition get_possibilities `{SetOrder} (required_number : Z)
    (full_list : list PositionSet) : outcome (list PositionSet) :=
  per_window ←!
    for_each (λ i : nat,
                let sub_range :=
                  slice full_list (Z.of_nat i) (required_number + Z.of_nat i) in
                get_combinations sub_range)
             (range (len full_list - required_number + 1));
  Ok (mjoin per_window).

(** The inner [while not streak_broken] loop of [ListBased.possibilities]:
    from the streak built so far, the jokers left and the current number to
    the finished streak and the number the scan stopped at.  [fuel] bounds
    the number of iterations. *)
Fixpoint streak_loop (fuel : nat) (candidates : list (nat * Card))
    (streak : list PositionSet) (available_jokers : list (nat * Card))
    (current_number : Z) : outcome (list PositionSet * Z) :=
  match fuel with
  | O => OutOfFuel
  | S fuel' =>
    let number_cards := filter (λ card, number card.2 = current_number) candidates in
    if (len number_cards =? 0) && (len available_jokers >? 0) then
      '(available_jokers', joker) ←! pop available_jokers;
      streak_loop fuel' candidates (streak ++ [{[ joker.1 ]}]) available_jokers'
                  (current_number + 1)
    else if len number_cards >? 0 then
      streak_loop fuel' candidates (streak ++ [list_to_set number_cards.*1])
                  available_jokers (current_number + 1)
    else Ok (streak, current_number + 1)
  end.

(** The outer [while current_number <= 12] loop. *)
Fixpoint streaks_loop `{SetOrder} (fuel : nat) (required_number : Z)
    (candidates : list (nat * Card)) (possibilities : list PositionSet)
    (current_number : Z) : outcome (list PositionSet) :=
  if current_number <=? 12 then
    match fuel with
    | O => OutOfFuel
    | S fuel' =>
      let available_jokers := filter (λ card, number card.2 = -1) candidates in
      '(streak, current_number') ←!
        streak_loop (S (length candidates)) candidates [] available_jokers current_number;
      combinations ←! get_possibilities required_number streak;
      streaks_loop fuel' required_number candidates (possibilities ++ combinations)
                   current_number'
    end
  else Ok possibilities.

(** [ListBased.possibilities], given the abstract method [candidates].
    Every pass of the inner loop consumes a joker or all cards of one
    number, and every pass of the outer loop moves [current_number] up, so
    the budgets [len(candidates) + 1] and [12] are never used up
    ([ListBased_possibilities_finishes] below). *)
Definition ListBased_possibilities `{SetOrder} (required_number : Z)
    (candidates : list (nat * Card)) : outcome (list PositionSet) :=
  streaks_loop 12 required_number candidates [] 1.

(** [sorted(..., key=lambda card: card[1].number)]: a stable sort. *)
Fixpoint insert_by_number (x : nat * Card) (l : list (nat * Card))
    : list (nat * Card) :=
  match l with
  | [] => [x]
  | y :: l' =>
    if number x.2 <=? number y.2 then x :: y :: l' else y :: insert_by_number x l'
  end.

Definition sorted_by_number (l : list (nat * Card)) : list (nat * Card) :=
  foldr insert_by_number [] l.

(** [AnyList.candidates] *)
Definition AnyList_candidates (hand : Hand) : list (nat * Card) :=
  sorted_by_number (enumerate (cards hand)).

(** The [for pos in positions] loop of [all_same_colour], with its early
    [return False]. *)
Fixpoint colour_loop (hand : Hand) (target : Card) (positions : list nat)
    : outcome bool :=
  match positions with
  | [] => Ok true
  | pos :: positions' =>
    card ←! getitem (cards hand) pos;
    if negb (str_in (colour target) (colour card)) then Ok false
    else colour_loop hand target positions'
  end.

(** [SameColourList.all_same_colour] *)
Definition all_same_colour `{SetOrder} (hand : Hand) (positions : PositionSet)
    : outcome bool :=
  targets ←!
    filter_each (λ pos, card ←! getitem (cards hand) pos;
                        Ok (bool_decide (number card ≠ -1)))
                (iter positions);
  if len targets =? 0 then Ok true
  else
    first ←! getitem targets 0;
    target ←! getitem (cards hand) first;
    colour_loop hand target (iter positions).

(** ** GroupCondition *)

(** One pass of the [for i] loop of [GroupCondition.possibilities] for
    [i > 0]: the unions of the disjoint pairs. *)
Definition disjoint_unions (remaining_possibilities b_poss_s : list PositionSet)
    : list PositionSet :=
  a_poss ← remaining_possibilities;
  b_poss ← b_poss_s;
  if decide (a_poss ## b_poss) then [a_poss ∪ b_poss] else [].

(** The whole loop: the pass [i = 0] copies the first list. *)
Definition GroupCondition_fold (sub_possibilities : list (list PositionSet))
    : list PositionSet :=
  match sub_possibilities with
  | [] => []
  | first :: rest => foldl disjoint_unions first rest
  end.

(** ** The shared contract *)

(** [possibilities], dispatched on the class of [self]. *)
Fixpoint possibilities `{SetOrder} (self : Condition) (hand : Hand)
    : outcome (list PositionSet) :=
  match self with
  | mkCondition c required_number sub_conditions =>
    match c with
    | SameNumberC =>
      SetBased_possibilities (SameNumber_candidates hand)
                             (SameNumber_find_matches required_number hand)
    | SameColourC =>
      SetBased_possibilities (SameColour_candidates hand)
                             (SameColour_find_matches required_number hand)
    | AnyListC =>
      ListBased_possibilities required_number (AnyList_candidates hand)
    | SameColourListC =>
      all_list_possibilities ←!
        ListBased_possibilities required_number (AnyList_candidates hand);
      filter_each (all_same_colour hand) all_list_possibilities
    | GroupConditionC =>
      sub_possibilities ←!
        for_each (λ condition, possibilities condition hand) sub_conditions;
      Ok (GroupCondition_fold sub_possibilities)
    end
  end.

(** [Condition.hand_passed]: defined once, for every class. *)
Definition hand_passed `{SetOrder} (self : Condition) (hand : Hand) : outcome bool :=
  possibilities_ ←! possibilities self hand;
  if len possibilities_ >? 0 then Ok true else Ok false.

(** ** The worked example of the repository *)

Definition test_hand_cards : list Card :=
  [ Card_ "blue" 1; Card_ "blue" 2; Card_ "blue" 3;
    Card_ "red" 4; Card_ "red" 5; Card_ "red" 6; Card_ "red" 6;
    Card_ "red" (-1); Card_ "red" (-1); Card_ "red" (-1) ].

Definition test_hand : Hand := mkHand test_hand_cards.

Definition four_list : Condition := SameColourList 3.
Definition four_colours : Condition := SameColour 4.
Definition combination : Condition := GroupCondition [four_list; four_colours].


(** ** Binomial coefficients and the sublists obtained by removing elements *)

Fixpoint binomial (n k : nat) : nat :=
  match n, k with
  | _, O => 1
  | O, S _ => 0
  | S n', S k' => binomial n' k' + binomial n' (S k')
  end%nat.

(** All the ways to remove [r] elements from [l], as the lists of the
    elements kept; the element removed first comes first. *)
Fixpoint removals {A} (r : nat) (l : list A) : list (list A) :=
  match r, l with
  | O, _ => [l]
  | S _, [] => []
  | S r', x :: l' => removals r' l' ++ ((x ::.) <$> removals r l')
  end.


(** ** Notions used in the statements *)

(** No position occurs in two sets of the list. *)
Fixpoint pairwise_disjoint (l : list PositionSet) : Prop :=
  match l with
  | [] => True
  | X :: l' => Forall (λ Y, X ## Y) l' ∧ pairwise_disjoint l'
  end.

(** One position taken from each slot, in order. *)
Definition choice_of (slots : list PositionSet) (ps : list nat) : Prop :=
  Forall2 (λ (p : nat) (slot : PositionSet), p ∈ slot) ps slots.

(** The union of a list of sets. *)
Definition union_of (l : list PositionSet) : PositionSet := ⋃ l.

(** The sum of a list of integers. *)
Definition sum_Z (l : list Z) : Z := foldr Z.add 0 l.

(** The leaves of the hierarchy: the set and run conditions. *)
Definition is_leaf (c : Condition) : Prop := cls c ≠ GroupConditionC.

(** Conditions whose leaves have a required number in [1..10]. *)
Inductive valid_condition : Condition → Prop :=
| valid_leaf c k subs :
    c ≠ GroupConditionC → 1 ≤ k ≤ 10 → valid_condition (mkCondition c k subs)
| valid_group k subs :
    Forall valid_condition subs → valid_condition (mkCondition GroupConditionC k subs).

(** The positions a streak started at [current_number] can still draw on:
    those of the jokers left and of the cards numbered [current_number] or
    more. *)
Definition streak_supply (candidates available_jokers : list (nat * Card))
    (current_number : Z) : PositionSet :=
  list_to_set available_jokers.*1 ∪
  list_to_set (filter (λ card, current_number ≤ number card.2) candidates).*1.

(** The list returned for the worked example, under [elements_order]. *)
Definition combination_result : list PositionSet :=
  match possibilities (H:=elements_order) combination test_hand with
  | Ok res => res
  | _ => []
  end.

(** An outcome other than a raised [Exception]: the only exception that
    the program raises itself, in [Hand.__init__]. *)
Definition quiet {A} (o : outcome A) : Prop := ∀ msg, o ≠ Raise (Exception msg).

(** The worked example with the jokers as [init_deck] makes them. *)
Definition deck_joker : Card := mkCard "black" (-1) "joker".

Definition test_hand_deck_jokers : Hand :=
  mkHand (take 7 test_hand_cards ++ [deck_joker; deck_joker; deck_joker]).

(** A hand with the cards 10, 11 and 12 and one joker. *)
Definition high_run_hand : Hand :=
  mkHand [ Card_ "blue" 1; Card_ "red" 1; Card_ "green" 1; Card_ "yellow" 1;
           Card_ "blue" 10; Card_ "blue" 11;
           Card_ "blue" 12; Card_ "red" 12; Card_ "green" 12;
           deck_joker ].

(** Positions paired with related cards. *)
Definition related_at (rel : Card → Card → Prop) (x y : nat * Card) : Prop :=
  x.1 = y.1 ∧ rel x.2 y.2.

(** Two cards that differ at most in their [type]. *)
Definition same_face (a b : Card) : Prop :=
  number a = number b ∧ colour a = colour b.

(** Two cards with the same number that differ at most in their [type]
    and, when the number is [-1], in their colour. *)
Definition same_but_wild (a b : Card) : Prop :=
  number a = number b ∧ (number a ≠ -1 → colour a = colour b).

(** Seven blue cards, 1 to 7, and three times the card [w]. *)
Definition blue_hand (w : Card) : Hand :=
  mkHand (((λ n, Card_ "blue" n) <$> [1; 2; 3; 4; 5; 6; 7]) ++ [w; w; w]).

(** The worked example with every card typed ["joker"]. *)
Definition retyped_test_hand : Hand :=
  mkHand ((λ card, mkCard (colour card) (number card) "joker") <$> test_hand_cards).

(** The number of sets returned, 0 when nothing is returned. *)
Definition count_returned (o : outcome (list PositionSet)) : nat :=
  match o with
  | Ok res => length res
  | _ => 0%nat
  end.

(** A hand with a card numbered 13, a number [Card] accepts although the
    deck does not hold it. *)
Definition thirteen_hand : Hand :=
  mkHand (((λ n, Card_ "blue" n) <$> [1; 2; 3; 4; 5; 6; 7]) ++
          [Card_ "blue" 11; Card_ "blue" 12; Card_ "blue" 13]).

(** ** The deck, the dealing and the experiments *)

(** The deck of [init_deck] before [random.shuffle]: twelve cards of each
    of four colours, then eight jokers. *)
Definition deck_colours : list string := ["green"; "yellow"; "red"; "blue"].

Definition unshuffled_deck : list Card :=
  (colour_ ← deck_colours; (λ i, Card_ colour_ i) <$> seqZ 1 12) ++
  replicate 8 (mkCard "black" (-1) "joker").

(** [init_deck]; [random.shuffle] is a parameter, some permutation. *)
Definition init_deck (shuffle : list Card → list Card) : list Card :=
  shuffle unshuffled_deck.

(** [Hand(deck[0:10])] *)
Definition deal (deck : list Card) : outcome Hand := Hand_init (slice deck 0 10).

(** An [Experiment] object. *)
Record Experiment : Type :=
  mkExperiment { condition : Condition; runs : Z; successes : Z }.

(** [Experiment.__init__] *)
Definition Experiment_init (condition : Condition) : Experiment :=
  mkExperiment condition 0 0.

(** [Experiment.run]: the object after the call, and how the call ended.
    [self.runs] is incremented before [hand_passed] is called, so it is
    incremented also when that call raises. *)
Definition Experiment_run `{SetOrder} (self : Experiment) (hand : Hand)
    : Experiment * outcome () :=
  let counted := mkExperiment (condition self) (runs self + 1) (successes self) in
  match hand_passed (condition self) hand with
  | Ok true =>
    (mkExperiment (condition self) (runs self + 1) (successes self + 1), Ok ())
  | Ok false => (counted, Ok ())
  | Raise e => (counted, Raise e)
  | OutOfFuel => (counted, OutOfFuel)
  end.

(** One experiment run on the hands of a simulation, one after the other,
    as the final loop does; the first call that does not return ends it. *)
Fixpoint Experiment_run_all `{SetOrder} (self : Experiment) (hands : list Hand)
    : Experiment * outcome () :=
  match hands with
  | [] => (self, Ok ())
  | hand :: hands' =>
    match Experiment_run self hand with
    | (self', Ok _) => Experiment_run_all self' hands'
    | stopped => stopped
    end
  end.

(** The product of a list of natural numbers. *)
Definition product (l : list nat) : nat := foldr Nat.mul 1%nat l.

(** The positions [ps] hold a run that starts at the number [start]: the
    card at the [j]-th of them bears the number [start + j] or is a
    wildcard. *)
Definition run_from (hand : Hand) (start : Z) (ps : list nat) : Prop :=
  ∀ (j : nat) (p : nat), ps !! j = Some p →
    ∃ card, cards hand !! p = Some card ∧
            (number card = start + Z.of_nat j ∨ number card = -1).

(** The same without wildcards. *)
Definition real_run_from (hand : Hand) (start : Z) (ps : list nat) : Prop :=
  ∀ (j : nat) (p : nat), ps !! j = Some p →
    ∃ card, cards hand !! p = Some card ∧ number card = start + Z.of_nat j.

(** A card as [init_deck] makes them. *)
Definition deck_card (card : Card) : Prop :=
  (colour card ∈ deck_colours ∧ 1 ≤ number card ≤ 12 ∧ type card = "normal"%string) ∨
  card = mkCard "black" (-1) "joker".

(** ** Further notions used in the statements *)

(** The number of cards a condition asks for: the required number of a
    leaf, the sum over the sub-conditions of a group. *)
Fixpoint cards_needed (self : Condition) : Z :=
  match self with
  | mkCondition c required_number sub_conditions =>
    match c with
    | GroupConditionC => sum_Z (cards_needed <$> sub_conditions)
    | _ => required_number
    end
  end.

(** In the run [ps] from [start], a card numbered -1 stands only at a
    number that no card of the hand bears. *)
Definition wildcards_fill_gaps (hand : Hand) (start : Z) (ps : list nat) : Prop :=
  ∀ (j : nat) (p : nat) (card : Card),
    ps !! j = Some p → cards hand !! p = Some card → number card = -1 →
    ∀ card', card' ∈ cards hand → number card' ≠ start + Z.of_nat j.

(** No card of the hand bears the number [n]. *)
Definition missing (hand : Hand) (n : Z) : Prop :=
  Forall (λ card, number card ≠ n) (cards hand).

(** The number of cards numbered -1. *)
Definition wildcards (hand : Hand) : nat :=
  length (filter (λ card, number card = -1) (cards hand)).

(** How many of the [k] numbers [n], [n + 1], ... no card bears. *)
Fixpoint missing_count (hand : Hand) (n : Z) (k : nat) : nat :=
  match k with
  | O => 0
  | S k' => (if decide (missing hand n) then 1 else 0) + missing_count hand (n + 1) k'
  end%nat.

(** The numbers at which [ListBased.possibilities] starts a streak: 1,
    and after a streak started at [n <= 12] the number behind the one at
    which that streak broke, which is the first number that no card bears
    once every wildcard has taken the place of an earlier such number. *)
Inductive streak_start (hand : Hand) : Z → Prop :=
| streak_start_first : streak_start hand 1
| streak_start_next (n : Z) (length_ : nat) :
    streak_start hand n → n ≤ 12 →
    missing_count hand n length_ = wildcards hand →
    missing hand (n + Z.of_nat length_) →
    streak_start hand (n + Z.of_nat length_ + 1).

(** Whether [hand_passed] returns [True]. *)
Definition passes `{SetOrder} (self : Condition) (hand : Hand) : bool :=
  match hand_passed self hand with
  | Ok true => true
  | _ => false
  end.

(** The order of [sorted(enumerate(hand.cards), key=...)]: by number, and
    by position among equal numbers. *)
Definition by_number_then_position (x y : nat * Card) : Prop :=
  number x.2 < number y.2 ∨ (number x.2 = number y.2 ∧ (x.1 < y.1)%nat).

(** Every element of the list is related to all the later ones. *)
Fixpoint ordered {A} (R : A → A → Prop) (l : list A) : Prop :=
  match l with
  | [] => True
  | x :: l' => Forall (R x) l' ∧ ordered R l'
  end.

(** ** Facts about outcomes *)

Lemma for_each_Ok_fmap {A B} (f : A → outcome B) (g : A → B) (l : list A) :
  (∀ x, x ∈ l → f x = Ok (g x)) → for_each f l = Ok (g <$> l).
Proof.
  induction l as [|x l IH]; intros Hf; simpl; [done|].
  rewrite Hf by left. simpl. rewrite IH; [done|].
  intros y Hy. apply Hf. by right.
Qed.

Lemma for_each_Ok_Forall2 {A B} (f : A → outcome B) (l : list A) (ys : list B) :
  for_each f l = Ok ys ↔ Forall2 (λ x y, f x = Ok y) l ys.
Proof.
  revert ys. induction l as [|x l IH]; intros ys; simpl.
  - split; [intros [= <-]; constructor | by inversion 1].
  - split.
    + destruct (f x) as [y| |] eqn:Hx; simpl; try done.
      destruct (for_each f l) as [ys'| |] eqn:Hl; simpl; try done.
      intros [= <-]. constructor; [done|]. by apply IH.
    + inversion 1 as [|? y ? ys' Hx Hl]; subst.
      apply IH in Hl. rewrite Hx. simpl. by rewrite Hl.
Qed.

(** ** Binomial coefficients *)

Lemma binomial_gt (n k : nat) : (n < k)%nat → binomial n k = 0%nat.
Proof.
  revert k. induction n as [|n IH]; intros [|k] Hk; simpl; try lia.
  rewrite !IH by lia. done.
Qed.

Lemma binomial_diag (n : nat) : binomial n n = 1%nat.
Proof.
  induction n as [|n IH]; simpl; [done|].
  rewrite IH, binomial_gt by lia. done.
Qed.

Lemma binomial_sym (n k : nat) : (k ≤ n)%nat → binomial n (n - k) = binomial n k.
Proof.
  revert k. induction n as [|n IH]; intros k Hk.
  - by replace k with 0%nat by lia.
  - destruct k as [|k].
    + rewrite Nat.sub_0_r, binomial_diag. done.
    + destruct (decide (k = n)) as [->|Hne].
      * rewrite Nat.sub_diag, binomial_diag. done.
      * replace (S n - S k)%nat with (S (n - S k)) by lia.
        simpl. rewrite (IH (S k)) by lia.
        replace (S (n - S k)) with (n - k)%nat by lia.
        rewrite (IH k) by lia. lia.
Qed.

(** The closed form: [C(n, k) * k! * (n - k)! = n!]. *)
Lemma binomial_fact (n k : nat) :
  (k ≤ n)%nat → (binomial n k * fact k * fact (n - k) = fact n)%nat.
Proof.
  revert k. induction n as [|n IH]; intros k Hk.
  - replace k with 0%nat by lia. done.
  - destruct k as [|k]; [simpl; lia|].
    destruct (decide (k = n)) as [->|Hne].
    + rewrite binomial_diag, Nat.sub_diag. simpl. lia.
    + specialize (IH k ltac:(lia)) as IH1.
      specialize (IH (S k) ltac:(lia)) as IH2.
      replace (S n - S k)%nat with (S (n - S k)) by lia.
      replace (n - k)%nat with (S (n - S k)) in IH1 by lia.
      change (binomial (S n) (S k)) with (binomial n k + binomial n (S k))%nat.
      change (fact (S n)) with (S n * fact n)%nat.
      change (fact (S k)) with (S k * fact k)%nat in *.
      change (fact (S (n - S k))) with (S (n - S k) * fact (n - S k))%nat in *.
      nia.
Qed.

(** ** Removing elements *)

Lemma fmap_join {A B} (f : A → B) (ls : list (list A)) :
  f <$> mjoin ls = mjoin (fmap f <$> ls).
Proof. induction ls as [|l ls IH]; simpl; [done|]. by rewrite fmap_app, IH. Qed.

Section removals.
Context {A : Type}.
Implicit Types l : list A.

Lemma removals_0 l : removals 0 l = [l].
Proof. by destruct l. Qed.

Lemma removals_short r l : (length l < r)%nat → removals r l = [].
Proof.
  revert r. induction l as [|x l IH]; intros [|r] Hr; simpl in *; try lia; [done|].
  rewrite !IH by lia. done.
Qed.

Lemma length_removals r l : length (removals r l) = binomial (length l) r.
Proof.
  revert r. induction l as [|x l IH]; intros [|r]; simpl; try done.
  rewrite length_app, length_fmap, !IH. done.
Qed.

Lemma removals_length r l kept :
  kept ∈ removals r l → (length kept + r = length l)%nat ∧ kept `sublist_of` l.
Proof.
  revert r kept. induction l as [|x l IH]; intros [|r] kept; simpl.
  - intros ->%list_elem_of_singleton. done.
  - by intros ?%elem_of_nil.
  - intros ->%list_elem_of_singleton. split; [simpl; lia | done].
  - rewrite elem_of_app, list_elem_of_fmap.
    intros [Hk | (kept' & -> & Hk)]; apply IH in Hk as [Hlen Hsub].
    + split; [lia | by constructor].
    + split; [simpl; lia | by constructor].
Qed.

(** The loop of the base case: remove the element at each index. *)
Lemma removals_1 l : removals 1 l = (λ rem, delete rem l) <$> seq 0 (length l).
Proof.
  induction l as [|x l IH]; [done|].
  cbn [removals length seq fmap list_fmap]. rewrite IH, removals_0.
  simpl. f_equal.
  rewrite <- fmap_S_seq, <- !list_fmap_compose. done.
Qed.

(** The loop of the recursive case: choose the first index to remove,
    keep what is before it, recurse on what is after it. *)
Lemma removals_S r l :
  removals (S r) l =
  mjoin ((λ rem, (take rem l ++.) <$> removals r (drop (S rem) l))
            <$> seq 0 (length l - r)).
Proof.
  induction l as [|x l IH]; [done|].
  cbn [removals length]. destruct (decide (r ≤ length l)%nat) as [Hr|Hr].
  - replace (S (length l) - r)%nat with (S (length l - r)) by lia.
    cbn [seq fmap list_fmap mjoin list_join]. f_equal.
    + simpl. by rewrite list_fmap_id.
    + rewrite IH, <- fmap_S_seq, <- list_fmap_compose.
      rewrite fmap_join, <- list_fmap_compose. f_equal.
      apply list_fmap_ext. intros _ rem _. simpl.
      rewrite <- list_fmap_compose. done.
  - replace (S (length l) - r)%nat with 0%nat by lia.
    rewrite !removals_short by lia. done.
Qed.
End removals.

(** ** [internal_possibilities] enumerates the removals *)

Lemma del_Ok {A} (l : list A) (rem : nat) :
  (rem < length l)%nat → del l rem = Ok (delete rem l).
Proof. intros Hrem. unfold del. by rewrite decide_True. Qed.

Lemma take_delete_same {A} (l : list A) (rem : nat) :
  take rem (delete rem l) = take rem l.
Proof.
  revert rem. induction l as [|x l IH]; intros [|rem]; simpl; try done.
  by rewrite IH.
Qed.

Lemma drop_delete_same {A} (l : list A) (rem : nat) :
  drop rem (delete rem l) = drop (S rem) l.
Proof.
  revert rem. induction l as [|x l IH]; intros [|rem]; simpl; done.
Qed.

Lemma range_seq (n : Z) : range n = seq 0 (Z.to_nat n).
Proof. done. Qed.

Lemma internal_possibilities_removals (fuel r : nat) (prefix : PositionSet) (l : list nat) :
  (length l < fuel)%nat → (1 ≤ r)%nat →
  internal_possibilities fuel prefix l (Z.of_nat r) =
  Ok ((λ kept, list_to_set kept ∪ prefix) <$> removals r l).
Proof.
  revert r prefix l. induction fuel as [|fuel IH]; intros r prefix l Hfuel Hr; [lia|].
  destruct r as [|[|r]]; [lia| |]; cbn [internal_possibilities].
  - change (Z.of_nat 1 =? 1) with true. cbn match.
    rewrite (for_each_Ok_fmap _ (λ rem, list_to_set (delete rem l) ∪ prefix)).
    + simpl. f_equal. rewrite removals_1, range_seq.
      unfold len. rewrite Nat2Z.id, <- !list_fmap_compose.
      apply list_fmap_ext. intros _ rem _. simpl. set_solver.
    + intros rem Hrem. rewrite range_seq in Hrem. apply elem_of_seq in Hrem.
      unfold len in Hrem. rewrite del_Ok by lia. done.
  - replace (Z.of_nat (S (S r)) =? 1) with false by (symmetry; apply Z.eqb_neq; lia).
    cbn match.
    rewrite (for_each_Ok_fmap _
      (λ rem, (λ kept, list_to_set kept ∪ list_to_set (take rem l))
                <$> removals (S r) (drop (S rem) l))).
    + simpl. f_equal. rewrite removals_S, range_seq.
      replace (Z.to_nat (len l - Z.of_nat (S (S r)) + 1)) with (length l - S r)%nat
        by (unfold len; lia).
      rewrite !fmap_join, <- !list_fmap_compose. f_equal.
      apply list_fmap_ext. intros _ rem _. simpl.
      rewrite <- !list_fmap_compose. apply list_fmap_ext. intros _ kept _. simpl.
      rewrite list_to_set_app_L. set_solver.
    + intros rem Hrem. rewrite range_seq in Hrem. apply elem_of_seq in Hrem.
      unfold len in Hrem. rewrite del_Ok by lia. simpl.
      rewrite take_delete_same, drop_delete_same.
      replace (Z.of_nat (S (S r)) - 1) with (Z.of_nat (S r)) by lia.
      apply IH; [|lia]. rewrite length_drop. lia.
Qed.

(** ** Positions of a hand *)

Section enumerate.
Context {A : Type}.
Implicit Types l : list A.

Lemma elem_of_enumerate l i x : (i, x) ∈ enumerate l ↔ l !! i = Some x.
Proof.
  unfold enumerate. rewrite elem_of_lookup_imap. split.
  - by intros (j & y & [= -> ->] & Hj).
  - intros Hi. by exists i, x.
Qed.

Lemma fst_enumerate l : (enumerate l).*1 = seq 0 (length l).
Proof.
  unfold enumerate. rewrite fmap_imap.
  trans (imap (λ j _, j) l); [by apply imap_ext|].
  rewrite (imap_seq_0 l (λ j, j)). apply list_fmap_id.
Qed.

Lemma snd_enumerate l : (enumerate l).*2 = l.
Proof.
  unfold enumerate. rewrite fmap_imap. simpl.
  induction l as [|x l IH] using rev_ind; [done|].
  rewrite imap_app. simpl. by rewrite IH.
Qed.

End enumerate.

Lemma filter_snd {A B} (P : B → Prop) `{!∀ x, Decision (P x)} (l : list (A * B)) :
  (filter (λ p, P p.2) l).*2 = filter P l.*2.
Proof.
  induction l as [|[a b] l IH]; [done|].
  rewrite fmap_cons, !filter_cons. simpl.
  destruct (decide (P b)); [rewrite fmap_cons; simpl; f_equal|]; apply IH.
Qed.

Section positions_where.
Context (P : Card → Prop) `{!∀ c, Decision (P c)}.
Implicit Types cs : list Card.

Lemma elem_of_positions_where cs i :
  i ∈ positions_where P cs ↔ ∃ card, cs !! i = Some card ∧ P card.
Proof.
  unfold positions_where. rewrite list_elem_of_fmap. split.
  - intros ([j card] & -> & [HP Hin]%list_elem_of_filter).
    apply elem_of_enumerate in Hin. by exists card.
  - intros (card & Hi & HP). exists (i, card). split; [done|].
    apply list_elem_of_filter. split; [done|]. by apply elem_of_enumerate.
Qed.

Lemma NoDup_positions_where cs : NoDup (positions_where P cs).
Proof.
  unfold positions_where.
  eapply sublist_NoDup; [apply (NoDup_seq 0 (length cs))|].
  rewrite <- fst_enumerate. apply fmap_sublist, sublist_filter.
Qed.

Lemma length_positions_where cs :
  length (positions_where P cs) = length (filter P cs).
Proof.
  unfold positions_where.
  trans (length (filter (λ ic, P ic.2) (enumerate cs)).*2); [by rewrite !length_fmap|].
  by rewrite filter_snd, snd_enumerate.
Qed.
End positions_where.

(** ** The sets kept by [removals] *)

Section removal_sets.
Implicit Types (l kept : list nat) (X : PositionSet).

Lemma removals_subseteq r l kept :
  kept ∈ removals r l → list_to_set (C:=PositionSet) kept ⊆ list_to_set l.
Proof.
  intros [_ Hsub]%removals_length. intros i. rewrite !elem_of_list_to_set.
  intros Hi. by eapply elem_of_sublist.
Qed.

Lemma removals_size r l kept :
  NoDup l → kept ∈ removals r l →
  (size (list_to_set (C:=PositionSet) kept) + r = length l)%nat.
Proof.
  intros Hl Hk. pose proof (removals_length _ _ _ Hk) as [Hlen Hsub].
  rewrite size_list_to_set; [done|]. by eapply sublist_NoDup.
Qed.

Lemma NoDup_removal_sets r l :
  NoDup l → NoDup (list_to_set (C:=PositionSet) <$> removals r l).
Proof.
  intros Hl. revert r. induction Hl as [|x l Hx Hl IH]; intros [|r]; simpl;
    try apply NoDup_singleton; [apply NoDup_nil_2|].
  rewrite fmap_app. apply NoDup_app. split_and!.
  - apply IH.
  - intros X (kept & -> & Hk)%list_elem_of_fmap.
    rewrite <- list_fmap_compose.
    intros (kept' & Heq & Hk')%list_elem_of_fmap. simpl in Heq.
    apply removals_subseteq in Hk.
    assert (x ∈ (list_to_set kept : PositionSet)) as Hin by (rewrite Heq; set_solver).
    apply Hk, elem_of_list_to_set in Hin. done.
  - replace (list_to_set (C:=PositionSet) <$> (cons x <$> removals (S r) l))
      with (({[x]} ∪.) <$> (list_to_set (C:=PositionSet) <$> removals (S r) l))
      by (by rewrite <- !list_fmap_compose).
    apply NoDup_fmap_2_strong; [|apply IH].
    intros X1 X2 (k1 & -> & Hk1)%list_elem_of_fmap (k2 & -> & Hk2)%list_elem_of_fmap Heq.
    apply removals_subseteq in Hk1, Hk2.
    assert (x ∉ (list_to_set l : PositionSet)) by (by rewrite elem_of_list_to_set).
    set_solver.
Qed.

Lemma elem_of_removal_sets r l X :
  NoDup l →
  X ∈ list_to_set (C:=PositionSet) <$> removals r l ↔
  X ⊆ list_to_set l ∧ (size X + r = length l)%nat.
Proof.
  intros Hl. split.
  - intros (kept & -> & Hk)%list_elem_of_fmap.
    eauto using removals_subseteq, removals_size.
  - revert r X. induction Hl as [|x l Hx Hl IH]; intros r X [Hsub Hsize].
    + simpl in Hsize. assert (r = 0%nat) as -> by lia.
      assert (X = ∅) as -> by set_solver. simpl. set_solver.
    + assert (x ∉ (list_to_set l : PositionSet)) as Hx'
        by (by rewrite elem_of_list_to_set).
      assert (size (list_to_set (C:=PositionSet) (x :: l)) = S (length l)) as Hfull.
      { rewrite size_list_to_set; [done|]. by constructor. }
      destruct r as [|r].
      * rewrite removals_0. apply list_elem_of_fmap. exists (x :: l).
        split; [|by left]. apply set_subseteq_size_eq; [done|].
        rewrite Hfull. simpl in Hsize. lia.
      * cbn [removals]. rewrite fmap_app, elem_of_app.
        destruct (decide (x ∈ X)) as [HxX|HxX].
        -- right. rewrite <- list_fmap_compose.
           assert (X ∖ {[x]} ∈ list_to_set (C:=PositionSet) <$> removals (S r) l)
             as (kept & Heq & Hk)%list_elem_of_fmap.
           { apply IH. split; [set_solver|].
             rewrite size_difference by set_solver.
             rewrite size_singleton. simpl in Hsize.
             assert (size X ≠ 0%nat); [|lia].
             intros ?%size_empty_inv. set_solver. }
           apply list_elem_of_fmap. exists kept. split; [|done].
           simpl. rewrite <- Heq.
           apply set_eq. intros i. destruct (decide (i = x)); set_solver.
        -- left. apply IH. split; [set_solver|]. simpl in Hsize. lia.
Qed.
End removal_sets.

(** ** [find_matches] *)

Lemma select_matches_removals (k : Z) (matches : list nat) :
  select_matches k matches =
  Ok (if decide (k ≤ len matches)
      then list_to_set <$> removals (Z.to_nat (len matches - k)) matches
      else []).
Proof.
  unfold select_matches.
  destruct (Z.ltb_spec (len matches) k) as [Hlt|Hle].
  { by rewrite decide_False by lia. }
  rewrite decide_True by lia.
  destruct (Z.eqb_spec (len matches) k) as [Heq|Hne].
  { by rewrite Heq, Z.sub_diag, removals_0. }
  rewrite <- (Z2Nat.id (len matches - k)) at 1 by lia.
  rewrite internal_possibilities_removals by (unfold len in *; lia).
  f_equal. apply list_fmap_ext. intros _ kept _. simpl. apply (right_id_L _ _).
Qed.

(** What [select_matches] returns on a duplicate-free list of positions:
    every [k]-element subset, once. *)
Lemma select_matches_choose (k : Z) (matches : list nat) :
  NoDup matches → 0 ≤ k →
  ∃ sets, select_matches k matches = Ok sets ∧
    length sets = binomial (length matches) (Z.to_nat k) ∧
    NoDup sets ∧
    ∀ X : PositionSet,
      X ∈ sets ↔ size X = Z.to_nat k ∧ X ⊆ list_to_set matches.
Proof.
  intros Hnd Hk. rewrite select_matches_removals. eexists. split; [done|].
  unfold len. case_decide as Hle.
  - split_and!.
    + rewrite length_fmap, length_removals.
      replace (Z.to_nat (Z.of_nat (length matches) - k))
        with (length matches - Z.to_nat k)%nat by lia.
      apply binomial_sym. lia.
    + by apply NoDup_removal_sets.
    + intros X. rewrite elem_of_removal_sets by done. split.
      * intros [Hsub Hsize]. split; [lia|done].
      * intros [Hsize Hsub]. split; [done|lia].
  - split_and!.
    + rewrite binomial_gt by lia. done.
    + apply NoDup_nil_2.
    + intros X. split; [by intros ?%elem_of_nil|].
      intros [Hsize Hsub]. apply subseteq_size in Hsub.
      rewrite size_list_to_set in Hsub by done. lia.
Qed.

(** ** Hand construction *)

(** C9. [Hand.__init__] raises its error exactly when the list of cards
    does not have length 10, and it raises nothing else; a list of 10 cards
    is stored as it is.  The check is the first statement of the
    constructor, so no [Hand], and with it no evaluation of a condition,
    exists for another length. *)
Theorem Hand_init_size (cs : list Card) :
  ((∃ e, Hand_init cs = Raise e) ↔ length cs ≠ 10%nat) ∧
  (length cs ≠ 10%nat → Hand_init cs = Raise (Exception "Invalid number of cards")) ∧
  (length cs = 10%nat → Hand_init cs = Ok (mkHand cs)).
Proof.
  unfold Hand_init, len.
  destruct (Z.ltb_spec (Z.of_nat (length cs)) 10) as [Hlt|Hge]; simpl.
  - split_and!; [|done|lia]. split; [lia|eauto].
  - destruct (Z.gtb_spec (Z.of_nat (length cs)) 10) as [Hgt|Hle].
    + split_and!; [|done|lia]. split; [lia|eauto].
    + split_and!; [|lia|done]. split; [by intros [e ?]|lia].
Qed.

(** ** SameNumber *)

(** C1. For a hand built by [Hand.__init__], a required number [k] in
    [1..10] and a number key, let [m] be the number of positions whose card
    bears that number or is a wildcard.  [SameNumber.find_matches] returns
    for that key a list of [C(m, k)] position sets (none when [m < k]),
    without duplicates, whose members are exactly the sets of [k] matching
    positions. *)
Theorem SameNumber_find_matches_choose
    (cs : list Card) (hand : Hand) (k : Z) (colour_ : string) (number_ : Z) :
  Hand_init cs = Ok hand → 1 ≤ k ≤ 10 →
  ∃ sets,
    SameNumber_find_matches k hand colour_ number_ = Ok sets ∧
    length sets =
      binomial (length (filter (matches_number number_) (cards hand))) (Z.to_nat k) ∧
    ((length (filter (matches_number number_) (cards hand)) < Z.to_nat k)%nat →
     sets = []) ∧
    NoDup sets ∧
    ∀ X : PositionSet,
      X ∈ sets ↔
      size X = Z.to_nat k ∧
      ∀ i, i ∈ X → ∃ card, cards hand !! i = Some card ∧ matches_number number_ card.
Proof.
  intros _ Hk. unfold SameNumber_find_matches.
  destruct (select_matches_choose k
              (positions_where (matches_number number_) (cards hand)))
    as (sets & Hsets & Hlen & Hnd & Hin).
  { apply NoDup_positions_where. }
  { lia. }
  exists sets. rewrite length_positions_where in Hlen. split_and!; try done.
  - intros Hm. rewrite binomial_gt in Hlen by done. by destruct sets.
  - intros X. rewrite Hin. apply and_iff_compat_l. split.
    + intros Hsub i Hi. apply Hsub, elem_of_list_to_set in Hi.
      by apply elem_of_positions_where in Hi.
    + intros HX i Hi. apply elem_of_list_to_set, elem_of_positions_where. auto.
Qed.

Lemma SameNumber_find_matches_choose_witness :
  ∃ sets,
    SameNumber_find_matches 3 test_hand "any" 6 = Ok sets ∧
    length sets =
      binomial (length (filter (matches_number 6) (cards test_hand))) (Z.to_nat 3) ∧
    ((length (filter (matches_number 6) (cards test_hand)) < Z.to_nat 3)%nat →
     sets = []) ∧
    NoDup sets ∧
    ∀ X : PositionSet,
      X ∈ sets ↔
      size X = Z.to_nat 3 ∧
      ∀ i, i ∈ X → ∃ card, cards test_hand !! i = Some card ∧ matches_number 6 card.
Proof.
  apply (SameNumber_find_matches_choose test_hand_cards test_hand 3 "any" 6);
    [reflexivity | lia].
Defined.

(** ** Iteration orders *)

Section iteration.
Context `{SetOrder} `{Countable A}.
Implicit Types X : gset A.

Lemma elem_of_iter X x : x ∈ iter X ↔ x ∈ X.
Proof. by rewrite iter_perm, elem_of_elements. Qed.

End iteration.

(** ** More facts about outcomes *)

Lemma bind_Ok {A B} (m : outcome A) (k : A → outcome B) (b : B) :
  bind m k = Ok b ↔ ∃ a, m = Ok a ∧ k a = Ok b.
Proof.
  destruct m as [a| |]; simpl; split; try done.
  - eauto.
  - by intros (a' & [= <-] & ?).
  - by intros (? & ? & ?).
  - by intros (? & ? & ?).
Qed.

Lemma filter_each_total {A} (f : A → outcome bool) (l : list A) :
  (∀ x, x ∈ l → ∃ b, f x = Ok b) →
  ∃ l', filter_each f l = Ok l' ∧ ∀ x, x ∈ l' ↔ x ∈ l ∧ f x = Ok true.
Proof.
  induction l as [|x l IH]; intros Hf; simpl.
  - exists []. split; [done|]. intros x. rewrite elem_of_nil. naive_solver.
  - destruct (Hf x) as [b Hb]; [by left|].
    destruct IH as (l' & Hl' & Hin); [intros y Hy; apply Hf; by right|].
    rewrite Hb, Hl'. simpl. eexists. split; [done|].
    intros y. destruct b.
    + rewrite !elem_of_cons, Hin. split; [|tauto].
      intros [->|[??]]; auto.
    + rewrite elem_of_cons, Hin. split; [tauto|].
      intros [[->|?] ?]; [congruence|auto].
Qed.

Lemma for_each_total {A B} (f : A → outcome B) (l : list A) :
  (∀ x, x ∈ l → ∃ y, f x = Ok y) → ∃ ys, for_each f l = Ok ys.
Proof.
  induction l as [|x l IH]; intros Hf; simpl; [by eexists|].
  destruct (Hf x) as [y Hy]; [by left|].
  destruct IH as [ys Hys]; [intros z Hz; apply Hf; by right|].
  rewrite Hy, Hys. simpl. by eexists.
Qed.

(** ** The shared derivation of [hand_passed] *)

Lemma hand_passed_nonempty `{SetOrder} (self : Condition) (hand : Hand)
    (res : list PositionSet) :
  possibilities self hand = Ok res → res ≠ [] → hand_passed self hand = Ok true.
Proof.
  intros Hres Hne. unfold hand_passed. rewrite Hres. simpl.
  by destruct res.
Qed.

Lemma hand_passed_true_inv `{SetOrder} (self : Condition) (hand : Hand) :
  hand_passed self hand = Ok true →
  ∃ res, possibilities self hand = Ok res ∧ (length res > 0)%nat.
Proof.
  unfold hand_passed. intros (res & Hres & Hlen)%bind_Ok.
  exists res. split; [done|]. destruct res; [done|simpl; lia].
Qed.

(** C8. For every condition, whatever its class, and every hand,
    [hand_passed] returns [True] exactly when [possibilities] returns a list
    of length greater than zero, and [False] exactly when it returns an
    empty list.  [hand_passed] is one definition that does not look at the
    class of the condition: only [possibilities] is dispatched. *)
Theorem hand_passed_iff_possibilities `{SetOrder} (self : Condition) (hand : Hand) :
  (hand_passed self hand = Ok true ↔
   ∃ l, possibilities self hand = Ok l ∧ (length l > 0)%nat) ∧
  (hand_passed self hand = Ok false ↔
   ∃ l, possibilities self hand = Ok l ∧ length l = 0%nat).
Proof.
  unfold hand_passed. split; rewrite bind_Ok; split.
  - intros (l & Hl & Hlen). exists l. split; [done|].
    unfold len in Hlen. destruct (Z.gtb_spec (Z.of_nat (length l)) 0); [lia|done].
  - intros (l & Hl & Hlen). exists l. split; [done|].
    unfold len. destruct (Z.gtb_spec (Z.of_nat (length l)) 0); [done|lia].
  - intros (l & Hl & Hlen). exists l. split; [done|].
    unfold len in Hlen. destruct (Z.gtb_spec (Z.of_nat (length l)) 0); [done|lia].
  - intros (l & Hl & Hlen). exists l. split; [done|].
    unfold len. destruct (Z.gtb_spec (Z.of_nat (length l)) 0); [lia|done].
Qed.

(** ** Disjoint slots *)

Lemma pairwise_disjoint_sublist (l1 l2 : list PositionSet) :
  l1 `sublist_of` l2 → pairwise_disjoint l2 → pairwise_disjoint l1.
Proof.
  induction 1 as [|X l1 l2 Hsub IH|X l1 l2 Hsub IH]; simpl; [done| |].
  - intros [Hall Hrest]. split; [|auto].
    rewrite Forall_forall in *. intros Y HY. apply Hall.
    by eapply elem_of_sublist.
  - intros [_ Hrest]. auto.
Qed.

Lemma choice_of_length (slots : list PositionSet) (ps : list nat) :
  choice_of slots ps → length ps = length slots.
Proof. apply Forall2_length. Qed.

Lemma choice_of_subseteq (slots : list PositionSet) (ps : list nat) :
  choice_of slots ps → list_to_set (C:=PositionSet) ps ⊆ union_of slots.
Proof.
  unfold union_of. induction 1 as [|p slot ps slots Hp _ IH]; simpl; set_solver.
Qed.

Lemma choice_of_NoDup (slots : list PositionSet) (ps : list nat) :
  pairwise_disjoint slots → choice_of slots ps → NoDup ps.
Proof.
  intros Hdisj Hch. induction Hch as [|p slot ps slots Hp Hch IH]; [constructor|].
  destruct Hdisj as [Hall Hrest]. constructor; [|auto].
  intros Hin. apply list_elem_of_lookup in Hin as [i Hi].
  destruct (Forall2_lookup_l _ _ _ _ _ Hch Hi) as (slot' & Hslot' & Hp').
  rewrite Forall_forall in Hall.
  assert (slot ## slot') as Hdisj by (by eapply Hall, list_elem_of_lookup_2).
  set_solver.
Qed.

Lemma choice_of_size (slots : list PositionSet) (ps : list nat) :
  pairwise_disjoint slots → choice_of slots ps →
  size (list_to_set (C:=PositionSet) ps) = length slots.
Proof.
  intros Hdisj Hch. rewrite size_list_to_set by by eapply choice_of_NoDup.
  by apply choice_of_length.
Qed.

(** ** [get_combinations] and [get_possibilities] *)

Section combinations.
Context `{SetOrder}.

Lemma get_combinations_spec (slots : list PositionSet) :
  slots ≠ [] →
  ∃ res, get_combinations slots = Ok res ∧
    ∀ X, X ∈ res ↔ ∃ ps, choice_of slots ps ∧ X = list_to_set ps.
Proof.
  induction slots as [|slot slots IH]; [done|]. intros _.
  destruct slots as [|slot' slots].
  - eexists. split; [done|]. intros X. rewrite list_elem_of_fmap. split.
    + intros (p & -> & Hp%elem_of_iter). exists [p]. split.
      * by repeat constructor.
      * simpl. by rewrite (right_id_L _ _).
    + intros (ps & Hch & ->). inversion Hch as [|p ? ps' ? Hp Hch']; subst.
      inversion Hch'; subst. exists p. split.
      * simpl. by rewrite (right_id_L _ _).
      * by apply elem_of_iter.
  - destruct IH as (subs & Hsubs & Hin); [done|].
    cbn [get_combinations]. cbn [get_combinations] in Hsubs. rewrite Hsubs.
    simpl. eexists. split; [done|]. intros X.
    rewrite list_elem_of_bind. split.
    + intros (p & (sub & HX & Hsub)%list_elem_of_bind & Hp%elem_of_iter).
      apply list_elem_of_singleton in HX as ->.
      apply Hin in Hsub as (ps & Hch & ->).
      exists (p :: ps). split; [by constructor|]. simpl. set_solver.
    + intros (ps & Hch & ->). inversion Hch as [|p ? ps' ? Hp Hch']; subst.
      exists p. split; [|by apply elem_of_iter].
      apply list_elem_of_bind. exists (list_to_set ps'). split.
      * apply list_elem_of_singleton. simpl. set_solver.
      * apply Hin. eauto.
Qed.

Lemma slice_window {A} (l : list A) (i : nat) (k : Z) :
  0 ≤ k → Z.of_nat i + k ≤ len l →
  slice l (Z.of_nat i) (k + Z.of_nat i) = take (Z.to_nat k) (drop i l).
Proof.
  intros Hk Hik. unfold slice, slice_index.
  destruct (Z.ltb_spec (Z.of_nat i) 0); [lia|].
  destruct (Z.ltb_spec (k + Z.of_nat i) 0); [lia|].
  f_equal; [|f_equal]; lia.
Qed.

Lemma get_possibilities_spec (k : Z) (streak : list PositionSet) :
  1 ≤ k →
  ∃ res, get_possibilities k streak = Ok res ∧
    ∀ X, X ∈ res ↔
      ∃ (i : nat) ps,
        (i + Z.to_nat k ≤ length streak)%nat ∧
        choice_of (take (Z.to_nat k) (drop i streak)) ps ∧
        X = list_to_set ps.
Proof.
  intros Hk. unfold get_possibilities.
  set (f := λ i : nat, get_combinations (slice streak (Z.of_nat i) (k + Z.of_nat i))).
  assert (∀ i, i ∈ range (len streak - k + 1) →
               (i + Z.to_nat k ≤ length streak)%nat ∧
               f i = get_combinations (take (Z.to_nat k) (drop i streak))) as Hf.
  { intros i Hi. rewrite range_seq in Hi. apply elem_of_seq in Hi.
    unfold len in Hi. split; [lia|]. unfold f.
    rewrite slice_window by (unfold len; lia). done. }
  assert (∀ i, (i + Z.to_nat k ≤ length streak)%nat →
               take (Z.to_nat k) (drop i streak) ≠ []) as Hne.
  { intros i Hi Hnil. apply (f_equal length) in Hnil.
    rewrite length_take, length_drop in Hnil. simpl in Hnil. lia. }
  destruct (for_each_total f (range (len streak - k + 1))) as [ys Hys].
  { intros i Hi. destruct (Hf i Hi) as [Hlen ->].
    destruct (get_combinations_spec _ (Hne i Hlen)) as (res & Hres & _). eauto. }
  rewrite Hys. simpl. eexists. split; [done|].
  apply for_each_Ok_Forall2 in Hys.
  intros X. rewrite list_elem_of_join. split.
  - intros (y & HX & Hy). apply list_elem_of_lookup in Hy as [j Hj].
    destruct (Forall2_lookup_r _ _ _ _ _ Hys Hj) as (i & Hi & Hfi).
    apply list_elem_of_lookup_2 in Hi. destruct (Hf i Hi) as [Hlen Hfi'].
    rewrite Hfi' in Hfi.
    destruct (get_combinations_spec _ (Hne i Hlen)) as (res & Hres & Hin).
    rewrite Hres in Hfi. injection Hfi as <-.
    apply Hin in HX as (ps & Hch & ->). eauto.
  - intros (i & ps & Hlen & Hch & ->).
    assert (i ∈ range (len streak - k + 1)) as Hi.
    { rewrite range_seq. apply elem_of_seq. unfold len. lia. }
    apply list_elem_of_lookup in Hi as Hi'. destruct Hi' as [j Hj].
    destruct (Forall2_lookup_l _ _ _ _ _ Hys Hj) as (y & Hy & Hfi).
    destruct (Hf i Hi) as [_ Hfi']. rewrite Hfi' in Hfi.
    destruct (get_combinations_spec _ (Hne i Hlen)) as (res & Hres & Hin).
    rewrite Hres in Hfi. injection Hfi as <-.
    exists res. split; [|by eapply list_elem_of_lookup_2].
    apply Hin. eauto.
Qed.

(** With a required number below 1 some window is empty, and
    [get_combinations] does not return on it. *)
Lemma get_possibilities_nonpositive (k : Z) (streak res : list PositionSet) :
  k ≤ 0 → get_possibilities k streak ≠ Ok res.
Proof.
  intros Hk. unfold get_possibilities. rewrite bind_Ok.
  intros (ys & Hys & _). apply for_each_Ok_Forall2 in Hys.
  assert (Z.to_nat (- k) ∈ range (len streak - k + 1)) as Hi.
  { rewrite range_seq. apply elem_of_seq. unfold len. lia. }
  apply list_elem_of_lookup in Hi as [j Hj].
  destruct (Forall2_lookup_l _ _ _ _ _ Hys Hj) as (y & _ & Hy).
  rewrite Z2Nat.id in Hy by lia.
  replace (k + - k) with 0 in Hy by lia.
  unfold slice, slice_index in Hy.
  change (0 <? 0) with false in Hy. cbv iota in Hy.
  replace (Z.to_nat (0 `min` len streak)) with 0%nat in Hy by (unfold len; lia).
  by rewrite Nat.sub_0_l, take_0 in Hy.
Qed.
End combinations.

(** ** The streak loops *)

Lemma NoDup_fst_agree {A B} (l : list (A * B)) (i : A) (a b : B) :
  NoDup l.*1 → (i, a) ∈ l → (i, b) ∈ l → a = b.
Proof.
  intros Hnd Ha Hb.
  apply list_elem_of_lookup in Ha as [j Hj], Hb as [j' Hj'].
  assert (j = j') as <-.
  { eapply NoDup_lookup; [done| |]; rewrite list_lookup_fmap.
    - by rewrite Hj.
    - by rewrite Hj'. }
  congruence.
Qed.

Lemma pop_snoc {A} (l : list A) :
  l ≠ [] → ∃ l' x, pop l = Ok (l', x) ∧ l = l' ++ [x].
Proof.
  destruct l as [|y l _] using rev_ind; [done|]. intros _.
  exists l, y. unfold pop. rewrite last_snoc, length_app. simpl.
  replace (pred (length l + 1)) with (length l) by lia.
  by rewrite take_app_length.
Qed.

Lemma length_filter_split {A} (P Q R : A → Prop)
    `{!∀ x, Decision (P x)} `{!∀ x, Decision (Q x)} `{!∀ x, Decision (R x)}
    (l : list A) :
  (∀ x, P x ↔ (Q x ∨ R x)) → (∀ x, Q x → R x → False) →
  length (filter P l) = (length (filter Q l) + length (filter R l))%nat.
Proof.
  intros HP Hex. induction l as [|x l IH]; [done|].
  rewrite !filter_cons.
  destruct (decide (P x)) as [Hp|Hp], (decide (Q x)) as [Hq|Hq],
    (decide (R x)) as [Hr|Hr]; simpl; rewrite IH; try lia;
    exfalso; naive_solver.
Qed.

Lemma length_filter_exclusive {A} (Q R : A → Prop)
    `{!∀ x, Decision (Q x)} `{!∀ x, Decision (R x)} (l : list A) :
  (∀ x, Q x → R x → False) →
  (length (filter Q l) + length (filter R l) ≤ length l)%nat.
Proof.
  intros Hex. induction l as [|x l IH]; [done|].
  rewrite !filter_cons.
  destruct (decide (Q x)) as [Hq|Hq], (decide (R x)) as [Hr|Hr]; simpl; try lia.
  exfalso. eauto.
Qed.

Section streak_loop.
Context (candidates : list (nat * Card)).
Hypothesis candidates_NoDup : NoDup candidates.*1.

Local Notation at_least n := (filter (λ card, n ≤ number card.2) candidates).
Local Notation exactly n := (filter (λ card, number card.2 = n) candidates).

Lemma length_at_least (n : Z) :
  length (at_least n) = (length (exactly n) + length (at_least (n + 1)))%nat.
Proof. apply length_filter_split; intros [i card]; simpl; lia. Qed.

Lemma streak_supply_mono (jokers jokers' : list (nat * Card)) (n : Z) :
  jokers' ⊆ jokers →
  streak_supply candidates jokers' (n + 1) ⊆ streak_supply candidates jokers n.
Proof.
  intros Hsub i. unfold streak_supply.
  rewrite !elem_of_union, !elem_of_list_to_set, !list_elem_of_fmap.
  intros [(ic & -> & Hic)|(ic & -> & [Hn Hic]%list_elem_of_filter)].
  - left. exists ic. auto.
  - right. exists ic. split; [done|]. apply list_elem_of_filter. split; [lia|done].
Qed.

Lemma streak_supply_subseteq (jokers : list (nat * Card)) (n : Z) :
  jokers ⊆ candidates →
  streak_supply candidates jokers n ⊆ list_to_set candidates.*1.
Proof.
  intros Hsub i. unfold streak_supply.
  rewrite !elem_of_union, !elem_of_list_to_set, !list_elem_of_fmap.
  intros [(ic & -> & Hic)|(ic & -> & [Hn Hic]%list_elem_of_filter)]; eauto.
Qed.

Lemma streak_loop_spec (fuel : nat) (streak : list PositionSet)
    (jokers : list (nat * Card)) (n : Z) :
  jokers `sublist_of` exactly (-1) → 0 ≤ n →
  (length jokers + length (at_least n) < fuel)%nat →
  ∃ streak' n',
    streak_loop fuel candidates streak jokers n = Ok (streak ++ streak', n') ∧
    n < n' ∧
    Forall (λ slot, slot ⊆ streak_supply candidates jokers n) streak' ∧
    pairwise_disjoint streak'.
Proof.
  revert streak jokers n.
  induction fuel as [|fuel IH]; intros streak jokers n Hjok Hn Hfuel; [lia|].
  assert (NoDup jokers.*1) as Hjnd.
  { eapply sublist_NoDup; [apply candidates_NoDup|].
    apply fmap_sublist. etrans; [done|]. apply sublist_filter. }
  assert (∀ i card, (i, card) ∈ jokers → (i, card) ∈ candidates ∧ number card = -1)
    as Hjin.
  { intros i card Hin. eapply elem_of_sublist in Hin; [|done].
    apply list_elem_of_filter in Hin. naive_solver. }
  cbn [streak_loop].
  pose proof (length_at_least n) as Hsplit.
  destruct (exactly n) as [|c0 cs0] eqn:Hex.
  - destruct (decide (jokers = [])) as [->|Hne].
    + (* the streak is broken *)
      simpl. exists [], (n + 1). rewrite app_nil_r.
      split_and!; [done|lia|constructor|done].
    + (* a joker fills the slot *)
      destruct (pop_snoc jokers Hne) as (jokers' & [j jc] & Hpop & Hjokers).
      replace (len jokers >? 0) with true
        by (symmetry; apply Z.gtb_lt; unfold len; destruct jokers; simpl; [done|lia]).
      simpl. rewrite Hpop. simpl.
      assert (jokers' `sublist_of` jokers) as Hsub'
        by (rewrite Hjokers; by apply sublist_inserts_r).
      destruct (IH (streak ++ [{[j]}]) jokers' (n + 1)) as (streak' & n' & Hrun & Hlt & Hin & Hdisj).
      { by etrans. }
      { lia. }
      { rewrite Hjokers, length_app in Hfuel. simpl in *. lia. }
      exists ({[j]} :: streak'), n'. rewrite Hrun, <- (assoc_L _ _).
      assert ((j, jc) ∈ jokers) as Hj by (rewrite Hjokers; set_solver).
      assert (∀ slot, slot ∈ streak' →
                slot ⊆ streak_supply candidates jokers' (n + 1)) as Hin'
        by (by apply Forall_forall).
      split_and!; [done|lia| |].
      * constructor.
        -- unfold streak_supply. apply singleton_subseteq_l, elem_of_union. left.
           apply elem_of_list_to_set, list_elem_of_fmap. by exists (j, jc).
        -- apply Forall_forall. intros slot Hslot. etrans; [by apply Hin'|].
           apply streak_supply_mono. by apply sublist_subseteq.
      * split; [|done]. apply Forall_forall. intros slot Hslot.
        apply disjoint_singleton_l. intros Hjs. apply Hin' in Hjs; [|done].
        unfold streak_supply in Hjs.
        rewrite elem_of_union, !elem_of_list_to_set, !list_elem_of_fmap in Hjs.
        destruct Hjs as [([j' jc'] & Heq & Hjc')|([j' jc'] & Heq & [Hnum Hjc']%list_elem_of_filter)];
          simpl in Heq; subst j'.
        -- rewrite Hjokers, fmap_app in Hjnd. apply NoDup_app in Hjnd as (_ & Hnot & _).
           apply (Hnot j); [|set_solver].
           apply list_elem_of_fmap. by exists (j, jc').
        -- destruct (Hjin j jc Hj) as [Hc Hnum'].
           assert (jc = jc') as <-. { eapply NoDup_fst_agree; [apply candidates_NoDup|done..]. }
           simpl in Hnum. lia.
  - (* the cards of this number fill the slot *)
    change (len (c0 :: cs0) =? 0) with false.
    change (len (c0 :: cs0) >? 0) with true. cbn [andb].
    destruct (IH (streak ++ [list_to_set (c0 :: cs0).*1]) jokers (n + 1))
      as (streak' & n' & Hrun & Hlt & Hin & Hdisj); [done|lia|simpl in *; lia|].
    exists (list_to_set (c0 :: cs0).*1 :: streak'), n'.
    rewrite Hrun, <- (assoc_L _ _).
    assert (∀ slot, slot ∈ streak' →
              slot ⊆ streak_supply candidates jokers (n + 1)) as Hin'
      by (by apply Forall_forall).
    assert (∀ i, i ∈ (list_to_set (c0 :: cs0).*1 : PositionSet) →
              ∃ card, (i, card) ∈ candidates ∧ number card = n) as Hslot0.
    { intros i. rewrite <- Hex, elem_of_list_to_set, list_elem_of_fmap.
      intros ([i' card] & -> & [Hnum Hic]%list_elem_of_filter). eauto. }
    split_and!; [done|lia| |].
    + constructor.
      * intros i Hi. destruct (Hslot0 i Hi) as (card & Hic & Hnum).
        unfold streak_supply. apply elem_of_union. right.
        apply elem_of_list_to_set, list_elem_of_fmap. exists (i, card).
        split; [done|]. apply list_elem_of_filter. simpl. split; [lia|done].
      * apply Forall_forall. intros slot Hslot. etrans; [by apply Hin'|].
        by apply streak_supply_mono.
    + split; [|done]. apply Forall_forall. intros slot Hslot i Hi Hi'.
      destruct (Hslot0 i Hi) as (card & Hic & Hnum).
      apply Hin' in Hi'; [|done]. unfold streak_supply in Hi'.
      rewrite elem_of_union, !elem_of_list_to_set, !list_elem_of_fmap in Hi'.
      destruct Hi' as [([i' card'] & Heq & Hjc')|([i' card'] & Heq & [Hnum' Hjc']%list_elem_of_filter)];
        simpl in Heq; subst i'.
      * destruct (Hjin i card' Hjc') as [Hc Hnum'].
        assert (card = card') as <-.
        { eapply NoDup_fst_agree; [apply candidates_NoDup|done..]. }
        lia.
      * assert (card = card') as <-.
        { eapply NoDup_fst_agree; [apply candidates_NoDup|done..]. }
        simpl in Hnum'. lia.
Qed.
End streak_loop.

Section streaks_loop.
Context `{SetOrder}.

Lemma streaks_loop_done (fuel : nat) (k : Z) (candidates : list (nat * Card))
    (acc : list PositionSet) (n : Z) :
  12 < n → streaks_loop fuel k candidates acc n = Ok acc.
Proof.
  intros Hn. destruct fuel; cbn [streaks_loop];
    by destruct (Z.leb_spec n 12); [lia|].
Qed.

(** One pass of the outer loop. *)
Lemma streaks_loop_step (fuel : nat) (k : Z) (candidates : list (nat * Card))
    (acc streak combinations : list PositionSet) (n n' : Z) :
  n ≤ 12 →
  streak_loop (S (length candidates)) candidates []
    (filter (λ card, number card.2 = -1) candidates) n = Ok (streak, n') →
  get_possibilities k streak = Ok combinations →
  streaks_loop (S fuel) k candidates acc n =
  streaks_loop fuel k candidates (acc ++ combinations) n'.
Proof.
  intros Hn Hstreak Hcomb. cbn [streaks_loop].
  destruct (Z.leb_spec n 12); [|lia].
  rewrite Hstreak. simpl. by rewrite Hcomb.
Qed.

Lemma streaks_loop_spec (fuel : nat) (k : Z) (candidates : list (nat * Card))
    (acc : list PositionSet) (n : Z) :
  NoDup candidates.*1 → 1 ≤ k → 0 ≤ n → 13 - n ≤ Z.of_nat fuel →
  ∃ res,
    streaks_loop fuel k candidates acc n = Ok (acc ++ res) ∧
    Forall (λ X : PositionSet,
              Z.of_nat (size X) = k ∧ X ⊆ list_to_set candidates.*1) res.
Proof.
  intros Hnd Hk. revert acc n.
  induction fuel as [|fuel IH]; intros acc n Hn Hfuel.
  { exists []. rewrite streaks_loop_done, app_nil_r by lia. by split. }
  destruct (decide (12 < n)) as [Hdone|Hgo].
  { exists []. rewrite streaks_loop_done, app_nil_r by lia. by split. }
  set (jokers := filter (λ card : nat * Card, number card.2 = -1) candidates).
  destruct (streak_loop_spec candidates Hnd (S (length candidates)) [] jokers n)
    as (streak & n' & Hstreak & Hlt & Hsupply & Hdisj); [done|done| |].
  { apply Nat.lt_succ_r. apply length_filter_exclusive.
    intros [i card]; simpl; lia. }
  destruct (get_possibilities_spec k streak Hk) as (combinations & Hcomb & Hin).
  destruct (IH (acc ++ combinations) n') as (res & Hres & Hall); [lia..|].
  exists (combinations ++ res).
  rewrite (streaks_loop_step fuel k candidates acc streak combinations n n')
    by (done || lia).
  rewrite Hres, (assoc_L _ _). split; [done|].
  apply Forall_app. split; [|done].
  apply Forall_forall. intros X (i & ps & Hi & Hch & ->)%Hin.
  assert (take (Z.to_nat k) (drop i streak) `sublist_of` streak) as Hsub.
  { etrans; [apply sublist_take|apply sublist_drop]. }
  split.
  - rewrite (choice_of_size (take (Z.to_nat k) (drop i streak))); [|by eapply pairwise_disjoint_sublist|done].
    rewrite length_take, length_drop. lia.
  - etrans; [by apply choice_of_subseteq|].
    intros p (slot & Hslot & Hp)%elem_of_union_list.
    eapply elem_of_sublist in Hslot; [|done].
    rewrite Forall_forall in Hsupply.
    eapply streak_supply_subseteq; [|by eapply Hsupply].
    apply sublist_subseteq, sublist_filter.
Qed.
End streaks_loop.

(** ** The budgets do not matter

    A loop that finished within its budget returns the same with a larger
    one. *)

Lemma streak_loop_more_fuel (fuel fuel' : nat) (candidates : list (nat * Card))
    (streak : list PositionSet) (jokers : list (nat * Card)) (n : Z)
    (r : list PositionSet * Z) :
  streak_loop fuel candidates streak jokers n = Ok r → (fuel ≤ fuel')%nat →
  streak_loop fuel' candidates streak jokers n = Ok r.
Proof.
  revert fuel' streak jokers n.
  induction fuel as [|fuel IH]; intros fuel' streak jokers n; [done|].
  destruct fuel' as [|fuel']; [lia|]. cbn [streak_loop]. intros Hrun Hle.
  repeat case_match; try done.
  - apply bind_Ok in Hrun as ([jokers' joker] & Hpop & Hrun).
    rewrite Hpop. simpl. apply IH; [done|lia].
  - apply IH; [done|lia].
Qed.

Lemma internal_possibilities_more_fuel (fuel fuel' : nat) (prefix : PositionSet)
    (sub_range : list nat) (remaining_levels : Z) (res : list PositionSet) :
  internal_possibilities fuel prefix sub_range remaining_levels = Ok res →
  (fuel ≤ fuel')%nat →
  internal_possibilities fuel' prefix sub_range remaining_levels = Ok res.
Proof.
  revert fuel' prefix sub_range remaining_levels res.
  induction fuel as [|fuel IH]; intros fuel' prefix sub_range levels res; [done|].
  destruct fuel' as [|fuel']; [lia|]. cbn [internal_possibilities]. intros Hrun Hle.
  destruct (levels =? 1); [done|].
  apply bind_Ok in Hrun as (subs & (ys & Hys & [= <-])%bind_Ok & [= <-]).
  apply for_each_Ok_Forall2 in Hys.
  assert (for_each
            (λ rem, list_modified ←! del sub_range rem;
                    internal_possibilities fuel' (list_to_set (take rem list_modified))
                      (drop rem list_modified) (levels - 1))
            (range (len sub_range - levels + 1)) = Ok ys) as ->; [|done].
  apply for_each_Ok_Forall2. eapply Forall2_impl; [done|].
  intros rem y (list_modified & Hdel & Hrec)%bind_Ok.
  rewrite Hdel. simpl. apply IH; [done|lia].
Qed.

Lemma streaks_loop_more_fuel `{SetOrder} (fuel fuel' : nat) (k : Z)
    (candidates : list (nat * Card)) (acc res : list PositionSet) (n : Z) :
  streaks_loop fuel k candidates acc n = Ok res → (fuel ≤ fuel')%nat →
  streaks_loop fuel' k candidates acc n = Ok res.
Proof.
  revert fuel' acc n. induction fuel as [|fuel IH]; intros fuel' acc n Hrun Hle.
  - destruct (decide (12 < n)) as [Hn|Hn].
    + rewrite streaks_loop_done in Hrun by done. by rewrite streaks_loop_done.
    + cbn [streaks_loop] in Hrun. by destruct (Z.leb_spec n 12); [|lia].
  - destruct fuel' as [|fuel']; [lia|]. cbn [streaks_loop] in *.
    destruct (n <=? 12); [|done].
    apply bind_Ok in Hrun as ([streak n'] & -> & Hrun). simpl.
    apply bind_Ok in Hrun as (combinations & -> & Hrun). simpl.
    apply IH; [done|lia].
Qed.

(** ** The candidates of a run *)

Lemma insert_by_number_perm (x : nat * Card) (l : list (nat * Card)) :
  insert_by_number x l ≡ₚ x :: l.
Proof.
  induction l as [|y l IH]; simpl; [done|].
  destruct (number x.2 <=? number y.2); [done|].
  rewrite IH. apply Permutation_swap.
Qed.

Lemma sorted_by_number_perm (l : list (nat * Card)) : sorted_by_number l ≡ₚ l.
Proof.
  induction l as [|x l IH]; simpl; [done|].
  by rewrite insert_by_number_perm, IH.
Qed.

Lemma AnyList_candidates_perm (hand : Hand) :
  AnyList_candidates hand ≡ₚ enumerate (cards hand).
Proof. apply sorted_by_number_perm. Qed.

Lemma AnyList_candidates_NoDup (hand : Hand) : NoDup (AnyList_candidates hand).*1.
Proof.
  rewrite AnyList_candidates_perm, fst_enumerate. apply NoDup_seq.
Qed.

Lemma AnyList_candidates_positions (hand : Hand) (i : nat) :
  i ∈ (list_to_set (AnyList_candidates hand).*1 : PositionSet) ↔
  (i < length (cards hand))%nat.
Proof.
  rewrite elem_of_list_to_set, AnyList_candidates_perm, fst_enumerate, elem_of_seq.
  lia.
Qed.

(** [ListBased.possibilities] finishes within its budgets; every set it
    returns has [required_number] positions of the hand. *)
Lemma ListBased_possibilities_finishes `{SetOrder} (k : Z) (hand : Hand) :
  1 ≤ k →
  ∃ res,
    ListBased_possibilities k (AnyList_candidates hand) = Ok res ∧
    Forall (λ X : PositionSet,
              Z.of_nat (size X) = k ∧ ∀ i, i ∈ X → (i < length (cards hand))%nat) res.
Proof.
  intros Hk. unfold ListBased_possibilities.
  destruct (streaks_loop_spec 12 k (AnyList_candidates hand) [] 1)
    as (res & Hres & Hall); [apply AnyList_candidates_NoDup|done|lia|lia|].
  exists res. split; [done|].
  eapply Forall_impl; [done|]. intros X [Hsize Hsub]. split; [done|].
  intros i Hi. by apply AnyList_candidates_positions, Hsub.
Qed.

(** With a required number below 1, [ListBased.possibilities] does not
    return: its first call of [get_possibilities] fails. *)
Lemma ListBased_possibilities_nonpositive `{SetOrder} (k : Z)
    (candidates : list (nat * Card)) (res : list PositionSet) :
  k ≤ 0 → ListBased_possibilities k candidates ≠ Ok res.
Proof.
  intros Hk. unfold ListBased_possibilities. cbn [streaks_loop].
  change (1 <=? 12) with true. cbv iota.
  rewrite bind_Ok. intros ([streak n'] & _ & Hrest).
  apply bind_Ok in Hrest as (combinations & Hcomb & _).
  by apply get_possibilities_nonpositive in Hcomb.
Qed.

(** ** The monochrome filter *)

Section all_same_colour.
Context `{SetOrder}.

Lemma getitem_Ok {A} (l : list A) (i : nat) (x : A) :
  l !! i = Some x → getitem l i = Ok x.
Proof. unfold getitem. by intros ->. Qed.

Lemma getitem_lt {A} (l : list A) (i : nat) :
  (i < length l)%nat → ∃ x, l !! i = Some x ∧ getitem l i = Ok x.
Proof.
  intros [x Hx]%lookup_lt_is_Some_2. exists x. split; [done|].
  by apply getitem_Ok.
Qed.

Lemma colour_loop_total (hand : Hand) (target : Card) (positions : list nat) :
  (∀ i, i ∈ positions → (i < length (cards hand))%nat) →
  ∃ b, colour_loop hand target positions = Ok b.
Proof.
  induction positions as [|pos positions IH]; intros Hvalid; simpl; [by eexists|].
  destruct (getitem_lt (cards hand) pos) as (card & _ & ->); [apply Hvalid; by left|].
  simpl. destruct (negb _); [by eexists|].
  apply IH. intros i Hi. apply Hvalid. by right.
Qed.

Lemma colour_loop_true (hand : Hand) (target : Card) (positions : list nat) :
  (∀ i, i ∈ positions →
        ∃ card, cards hand !! i = Some card ∧
                str_in (colour target) (colour card) = true) →
  colour_loop hand target positions = Ok true.
Proof.
  induction positions as [|pos positions IH]; intros Hall; simpl; [done|].
  destruct (Hall pos) as (card & Hcard & Hin); [by left|].
  rewrite (getitem_Ok _ _ _ Hcard). simpl. rewrite Hin. simpl.
  apply IH. intros i Hi. apply Hall. by right.
Qed.

(** The list [targets] of [all_same_colour]. *)
Lemma all_same_colour_targets (hand : Hand) (positions : list nat) :
  (∀ i, i ∈ positions → (i < length (cards hand))%nat) →
  ∃ targets,
    filter_each (λ pos, card ←! getitem (cards hand) pos;
                        Ok (bool_decide (number card ≠ -1))) positions
    = Ok targets ∧
    ∀ i, i ∈ targets ↔
         i ∈ positions ∧ ∃ card, cards hand !! i = Some card ∧ number card ≠ -1.
Proof.
  intros Hvalid.
  destruct (filter_each_total
              (λ pos, card ←! getitem (cards hand) pos;
                      Ok (bool_decide (number card ≠ -1))) positions)
    as (targets & Htargets & Hin).
  { intros i Hi. destruct (getitem_lt (cards hand) i) as (card & _ & ->); [by apply Hvalid|].
    simpl. by eexists. }
  exists targets. split; [done|]. intros i. rewrite Hin.
  apply and_iff_compat_l. rewrite bind_Ok. split.
  - intros (card & Hget & [= Hdec]). unfold getitem in Hget.
    destruct (cards hand !! i) as [card'|] eqn:Hi; [|done].
    injection Hget as ->. exists card. split; [done|].
    by apply bool_decide_eq_true in Hdec.
  - intros (card & Hi & Hnum). exists card. split; [by apply getitem_Ok|].
    f_equal. by apply bool_decide_eq_true.
Qed.

Lemma all_same_colour_total (hand : Hand) (positions : PositionSet) :
  (∀ i, i ∈ positions → (i < length (cards hand))%nat) →
  ∃ b, all_same_colour hand positions = Ok b.
Proof.
  intros Hvalid. unfold all_same_colour.
  assert (∀ i, i ∈ iter positions → (i < length (cards hand))%nat) as Hvalid'
    by (intros i Hi%elem_of_iter; auto).
  destruct (all_same_colour_targets hand (iter positions) Hvalid')
    as (targets & -> & Hin).
  simpl. destruct targets as [|first targets]; [by eexists|].
  change (len (first :: targets) =? 0) with false. simpl.
  destruct (getitem_lt (cards hand) first) as (target & _ & ->).
  { apply Hvalid'. apply (Hin first). by left. }
  simpl. by apply colour_loop_total.
Qed.

(** A set of valid positions whose cards all bear one colour passes. *)
Lemma all_same_colour_uniform (hand : Hand) (positions : PositionSet) (col : string) :
  str_in col col = true →
  (∀ i, i ∈ positions → ∃ card, cards hand !! i = Some card ∧ colour card = col) →
  all_same_colour hand positions = Ok true.
Proof.
  intros Hrefl Hall. unfold all_same_colour.
  assert (∀ i, i ∈ iter positions → (i < length (cards hand))%nat) as Hvalid.
  { intros i Hi%elem_of_iter. destruct (Hall i Hi) as (card & Hcard & _).
    by eapply lookup_lt_Some. }
  destruct (all_same_colour_targets hand (iter positions) Hvalid)
    as (targets & -> & Hin).
  simpl. destruct targets as [|first targets]; [done|].
  change (len (first :: targets) =? 0) with false. simpl.
  assert (first ∈ iter positions) as Hfirst by (apply (Hin first); by left).
  destruct (Hall first) as (target & Htarget & Hcol); [by apply elem_of_iter|].
  rewrite (getitem_Ok _ _ _ Htarget). simpl.
  apply colour_loop_true. intros i Hi%elem_of_iter.
  destruct (Hall i Hi) as (card & Hcard & Hcol'). exists card.
  split; [done|]. by rewrite Hcol, Hcol'.
Qed.
End all_same_colour.

(** ** [SetBased.possibilities] *)

Lemma select_matches_member (k : Z) (matches : list nat) (X : PositionSet) :
  NoDup matches →
  (∃ sets, select_matches k matches = Ok sets ∧ X ∈ sets) →
  Z.of_nat (size X) = k ∧ X ⊆ list_to_set matches.
Proof.
  intros Hnd (sets & Hsets & HX). rewrite select_matches_removals in Hsets.
  injection Hsets as <-. case_decide as Hk; [|by apply elem_of_nil in HX].
  apply elem_of_removal_sets in HX as [Hsub Hsize]; [|done].
  unfold len in *. split; [lia|done].
Qed.

Lemma SetBased_possibilities_spec (candidates : list (string * Z))
    (find_matches : string → Z → outcome (list PositionSet)) :
  (∀ c n, ∃ sets, find_matches c n = Ok sets) →
  ∃ res,
    SetBased_possibilities candidates find_matches = Ok res ∧
    ∀ X, X ∈ res ↔
         ∃ candidate sets, candidate ∈ candidates ∧
           find_matches candidate.1 candidate.2 = Ok sets ∧ X ∈ sets.
Proof.
  intros Htotal. unfold SetBased_possibilities.
  destruct (for_each_total (λ candidate, find_matches candidate.1 candidate.2)
              candidates) as [ys Hys]; [by intros [c n] _|].
  rewrite Hys. simpl. eexists. split; [done|].
  apply for_each_Ok_Forall2 in Hys. intros X. rewrite list_elem_of_join. split.
  - intros (sets & HX & Hsets). apply list_elem_of_lookup in Hsets as [j Hj].
    destruct (Forall2_lookup_r _ _ _ _ _ Hys Hj) as (candidate & Hc & Hfm).
    exists candidate, sets. split_and!; [by eapply list_elem_of_lookup_2|done..].
  - intros (candidate & sets & Hc & Hfm & HX).
    apply list_elem_of_lookup in Hc as [j Hj].
    destruct (Forall2_lookup_l _ _ _ _ _ Hys Hj) as (sets' & Hsets' & Hfm').
    rewrite Hfm in Hfm'. injection Hfm' as <-.
    exists sets. split; [done|]. by eapply list_elem_of_lookup_2.
Qed.

Lemma select_matches_total (k : Z) (matches : list nat) :
  ∃ sets, select_matches k matches = Ok sets.
Proof. rewrite select_matches_removals. by eexists. Qed.

(** ** Induction on conditions *)

Lemma Condition_ind (P : Condition → Prop) :
  (∀ c k subs, Forall P subs → P (mkCondition c k subs)) → ∀ self, P self.
Proof.
  intros Hstep. fix IH 1. intros [c k subs]. apply Hstep.
  revert subs. fix IHsubs 1. intros [|sub subs]; constructor.
  - apply IH.
  - apply IHsubs.
Qed.

Lemma filter_each_sublist {A} (f : A → outcome bool) (l l' : list A) :
  filter_each f l = Ok l' → l' `sublist_of` l.
Proof.
  revert l'. induction l as [|x l IH]; intros l'; simpl.
  - by intros [= <-].
  - intros (b & Hb & (ys & Hys & [= <-])%bind_Ok)%bind_Ok.
    destruct b; [apply sublist_skip|apply sublist_cons]; auto.
Qed.

(** ** What the leaves return *)

Section leaves.
Context `{SetOrder}.

Lemma find_matches_member (P : Card → Prop) `{!∀ c, Decision (P c)}
    (k : Z) (hand : Hand) (sets : list PositionSet) (X : PositionSet) :
  select_matches k (positions_where P (cards hand)) = Ok sets → X ∈ sets →
  Z.of_nat (size X) = k ∧ ∀ i, i ∈ X → (i < length (cards hand))%nat.
Proof.
  intros Hsets HX.
  destruct (select_matches_member k (positions_where P (cards hand)) X)
    as [Hsize Hsub]; [apply NoDup_positions_where|eauto|].
  split; [done|]. intros i Hi.
  apply Hsub, elem_of_list_to_set, elem_of_positions_where in Hi
    as (card & Hcard & _).
  by eapply lookup_lt_Some.
Qed.

(** Every set returned by a set or run condition has exactly
    [required_number] positions, all of them positions of the hand. *)
Lemma leaf_possibilities_member (self : Condition) (hand : Hand)
    (res : list PositionSet) (X : PositionSet) :
  is_leaf self → possibilities self hand = Ok res → X ∈ res →
  Z.of_nat (size X) = required_number self ∧
  ∀ i, i ∈ X → (i < length (cards hand))%nat.
Proof.
  destruct self as [c k subs]. unfold is_leaf. simpl. intros Hleaf Hres HX.
  destruct c; [| | | |done]; simpl in Hres.
  - destruct (SetBased_possibilities_spec (SameNumber_candidates hand)
                (SameNumber_find_matches k hand)) as (res' & Hres' & Hin).
    { intros ??. apply select_matches_total. }
    rewrite Hres' in Hres. injection Hres as ->.
    apply Hin in HX as (candidate & sets & _ & Hsets & HX).
    by eapply find_matches_member.
  - destruct (SetBased_possibilities_spec (SameColour_candidates hand)
                (SameColour_find_matches k hand)) as (res' & Hres' & Hin).
    { intros ??. apply select_matches_total. }
    rewrite Hres' in Hres. injection Hres as ->.
    apply Hin in HX as (candidate & sets & _ & Hsets & HX).
    by eapply find_matches_member.
  - destruct (decide (1 ≤ k)) as [Hk|Hk].
    + destruct (ListBased_possibilities_finishes k hand Hk) as (res' & Hres' & Hall).
      rewrite Hres' in Hres. injection Hres as ->.
      rewrite Forall_forall in Hall. by apply Hall.
    + by apply ListBased_possibilities_nonpositive in Hres; [|lia].
  - apply bind_Ok in Hres as (all & Hall' & Hfilter).
    apply filter_each_sublist in Hfilter.
    eapply elem_of_sublist in HX; [|done].
    destruct (decide (1 ≤ k)) as [Hk|Hk].
    + destruct (ListBased_possibilities_finishes k hand Hk) as (res' & Hres' & Hall).
      rewrite Hres' in Hall'. injection Hall' as ->.
      rewrite Forall_forall in Hall. by apply Hall.
    + by apply ListBased_possibilities_nonpositive in Hall'; [|lia].
Qed.
End leaves.

(** ** Totality *)

Lemma possibilities_total `{SetOrder} (self : Condition) (hand : Hand) :
  valid_condition self → ∃ res, possibilities self hand = Ok res.
Proof.
  induction self as [c k subs IH] using Condition_ind. intros Hvalid.
  inversion Hvalid as [c' k' subs' Hleaf Hk|k' subs' Hsubs]; subst.
  - destruct c; [| | | |done]; simpl.
    + destruct (SetBased_possibilities_spec (SameNumber_candidates hand)
                  (SameNumber_find_matches k hand)) as (res & Hres & _); [|eauto].
      intros ??. apply select_matches_total.
    + destruct (SetBased_possibilities_spec (SameColour_candidates hand)
                  (SameColour_find_matches k hand)) as (res & Hres & _); [|eauto].
      intros ??. apply select_matches_total.
    + destruct (ListBased_possibilities_finishes k hand) as (res & Hres & _); [lia|eauto].
    + destruct (ListBased_possibilities_finishes k hand) as (res & Hres & Hall); [lia|].
      rewrite Hres. simpl. rewrite Forall_forall in Hall.
      destruct (filter_each_total (all_same_colour hand) res) as (res' & Hres' & _); [|eauto].
      intros X HX. apply all_same_colour_total. by apply Hall.
  - simpl.
    destruct (for_each_total (λ condition, possibilities condition hand) subs)
      as [ys Hys].
    { intros sub Hsub. rewrite Forall_forall in IH, Hsubs. auto. }
    rewrite Hys. simpl. eauto.
Qed.

Lemma select_matches_short (k : Z) (matches : list nat) :
  len matches < k → select_matches k matches = Ok [].
Proof.
  intros Hlt. unfold select_matches. by destruct (Z.ltb_spec (len matches) k); [|lia].
Qed.

Lemma get_possibilities_short `{SetOrder} (k : Z) (streak : list PositionSet) :
  len streak < k → get_possibilities k streak = Ok [].
Proof.
  intros Hlt. unfold get_possibilities. rewrite range_seq.
  by replace (Z.to_nat (len streak - k + 1)) with 0%nat by lia.
Qed.

(** C7. For a hand built by [Hand.__init__] and a condition (set, run or
    group, groups nested at will) whose set and run conditions have a
    required number in [1..10], [possibilities] returns a list: it raises
    nothing and finishes within the loop budgets of the embedding;
    [hand_passed] then returns a boolean.  The degenerate cases return the
    empty list: a key with fewer matching positions (cards and wildcards)
    than required, and a streak shorter than the window. *)
Theorem possibilities_never_raises `{SetOrder}
    (cs : list Card) (hand : Hand) (self : Condition) :
  Hand_init cs = Ok hand → valid_condition self →
  (∃ res, possibilities self hand = Ok res) ∧
  (∃ b, hand_passed self hand = Ok b) ∧
  (∀ k col n,
     (length (filter (matches_number n) (cards hand)) < Z.to_nat k)%nat →
     SameNumber_find_matches k hand col n = Ok []) ∧
  (∀ k col n,
     (length (filter (matches_colour col) (cards hand)) < Z.to_nat k)%nat →
     SameColour_find_matches k hand col n = Ok []) ∧
  (∀ k streak,
     (length streak < Z.to_nat k)%nat → get_possibilities k streak = Ok []).
Proof.
  intros _ Hvalid. destruct (possibilities_total self hand Hvalid) as [res Hres].
  split_and!.
  - eauto.
  - unfold hand_passed. rewrite Hres. simpl. destruct (len res >? 0); eauto.
  - intros k col n Hlt. apply select_matches_short.
    unfold len. rewrite length_positions_where. lia.
  - intros k col n Hlt. apply select_matches_short.
    unfold len. rewrite length_positions_where. lia.
  - intros k streak Hlt. apply get_possibilities_short. unfold len. lia.
Qed.

Lemma possibilities_never_raises_witness :
  (∃ res, possibilities (H:=elements_order) combination test_hand = Ok res) ∧
  (∃ b, hand_passed (H:=elements_order) combination test_hand = Ok b).
Proof.
  destruct (@possibilities_never_raises elements_order
              test_hand_cards test_hand combination) as (Hres & Hpass & _).
  - reflexivity.
  - apply valid_group. repeat constructor; (discriminate || lia).
  - by split.
Defined.

(** ** The fold of [GroupCondition] *)

Lemma elem_of_disjoint_unions (A B : list PositionSet) (X : PositionSet) :
  X ∈ disjoint_unions A B ↔ ∃ a b, a ∈ A ∧ b ∈ B ∧ a ## b ∧ X = a ∪ b.
Proof.
  unfold disjoint_unions. rewrite list_elem_of_bind. split.
  - intros (a & (b & HX & Hb)%list_elem_of_bind & Ha).
    case_decide; [|by apply elem_of_nil in HX].
    apply list_elem_of_singleton in HX. eauto 10.
  - intros (a & b & Ha & Hb & Hdisj & ->). exists a. split; [|done].
    apply list_elem_of_bind. exists b. split; [|done].
    rewrite decide_True by done. by apply list_elem_of_singleton.
Qed.

Lemma pairwise_disjoint_union_head (a b : PositionSet) (parts : list PositionSet) :
  a ## b →
  pairwise_disjoint ((a ∪ b) :: parts) ↔ pairwise_disjoint (a :: b :: parts).
Proof.
  intros Hab. simpl. rewrite !Forall_cons, !Forall_forall.
  split.
  - intros [Hall Hrest]. split_and!; [done| | |done]; intros Y HY;
      specialize (Hall Y HY); set_solver.
  - intros [[_ Ha] [Hb Hrest]]. split; [|done]. intros Y HY.
    specialize (Ha Y HY). specialize (Hb Y HY). set_solver.
Qed.

Lemma elem_of_foldl_disjoint_unions (rest : list (list PositionSet))
    (acc : list PositionSet) (X : PositionSet) :
  X ∈ foldl disjoint_unions acc rest ↔
  ∃ a parts, a ∈ acc ∧ Forall2 (λ part sets, part ∈ sets) parts rest ∧
             pairwise_disjoint (a :: parts) ∧ X = a ∪ union_of parts.
Proof.
  revert acc X. induction rest as [|sets rest IH]; intros acc X; simpl.
  - split.
    + intros HX. exists X, []. split; [done|]. split; [apply Forall2_nil_2|].
      split; [by split|].
      unfold union_of. simpl. by rewrite (right_id_L _ _).
    + intros (a & parts & Ha & Hparts & _ & ->). inversion Hparts; subst.
      unfold union_of. simpl. by rewrite (right_id_L _ _).
  - rewrite IH. split.
    + intros (ab & parts & (a & b & Ha & Hb & Hdisj & ->)%elem_of_disjoint_unions
                & Hparts & Hpd & ->).
      exists a, (b :: parts). split; [done|]. split; [by constructor|]. split.
      * by apply pairwise_disjoint_union_head.
      * unfold union_of. simpl. by rewrite (assoc_L _ _).
    + intros (a & parts & Ha & Hparts & Hpd & ->).
      inversion Hparts as [|b ? parts' ? Hb Hparts']; subst.
      assert (a ## b) as Hab by (destruct Hpd as [Hall _]; by inversion Hall).
      exists (a ∪ b), parts'. split; [|split; [done|split]].
      * apply elem_of_disjoint_unions. eauto 10.
      * by apply pairwise_disjoint_union_head.
      * unfold union_of. simpl. by rewrite (assoc_L _ _).
Qed.

(** The sets returned by the fold: the unions of pairwise disjoint
    choices, one set from each list. *)
Lemma elem_of_GroupCondition_fold (sub_possibilities : list (list PositionSet))
    (X : PositionSet) :
  X ∈ GroupCondition_fold sub_possibilities ↔
  sub_possibilities ≠ [] ∧
  ∃ parts, Forall2 (λ part sets, part ∈ sets) parts sub_possibilities ∧
           pairwise_disjoint parts ∧ X = union_of parts.
Proof.
  destruct sub_possibilities as [|first rest]; simpl.
  - split; [by intros ?%elem_of_nil|by intros [? _]].
  - rewrite elem_of_foldl_disjoint_unions. split.
    + intros (a & parts & Ha & Hparts & Hpd & ->). split; [done|].
      exists (a :: parts). split; [by constructor|]. by split.
    + intros (_ & parts & Hparts & Hpd & ->).
      inversion Hparts as [|a ? parts' ? Ha Hparts']; subst. eauto 10.
Qed.

Lemma size_union_of (parts : list PositionSet) :
  pairwise_disjoint parts →
  size (union_of parts) = foldr Nat.add 0%nat (size <$> parts).
Proof.
  unfold union_of. induction parts as [|part parts IH]; simpl; [done|].
  intros [Hall Hpd]. rewrite size_union, IH; [done..|].
  intros i Hi (Y & HY & HiY)%elem_of_union_list.
  rewrite Forall_forall in Hall. specialize (Hall Y HY). set_solver.
Qed.

Lemma pairwise_disjoint_perm (l1 l2 : list PositionSet) :
  l1 ≡ₚ l2 → pairwise_disjoint l1 → pairwise_disjoint l2.
Proof.
  induction 1 as [|X l1 l2 Hperm IH|X Y l|l1 l2 l3 _ IH1 _ IH2]; simpl; [done| | |auto].
  - intros [Hall Hpd]. split; [by rewrite <- Hperm|auto].
  - rewrite !Forall_cons. intros [[HYX HY] [HX Hpd]]. split_and!; done.
Qed.

Lemma Forall2_perm_l {A B} (P : A → B → Prop) (l l' : list A) (k : list B) :
  l ≡ₚ l' → Forall2 P l k → ∃ k', k ≡ₚ k' ∧ Forall2 P l' k'.
Proof.
  intros Hperm. revert k.
  induction Hperm as [|x l l' _ IH|x y l|l1 l2 l3 _ IH1 _ IH2]; intros k Hk.
  - inversion Hk; subst. by exists [].
  - inversion Hk as [|? z ? k0 Hz Hk0]; subst.
    destruct (IH k0 Hk0) as (k' & Hperm' & Hk').
    exists (z :: k'). split; [by constructor|by constructor].
  - inversion Hk as [|? z1 ? k1 Hz1 Hk1]; subst.
    inversion Hk1 as [|? z2 ? k2 Hz2 Hk2]; subst.
    exists (z2 :: z1 :: k2). split; [apply Permutation_swap|].
    by repeat constructor.
  - destruct (IH1 k Hk) as (k' & Hperm' & Hk').
    destruct (IH2 k' Hk') as (k'' & Hperm'' & Hk'').
    exists k''. split; [by etrans|done].
Qed.

Lemma Forall2_perm_r {A B} (P : A → B → Prop) (l : list A) (k k' : list B) :
  k ≡ₚ k' → Forall2 P l k → ∃ l', l ≡ₚ l' ∧ Forall2 P l' k'.
Proof.
  intros Hperm Hl. apply Forall2_flip in Hl.
  destruct (Forall2_perm_l _ _ _ _ Hperm Hl) as (l' & Hperm' & Hl').
  exists l'. split; [done|]. by apply Forall2_flip.
Qed.

(** Whether the fold returns anything does not depend on the order of the
    lists. *)
Lemma GroupCondition_fold_perm (sps sps' : list (list PositionSet)) :
  sps ≡ₚ sps' → GroupCondition_fold sps ≠ [] → GroupCondition_fold sps' ≠ [].
Proof.
  intros Hperm Hne.
  destruct (GroupCondition_fold sps) as [|X l] eqn:Hfold; [done|].
  assert (X ∈ GroupCondition_fold sps) as HX by (rewrite Hfold; by left).
  apply elem_of_GroupCondition_fold in HX as (Hsps & parts & Hparts & Hpd & _).
  destruct (Forall2_perm_r _ _ _ _ Hperm Hparts) as (parts' & Hperm' & Hparts').
  assert (union_of parts' ∈ GroupCondition_fold sps') as Hin.
  { apply elem_of_GroupCondition_fold. split.
    - intros ->. apply Permutation_nil_r in Hperm. done.
    - exists parts'. split; [done|]. split; [|done]. by eapply pairwise_disjoint_perm. }
  intros Hnil. rewrite Hnil in Hin. by apply elem_of_nil in Hin.
Qed.

Lemma possibilities_GroupCondition `{SetOrder} (subs : list Condition) (hand : Hand)
    (res : list PositionSet) :
  possibilities (GroupCondition subs) hand = Ok res ↔
  ∃ sps, Forall2 (λ condition sp, possibilities condition hand = Ok sp) subs sps ∧
         res = GroupCondition_fold sps.
Proof.
  simpl. rewrite bind_Ok. split.
  - intros (sps & Hsps%for_each_Ok_Forall2 & [= <-]). eauto.
  - intros (sps & Hsps%for_each_Ok_Forall2 & ->). eauto.
Qed.

(** ** Groups of leaves *)

(** C3. For a hand built by [Hand.__init__] and a [GroupCondition] whose
    sub-conditions are set or run conditions, every set [X] it returns is
    the union of one set returned by each sub-condition, these sets are
    pairwise disjoint (no position of the hand is used by two
    sub-conditions), and the size of [X] is the sum of the required numbers
    of the sub-conditions. *)
Theorem GroupCondition_possibilities_disjoint `{SetOrder}
    (cs : list Card) (hand : Hand) (sub_conditions : list Condition)
    (res : list PositionSet) (X : PositionSet) :
  Hand_init cs = Ok hand →
  Forall is_leaf sub_conditions →
  possibilities (GroupCondition sub_conditions) hand = Ok res →
  X ∈ res →
  ∃ parts,
    Forall2 (λ part condition,
               ∃ sets, possibilities condition hand = Ok sets ∧ part ∈ sets)
            parts sub_conditions ∧
    pairwise_disjoint parts ∧
    X = union_of parts ∧
    Z.of_nat (size X) = sum_Z (required_number <$> sub_conditions).
Proof.
  intros _ Hleaves Hres HX.
  apply possibilities_GroupCondition in Hres as (sps & Hsps & ->).
  apply elem_of_GroupCondition_fold in HX as (_ & parts & Hparts & Hpd & ->).
  assert (Forall2 (λ part condition,
                     ∃ sets, possibilities condition hand = Ok sets ∧ part ∈ sets)
                  parts sub_conditions) as Hfrom.
  { clear Hpd Hleaves. revert parts Hparts.
    induction Hsps as [|condition sp subs sps Hsp _ IH]; intros parts Hparts;
      inversion Hparts; subst; constructor; eauto. }
  exists parts. split; [done|]. split; [done|]. split; [done|].
  rewrite size_union_of by done. clear Hparts Hpd Hsps.
  induction Hfrom as [|part condition parts subs (sets & Hsets & Hpart) _ IH];
    [done|].
  apply Forall_cons in Hleaves as [Hleaf Hleaves].
  destruct (leaf_possibilities_member condition hand sets part) as [Hsize _];
    [done..|].
  cbn [fmap list_fmap foldr sum_Z]. rewrite Nat2Z.inj_add, Hsize.
  f_equal. by apply IH.
Qed.

Lemma GroupCondition_possibilities_disjoint_witness :
  ∃ parts,
    Forall2 (λ part condition,
               ∃ sets, possibilities (H:=elements_order) condition test_hand = Ok sets ∧
                       part ∈ sets)
            parts [four_list; four_colours] ∧
    pairwise_disjoint parts ∧
    default ∅ (head combination_result) = union_of parts ∧
    Z.of_nat (size (default ∅ (head combination_result))) =
      sum_Z (required_number <$> [four_list; four_colours]).
Proof.
  apply (@GroupCondition_possibilities_disjoint elements_order
           test_hand_cards test_hand [four_list; four_colours] combination_result).
  - reflexivity.
  - repeat constructor; discriminate.
  - vm_compute. reflexivity.
  - vm_compute. apply list_elem_of_here.
Defined.

(** C4. For a hand built by [Hand.__init__] and two lists of
    sub-conditions that are permutations of one another, the
    [GroupCondition] of one returns a non-empty list exactly when the
    [GroupCondition] of the other does; [hand_passed] returns the same
    boolean for both. *)
Theorem GroupCondition_order_independent `{SetOrder}
    (cs : list Card) (hand : Hand) (subs subs' : list Condition) :
  Hand_init cs = Ok hand → subs ≡ₚ subs' →
  ((∃ res, possibilities (GroupCondition subs) hand = Ok res ∧ res ≠ []) ↔
   (∃ res', possibilities (GroupCondition subs') hand = Ok res' ∧ res' ≠ [])) ∧
  (∀ b, hand_passed (GroupCondition subs) hand = Ok b ↔
        hand_passed (GroupCondition subs') hand = Ok b).
Proof.
  intros _ Hperm.
  assert (∀ l l' : list Condition, l ≡ₚ l' →
            ∀ res, possibilities (GroupCondition l) hand = Ok res →
                   ∃ res', possibilities (GroupCondition l') hand = Ok res' ∧
                           (res ≠ [] → res' ≠ [])) as Hdir.
  { intros l l' Hl res (sps & Hsps & ->)%possibilities_GroupCondition.
    destruct (Forall2_perm_l _ _ _ _ Hl Hsps) as (sps' & Hperm' & Hsps').
    exists (GroupCondition_fold sps'). split.
    - apply possibilities_GroupCondition. eauto.
    - by apply GroupCondition_fold_perm. }
  assert (∀ l l' : list Condition, l ≡ₚ l' →
            ∀ b, hand_passed (GroupCondition l) hand = Ok b →
                 hand_passed (GroupCondition l') hand = Ok b) as Hpass.
  { intros l l' Hl b. unfold hand_passed. rewrite !bind_Ok.
    intros (res & Hres & Hb).
    destruct (Hdir l l' Hl res Hres) as (res' & Hres' & Hne).
    destruct (Hdir l' l (symmetry Hl) res' Hres') as (res'' & Hres'' & Hne').
    rewrite Hres in Hres''. injection Hres'' as <-.
    exists res'. split; [done|]. unfold len in *.
    destruct res as [|X res], res' as [|X' res']; try done.
    - by destruct Hne'.
    - by destruct Hne. }
  split; [split|split].
  - intros (res & Hres & Hne). destruct (Hdir subs subs' Hperm res Hres) as (res' & ? & ?).
    eauto.
  - intros (res & Hres & Hne).
    destruct (Hdir subs' subs (symmetry Hperm) res Hres) as (res' & ? & ?). eauto.
  - by apply Hpass.
  - by apply Hpass.
Qed.

Lemma GroupCondition_order_independent_witness :
  ((∃ res, possibilities (H:=elements_order)
             (GroupCondition [four_list; four_colours]) test_hand = Ok res ∧ res ≠ []) ↔
   (∃ res', possibilities (H:=elements_order)
              (GroupCondition [four_colours; four_list]) test_hand = Ok res' ∧ res' ≠ [])) ∧
  (∀ b, hand_passed (H:=elements_order)
          (GroupCondition [four_list; four_colours]) test_hand = Ok b ↔
        hand_passed (H:=elements_order)
          (GroupCondition [four_colours; four_list]) test_hand = Ok b).
Proof.
  apply (@GroupCondition_order_independent elements_order
           test_hand_cards test_hand [four_list; four_colours] [four_colours; four_list]).
  - reflexivity.
  - apply Permutation_swap.
Defined.

(** ** Construction of conditions *)

Section quiet.
Context `{SetOrder}.

Lemma quiet_Ok {A} (a : A) : quiet (Ok a).
Proof. by intros msg. Qed.

Lemma quiet_bind {A B} (m : outcome A) (k : A → outcome B) :
  quiet m → (∀ a, quiet (k a)) → quiet (bind m k).
Proof.
  intros Hm Hk. destruct m as [a|e|]; simpl; [apply Hk| |by intros msg].
  intros msg [= ->]. by apply (Hm msg).
Qed.

Lemma quiet_for_each {A B} (f : A → outcome B) (l : list A) :
  Forall (λ x, quiet (f x)) l → quiet (for_each f l).
Proof.
  induction 1 as [|x l Hx _ IH]; simpl; [apply quiet_Ok|].
  apply quiet_bind; [done|]. intros y.
  apply quiet_bind; [done|]. intros ys. apply quiet_Ok.
Qed.

Lemma quiet_filter_each {A} (f : A → outcome bool) (l : list A) :
  (∀ x, quiet (f x)) → quiet (filter_each f l).
Proof.
  intros Hf. induction l as [|x l IH]; simpl; [apply quiet_Ok|].
  apply quiet_bind; [done|]. intros b.
  apply quiet_bind; [done|]. intros ys. apply quiet_Ok.
Qed.

Lemma quiet_getitem {A} (l : list A) (i : nat) : quiet (getitem l i).
Proof. unfold getitem. by destruct (l !! i). Qed.

Lemma quiet_del {A} (l : list A) (i : nat) : quiet (del l i).
Proof. unfold del. by case_decide. Qed.

Lemma quiet_pop {A} (l : list A) : quiet (pop l).
Proof. unfold pop. by destruct (last l). Qed.

Lemma quiet_internal_possibilities (fuel : nat) (prefix : PositionSet)
    (sub_range : list nat) (remaining_levels : Z) :
  quiet (internal_possibilities fuel prefix sub_range remaining_levels).
Proof.
  revert prefix sub_range remaining_levels.
  induction fuel as [|fuel IH]; intros prefix sub_range levels; [done|].
  cbn [internal_possibilities]. apply quiet_bind; [|intros; apply quiet_Ok].
  destruct (levels =? 1).
  - apply quiet_for_each, Forall_forall. intros rem _.
    apply quiet_bind; [apply quiet_del|]. intros; apply quiet_Ok.
  - apply quiet_bind; [|intros; apply quiet_Ok].
    apply quiet_for_each, Forall_forall. intros rem _.
    apply quiet_bind; [apply quiet_del|]. intros; apply IH.
Qed.

Lemma quiet_select_matches (k : Z) (matches : list nat) :
  quiet (select_matches k matches).
Proof.
  unfold select_matches. repeat case_match; try apply quiet_Ok.
  apply quiet_internal_possibilities.
Qed.

Lemma quiet_SetBased_possibilities (candidates : list (string * Z))
    (find_matches : string → Z → outcome (list PositionSet)) :
  (∀ c n, quiet (find_matches c n)) →
  quiet (SetBased_possibilities candidates find_matches).
Proof.
  intros Hfm. unfold SetBased_possibilities.
  apply quiet_bind; [|intros; apply quiet_Ok].
  apply quiet_for_each, Forall_forall. auto.
Qed.

Lemma quiet_get_combinations (slots : list PositionSet) :
  quiet (get_combinations slots).
Proof.
  induction slots as [|slot [|slot' slots] IH]; [done|apply quiet_Ok|].
  cbn [get_combinations]. apply quiet_bind; [done|]. intros; apply quiet_Ok.
Qed.

Lemma quiet_get_possibilities (k : Z) (streak : list PositionSet) :
  quiet (get_possibilities k streak).
Proof.
  unfold get_possibilities. apply quiet_bind; [|intros; apply quiet_Ok].
  apply quiet_for_each, Forall_forall. intros; apply quiet_get_combinations.
Qed.

Lemma quiet_streak_loop (fuel : nat) (candidates : list (nat * Card))
    (streak : list PositionSet) (jokers : list (nat * Card)) (n : Z) :
  quiet (streak_loop fuel candidates streak jokers n).
Proof.
  revert streak jokers n. induction fuel as [|fuel IH]; intros streak jokers n; [done|].
  cbn [streak_loop]. repeat case_match; try apply quiet_Ok; [|apply IH].
  apply quiet_bind; [apply quiet_pop|]. intros [jokers' joker]. apply IH.
Qed.

Lemma quiet_streaks_loop (fuel : nat) (k : Z) (candidates : list (nat * Card))
    (acc : list PositionSet) (n : Z) :
  quiet (streaks_loop fuel k candidates acc n).
Proof.
  revert acc n. induction fuel as [|fuel IH]; intros acc n; cbn [streaks_loop];
    destruct (n <=? 12); try done; try apply quiet_Ok.
  apply quiet_bind; [apply quiet_streak_loop|]. intros [streak n'].
  apply quiet_bind; [apply quiet_get_possibilities|]. intros; apply IH.
Qed.

Lemma quiet_colour_loop (hand : Hand) (target : Card) (positions : list nat) :
  quiet (colour_loop hand target positions).
Proof.
  induction positions as [|pos positions IH]; simpl; [apply quiet_Ok|].
  apply quiet_bind; [apply quiet_getitem|]. intros card.
  destruct (negb _); [apply quiet_Ok|done].
Qed.

Lemma quiet_all_same_colour (hand : Hand) (positions : PositionSet) :
  quiet (all_same_colour hand positions).
Proof.
  unfold all_same_colour. apply quiet_bind.
  - apply quiet_filter_each. intros pos.
    apply quiet_bind; [apply quiet_getitem|]. intros; apply quiet_Ok.
  - intros targets. destruct (len targets =? 0); [apply quiet_Ok|].
    apply quiet_bind; [apply quiet_getitem|]. intros first.
    apply quiet_bind; [apply quiet_getitem|]. intros target.
    apply quiet_colour_loop.
Qed.

Lemma quiet_possibilities (self : Condition) (hand : Hand) :
  quiet (possibilities self hand).
Proof.
  induction self as [c k subs IH] using Condition_ind. destruct c; simpl.
  - apply quiet_SetBased_possibilities. intros; apply quiet_select_matches.
  - apply quiet_SetBased_possibilities. intros; apply quiet_select_matches.
  - apply quiet_streaks_loop.
  - apply quiet_bind; [apply quiet_streaks_loop|]. intros all.
    apply quiet_filter_each. intros; apply quiet_all_same_colour.
  - apply quiet_bind; [by apply quiet_for_each|]. intros; apply quiet_Ok.
Qed.
End quiet.

(** C5, as the code has it.  Construction never fails, whatever the
    required number: [Condition.__init__] stores it as given, for every
    class, and [GroupCondition.__init__] itself stores 0.  Evaluation does
    not validate either: [possibilities] and [hand_passed] never raise an
    [Exception] of the program's own. *)
Theorem Condition_init_unvalidated `{SetOrder}
    (c : class) (k : Z) (subs : list Condition) (hand : Hand) :
  Condition_init c k subs = Ok (mkCondition c k subs) ∧
  SameNumber_init k = Ok (SameNumber k) ∧
  SameColour_init k = Ok (SameColour k) ∧
  AnyList_init k = Ok (AnyList k) ∧
  SameColourList_init k = Ok (SameColourList k) ∧
  GroupCondition_init subs = Ok (GroupCondition subs) ∧
  required_number (GroupCondition subs) = 0 ∧
  (∀ self, quiet (possibilities self hand) ∧ quiet (hand_passed self hand)).
Proof.
  split_and!; try done. intros self. split; [apply quiet_possibilities|].
  unfold hand_passed. apply quiet_bind; [apply quiet_possibilities|].
  intros res. destruct (len res >? 0); apply quiet_Ok.
Qed.

Lemma Condition_init_validates_counterexample :
  ¬ (1 ≤ 11 ≤ 10) ∧ ¬ (1 ≤ 0 ≤ 10) ∧
  SameNumber_init 11 = Ok (SameNumber 11) ∧
  AnyList_init 0 = Ok (AnyList 0) ∧
  ¬ (∃ e, SameNumber_init 11 = Raise e) ∧
  ¬ (∃ e, AnyList_init 0 = Raise e).
Proof.
  split_and!; try done; try lia; by intros [e ?].
Qed.

(** ** The worked example *)

Section worked_example.
Context `{SetOrder}.

(** A choice in a window of the streak built by the current pass of the
    outer loop is returned. *)
Lemma streaks_loop_window (fuel : nat) (k : Z) (hand : Hand)
    (acc streak : list PositionSet) (n n' : Z) (i : nat) (ps : list nat) :
  1 ≤ k → 0 ≤ n ≤ 12 → 12 - n ≤ Z.of_nat fuel →
  streak_loop (S (length (AnyList_candidates hand))) (AnyList_candidates hand) []
    (filter (λ card, number card.2 = -1) (AnyList_candidates hand)) n
  = Ok (streak, n') →
  (i + Z.to_nat k ≤ length streak)%nat →
  choice_of (take (Z.to_nat k) (drop i streak)) ps →
  ∃ res, streaks_loop (S fuel) k (AnyList_candidates hand) acc n = Ok res ∧
         list_to_set ps ∈ res.
Proof.
  intros Hk Hn Hfuel Hstreak Hlen Hch.
  destruct (get_possibilities_spec k streak Hk) as (combinations & Hcomb & Hin).
  rewrite (streaks_loop_step fuel k _ acc streak combinations n n') by (done || lia).
  destruct (streak_loop_spec (AnyList_candidates hand) (AnyList_candidates_NoDup hand)
              (S (length (AnyList_candidates hand))) []
              (filter (λ card, number card.2 = -1) (AnyList_candidates hand)) n)
    as (streak' & n'' & Hstreak' & Hlt & _); [done|lia| |].
  { apply Nat.lt_succ_r, length_filter_exclusive. intros [j card]; simpl; lia. }
  rewrite Hstreak in Hstreak'. injection Hstreak' as _ <-.
  destruct (streaks_loop_spec fuel k (AnyList_candidates hand) (acc ++ combinations) n')
    as (res & Hres & _); [apply AnyList_candidates_NoDup|done|lia|lia|].
  rewrite Hres. eexists. split; [done|].
  apply elem_of_app. left. apply elem_of_app. right. apply Hin. eauto.
Qed.

(** A choice in the first window of the first streak is returned. *)
Lemma ListBased_possibilities_first_window (k : Z) (hand : Hand)
    (streak : list PositionSet) (n' : Z) (ps : list nat) :
  1 ≤ k →
  streak_loop (S (length (AnyList_candidates hand))) (AnyList_candidates hand) []
    (filter (λ card, number card.2 = -1) (AnyList_candidates hand)) 1
  = Ok (streak, n') →
  (Z.to_nat k ≤ length streak)%nat →
  choice_of (take (Z.to_nat k) streak) ps →
  ∃ res, ListBased_possibilities k (AnyList_candidates hand) = Ok res ∧
         list_to_set ps ∈ res.
Proof.
  intros Hk Hstreak Hlen Hch. unfold ListBased_possibilities.
  by apply (streaks_loop_window 11 k hand [] streak 1 n' 0 ps).
Qed.

(** A set of [k] positions that match one colour key is returned. *)
Lemma SameColour_possibilities_member (k : Z) (hand : Hand) (card : Card)
    (X : PositionSet) :
  card ∈ cards hand → str_in "black" (colour card) = false →
  Z.of_nat (size X) = k →
  X ⊆ list_to_set (positions_where (matches_colour (colour card)) (cards hand)) →
  ∃ res, possibilities (SameColour k) hand = Ok res ∧ X ∈ res.
Proof.
  intros Hcard Hblack Hsize Hsub. simpl.
  destruct (SetBased_possibilities_spec (SameColour_candidates hand)
              (SameColour_find_matches k hand)) as (res & Hres & Hin).
  { intros ??. apply select_matches_total. }
  exists res. split; [done|]. apply Hin.
  destruct (select_matches_choose k
              (positions_where (matches_colour (colour card)) (cards hand)))
    as (sets & Hsets & _ & _ & Hmem); [apply NoDup_positions_where|lia|].
  exists (colour card, -1), sets. split_and!; [|done|].
  - unfold SameColour_candidates. apply list_elem_of_fmap. exists (colour card).
    split; [done|]. apply elem_of_iter, elem_of_list_to_set, list_elem_of_fmap.
    exists card. split; [done|]. by apply list_elem_of_filter.
  - apply Hmem. split; [lia|done].
Qed.

(** A run that passes the colour filter is returned by [SameColourList]. *)
Lemma SameColourList_possibilities_member (k : Z) (hand : Hand)
    (all : list PositionSet) (X : PositionSet) :
  1 ≤ k →
  ListBased_possibilities k (AnyList_candidates hand) = Ok all → X ∈ all →
  all_same_colour hand X = Ok true →
  ∃ res, possibilities (SameColourList k) hand = Ok res ∧ X ∈ res.
Proof.
  intros Hk Hall HX Hcol. simpl. rewrite Hall. simpl.
  destruct (ListBased_possibilities_finishes k hand Hk) as (all' & Hall' & Hvalid).
  rewrite Hall in Hall'. injection Hall' as <-. rewrite Forall_forall in Hvalid.
  destruct (filter_each_total (all_same_colour hand) all) as (res & Hres & Hin).
  { intros Y HY. apply all_same_colour_total. by apply Hvalid. }
  exists res. split; [done|]. by apply Hin.
Qed.

(** Two disjoint sets, one from each of two sub-conditions, make the group
    pass. *)
Lemma GroupCondition_pair_passes (first second : Condition) (hand : Hand)
    (res1 res2 : list PositionSet) (X1 X2 : PositionSet) :
  possibilities first hand = Ok res1 → X1 ∈ res1 →
  possibilities second hand = Ok res2 → X2 ∈ res2 →
  X1 ## X2 →
  hand_passed (GroupCondition [first; second]) hand = Ok true.
Proof.
  intros Hres1 HX1 Hres2 HX2 Hdisj.
  apply (hand_passed_nonempty _ _ (GroupCondition_fold [res1; res2])).
  - apply possibilities_GroupCondition. exists [res1; res2].
    split; [|done]. by repeat constructor.
  - assert (X1 ∪ X2 ∈ GroupCondition_fold [res1; res2]) as Hin.
    { simpl. apply elem_of_disjoint_unions. eauto 10. }
    intros Hnil. rewrite Hnil in Hin. by apply elem_of_nil in Hin.
Qed.

(** C6. The hand of the repository's own example,
    [blue1, blue2, blue3, red4, red5, red6, red6] and three wildcards, is a
    valid hand and passes
    [GroupCondition([SameColourList(3), SameColour(4)])], with the
    wildcards written as the example has them ([Card("red", -1)]) and as
    the deck has them ([Card("black", -1, "joker")]) alike: the run is
    blue 1-2-3 at positions 0, 1, 2 and the four red cards are at
    positions 3, 4, 5, 6. *)
Theorem worked_example_passes :
  Hand_init test_hand_cards = Ok test_hand ∧
  hand_passed combination test_hand = Ok true ∧
  (∃ res, possibilities combination test_hand = Ok res ∧ (length res > 0)%nat) ∧
  Hand_init (cards test_hand_deck_jokers) = Ok test_hand_deck_jokers ∧
  hand_passed combination test_hand_deck_jokers = Ok true.
Proof.
  assert (∀ hand : Hand,
            take 7 (cards hand) = take 7 test_hand_cards →
            (∃ streak n',
               streak_loop (S (length (AnyList_candidates hand)))
                 (AnyList_candidates hand) []
                 (filter (λ card, number card.2 = -1) (AnyList_candidates hand)) 1
               = Ok (streak, n') ∧
               (3 ≤ length streak)%nat ∧
               choice_of (take 3 streak) [0; 1; 2]%nat) →
            hand_passed combination hand = Ok true) as Hpass.
  { intros hand Hcards (streak & n' & Hstreak & Hlen & Hch).
    assert (∀ i card, take 7 test_hand_cards !! i = Some card →
                      cards hand !! i = Some card) as Hlookup.
    { intros i card Hi. rewrite <- Hcards in Hi.
      by apply lookup_take_Some in Hi as [? _]. }
    destruct (ListBased_possibilities_first_window 3 hand streak n' [0; 1; 2]%nat)
      as (all & Hall & Hrun); [lia|done|done|done|].
    destruct (SameColourList_possibilities_member 3 hand all
                (list_to_set [0; 1; 2]%nat)) as (res1 & Hres1 & HX1);
      [lia|done|done| |].
    { apply (all_same_colour_uniform hand _ "blue"); [done|].
      intros i Hi. rewrite elem_of_list_to_set in Hi.
      repeat (apply elem_of_cons in Hi as [->|Hi]); [| | |by apply elem_of_nil in Hi];
        eexists; (split; [by apply Hlookup|done]). }
    destruct (SameColour_possibilities_member 4 hand (Card_ "red" 4)
                (list_to_set [3; 4; 5; 6]%nat)) as (res2 & Hres2 & HX2).
    { apply (list_elem_of_lookup_2 _ 3). by apply Hlookup. }
    { done. }
    { by vm_compute. }
    { intros i Hi. rewrite elem_of_list_to_set in Hi.
      apply elem_of_list_to_set, elem_of_positions_where.
      repeat (apply elem_of_cons in Hi as [->|Hi]); [| | | |by apply elem_of_nil in Hi];
        eexists; (split; [by apply Hlookup|by left]). }
    apply (GroupCondition_pair_passes _ _ hand res1 res2
             (list_to_set [0; 1; 2]%nat) (list_to_set [3; 4; 5; 6]%nat)); try done.
    set_solver. }
  assert (hand_passed combination test_hand = Ok true) as Htest.
  { apply Hpass; [done|]. eexists _, _. split; [vm_compute; reflexivity|].
    split; [simpl; lia|]. unfold choice_of. apply (bool_decide_unpack _). by vm_compute. }
  split_and!; [done|done| |done|].
  - by apply hand_passed_true_inv.
  - apply Hpass; [done|]. eexists _, _. split; [vm_compute; reflexivity|].
    split; [simpl; lia|]. unfold choice_of. apply (bool_decide_unpack _). by vm_compute.
Qed.
End worked_example.

(** ** The scan of the inner loop *)

(** The counter of the inner loop is not held at 12.  On [high_run_hand],
    after four passes of the outer loop the scan is at number 10 with
    nothing collected.  The streak that starts there has four slots; the
    fourth is filled by the joker at position 9 while the counter stands
    at 13.  The set of positions 4, 5, 6, 9 that [AnyList(4)] builds on
    these slots holds the cards 10, 11, 12 and a joker, which is the run
    9, 10, 11, 12 as well. *)
Lemma streak_scan_passes_12 `{SetOrder} :
  Hand_init (cards high_run_hand) = Ok high_run_hand ∧
  streaks_loop 12 4 (AnyList_candidates high_run_hand) [] 1 =
    streaks_loop 8 4 (AnyList_candidates high_run_hand) [] 10 ∧
  streak_loop (S (length (AnyList_candidates high_run_hand)))
    (AnyList_candidates high_run_hand) []
    (filter (λ card, number card.2 = -1) (AnyList_candidates high_run_hand)) 10
  = Ok ([{[4%nat]}; {[5%nat]}; list_to_set [6; 7; 8]%nat; {[9%nat]}], 15) ∧
  streak_loop 2 (AnyList_candidates high_run_hand)
    [{[4%nat]}; {[5%nat]}; list_to_set [6; 7; 8]%nat] [(9%nat, deck_joker)] 13
  = Ok ([{[4%nat]}; {[5%nat]}; list_to_set [6; 7; 8]%nat; {[9%nat]}], 15) ∧
  ∃ res, possibilities (AnyList 4) high_run_hand = Ok res ∧
         list_to_set [4; 5; 6; 9]%nat ∈ res.
Proof.
  assert (streaks_loop 12 4 (AnyList_candidates high_run_hand) [] 1 =
          streaks_loop 8 4 (AnyList_candidates high_run_hand) [] 10) as Hscan.
  { rewrite (streaks_loop_step 11 4 _ [] [list_to_set [0; 1; 2; 3]%nat; {[9%nat]}] [] 1 4);
      [|lia|by vm_compute|by vm_compute].
    rewrite (streaks_loop_step 10 4 _ _ [{[9%nat]}] [] 4 6);
      [|lia|by vm_compute|by vm_compute].
    rewrite (streaks_loop_step 9 4 _ _ [{[9%nat]}] [] 6 8);
      [|lia|by vm_compute|by vm_compute].
    rewrite (streaks_loop_step 8 4 _ _ [{[9%nat]}] [] 8 10);
      [|lia|by vm_compute|by vm_compute].
    done. }
  split_and!; [done|done|by vm_compute|by vm_compute|].
  simpl. unfold ListBased_possibilities. rewrite Hscan.
  apply (streaks_loop_window 7 4 high_run_hand []
           [{[4%nat]}; {[5%nat]}; list_to_set [6; 7; 8]%nat; {[9%nat]}] 10 15 0
           [4; 5; 6; 9]%nat); [lia|lia|lia|by vm_compute|simpl; lia|].
  unfold choice_of. apply (bool_decide_unpack _). by vm_compute.
Qed.

(** A card numbered 13, which [Card] accepts although the deck holds none,
    is taken into a streak like any other: the streak started at 11 on
    [thirteen_hand] has it as its third slot, and [AnyList(3)] returns the
    positions 7, 8, 9 as the run 11, 12, 13. *)
Lemma streak_takes_card_13 :
  streak_loop (S (length (AnyList_candidates thirteen_hand)))
    (AnyList_candidates thirteen_hand) [] [] 11
  = Ok ([{[7%nat]}; {[8%nat]}; {[9%nat]}], 15) ∧
  bool_decide
    (list_to_set [7; 8; 9]%nat ∈
       match possibilities (H:=elements_order) (AnyList 3) thirteen_hand with
       | Ok res => res
       | _ => []
       end) = true.
Proof. by vm_compute. Qed.

(** ** What decides that a card is a wildcard *)

Lemma bind_ext {A B} (m : outcome A) (k k' : A → outcome B) :
  (∀ a, m = Ok a → k a = k' a) → bind m k = bind m k'.
Proof. intros Hk. destruct m; simpl; auto. Qed.

Lemma for_each_ext {A B} (f g : A → outcome B) (l : list A) :
  Forall (λ x, f x = g x) l → for_each f l = for_each g l.
Proof. induction 1 as [|x l Hx _ IH]; simpl; [done|]. by rewrite Hx, IH. Qed.

Lemma filter_each_ext {A} (f g : A → outcome bool) (l : list A) :
  (∀ x, f x = g x) → filter_each f l = filter_each g l.
Proof. intros Hfg. induction l as [|x l IH]; simpl; [done|]. by rewrite Hfg, IH. Qed.

Section related_hands.
Context `{SetOrder}.
Context (rel : Card → Card → Prop).
Hypothesis rel_number : ∀ a b, rel a b → number a = number b.

Local Notation rel_at := (related_at rel).

Lemma positions_where_rel (P Q : Card → Prop)
    `{!∀ c, Decision (P c)} `{!∀ c, Decision (Q c)} (cs cs' : list Card) :
  (∀ a b, rel a b → P a ↔ Q b) → Forall2 rel cs cs' →
  positions_where P cs = positions_where Q cs'.
Proof.
  intros HPQ Hcs. unfold positions_where, enumerate.
  change (λ (i : nat) (x : Card), (i, x)) with (λ (i : nat) (x : Card), (id i, x)).
  generalize (@id nat). induction Hcs as [|a b cs cs' Hab _ IH]; intros g; [done|].
  rewrite !imap_cons, !filter_cons. simpl.
  specialize (HPQ a b Hab).
  destruct (decide (P a)), (decide (Q b)); try tauto; simpl; [f_equal|];
    apply (IH (g ∘ S)).
Qed.

Lemma enumerate_rel (cs cs' : list Card) :
  Forall2 rel cs cs' → Forall2 rel_at (enumerate cs) (enumerate cs').
Proof.
  intros Hcs. unfold enumerate.
  change (λ (i : nat) (x : Card), (i, x)) with (λ (i : nat) (x : Card), (id i, x)).
  generalize (@id nat). induction Hcs as [|a b cs cs' Hab _ IH]; intros g;
    [constructor|].
  rewrite !imap_cons. constructor; [done|]. apply (IH (g ∘ S)).
Qed.

Lemma insert_by_number_rel (x y : nat * Card) (l l' : list (nat * Card)) :
  rel_at x y → Forall2 rel_at l l' →
  Forall2 rel_at (insert_by_number x l) (insert_by_number y l').
Proof.
  intros Hxy Hl. induction Hl as [|a b l l' Hab Hl IH]; simpl.
  - constructor; [done|constructor].
  - rewrite <- (rel_number _ _ (proj2 Hxy)), <- (rel_number _ _ (proj2 Hab)).
    destruct (number x.2 <=? number a.2).
    + constructor; [done|]. by constructor.
    + by constructor.
Qed.

Lemma AnyList_candidates_rel (hand hand' : Hand) :
  Forall2 rel (cards hand) (cards hand') →
  Forall2 rel_at (AnyList_candidates hand) (AnyList_candidates hand').
Proof.
  intros Hcs%enumerate_rel. unfold AnyList_candidates, sorted_by_number.
  induction Hcs; simpl; [constructor|]. by apply insert_by_number_rel.
Qed.

Lemma filter_number_rel (P : Z → Prop) `{!∀ n, Decision (P n)}
    (l l' : list (nat * Card)) :
  Forall2 rel_at l l' →
  Forall2 rel_at (filter (λ card, P (number card.2)) l)
                 (filter (λ card, P (number card.2)) l').
Proof.
  apply Forall2_filter. intros x y [_ Hxy]. by rewrite (rel_number _ _ Hxy).
Qed.

Lemma fst_rel (l l' : list (nat * Card)) : Forall2 rel_at l l' → l.*1 = l'.*1.
Proof.
  induction 1 as [|x y l l' [Hxy _] _ IH]; [done|].
  rewrite !fmap_cons. by f_equal.
Qed.

Lemma pop_rel (l l' : list (nat * Card)) :
  Forall2 rel_at l l' →
  match pop l, pop l' with
  | Ok (r, x), Ok (r', x') => Forall2 rel_at r r' ∧ x.1 = x'.1
  | Raise e, Raise e' => e = e'
  | _, _ => False
  end.
Proof.
  intros Hl. unfold pop. pose proof (Forall2_last _ _ _ Hl) as Hlast.
  destruct Hlast as [x x' [Hx _]|]; [|done].
  split; [|done]. rewrite (Forall2_length _ _ _ Hl). by apply Forall2_take.
Qed.

Lemma streak_loop_rel (fuel : nat) (candidates candidates' : list (nat * Card))
    (streak : list PositionSet) (jokers jokers' : list (nat * Card)) (n : Z) :
  Forall2 rel_at candidates candidates' → Forall2 rel_at jokers jokers' →
  streak_loop fuel candidates streak jokers n =
  streak_loop fuel candidates' streak jokers' n.
Proof.
  intros Hc. revert streak jokers jokers' n.
  induction fuel as [|fuel IH]; intros streak jokers jokers' n Hj; [done|].
  cbn [streak_loop].
  pose proof (filter_number_rel (λ m, m = n) _ _ Hc) as Hnc. simpl in Hnc.
  unfold len. rewrite <- (fst_rel _ _ Hnc).
  rewrite <- (Forall2_length _ _ _ Hnc), <- (Forall2_length _ _ _ Hj).
  repeat case_match; try done; [|by apply IH].
  pose proof (pop_rel _ _ Hj) as Hpop.
  destruct (pop jokers) as [[r x]|e|], (pop jokers') as [[r' x']|e'|]; try done.
  - destruct Hpop as [Hr Hx]. simpl. rewrite Hx. by apply IH.
  - by subst.
Qed.

Lemma ListBased_possibilities_rel (k : Z) (hand hand' : Hand) :
  Forall2 rel (cards hand) (cards hand') →
  ListBased_possibilities k (AnyList_candidates hand) =
  ListBased_possibilities k (AnyList_candidates hand').
Proof.
  intros Hc%AnyList_candidates_rel. unfold ListBased_possibilities.
  generalize 12%nat ([] : list PositionSet) 1. intros fuel.
  induction fuel as [|fuel IH]; intros acc n; cbn [streaks_loop]; [done|].
  destruct (n <=? 12); [|done].
  rewrite (Forall2_length _ _ _ Hc).
  rewrite (streak_loop_rel _ _ (AnyList_candidates hand') _ _
             (filter (λ card, number card.2 = -1) (AnyList_candidates hand')) n Hc).
  - apply bind_ext. intros [streak n'] _. apply bind_ext. intros combinations _.
    apply IH.
  - apply Forall2_filter; [|done].
    intros x y [_ Hxy]. by rewrite (rel_number _ _ Hxy).
Qed.

Lemma SameNumber_possibilities_rel (k : Z) (hand hand' : Hand) :
  Forall2 rel (cards hand) (cards hand') →
  possibilities (SameNumber k) hand = possibilities (SameNumber k) hand'.
Proof.
  intros Hc. simpl. unfold SetBased_possibilities.
  assert (SameNumber_candidates hand = SameNumber_candidates hand') as ->.
  { unfold SameNumber_candidates.
    assert (number <$> filter (λ card, number card ≠ -1) (cards hand) =
            number <$> filter (λ card, number card ≠ -1) (cards hand')) as ->; [|done].
    induction Hc as [|a b cs cs' Hab _ IH]; [done|].
    rewrite !filter_cons, <- (rel_number _ _ Hab).
    destruct (decide (number a ≠ -1)); [|done].
    rewrite !fmap_cons, IH. f_equal. by apply rel_number. }
  f_equal. apply for_each_ext, Forall_forall. intros [c n] _. simpl.
  unfold SameNumber_find_matches. f_equal.
  apply positions_where_rel; [|done].
  intros a b Hab. unfold matches_number. by rewrite (rel_number _ _ Hab).
Qed.

(** From here on, related cards also bear the same colour unless they are
    numbered [-1]. *)
Hypothesis rel_colour : ∀ a b, rel a b → number a ≠ -1 → colour a = colour b.

Lemma SameColour_find_matches_rel (k : Z) (hand hand' : Hand) (col : string) (n : Z) :
  Forall2 rel (cards hand) (cards hand') →
  SameColour_find_matches k hand col n = SameColour_find_matches k hand' col n.
Proof.
  intros Hc. unfold SameColour_find_matches. f_equal.
  apply positions_where_rel; [|done].
  intros a b Hab. unfold matches_colour.
  pose proof (rel_number _ _ Hab). pose proof (rel_colour _ _ Hab).
  destruct (decide (number a = -1)); [split; intros _; right; lia|].
  rewrite <- (rel_colour _ _ Hab) by done. split; intros [?|?]; auto; lia.
Qed.
End related_hands.

Lemma colour_keys_same_face (cs cs' : list Card) :
  Forall2 same_face cs cs' →
  colour <$> filter (λ card, str_in "black" (colour card) = false) cs =
  colour <$> filter (λ card, str_in "black" (colour card) = false) cs'.
Proof.
  induction 1 as [|a b cs cs' [_ Hab] _ IH]; [done|].
  rewrite !filter_cons, <- Hab.
  destruct (decide (str_in "black" (colour a) = false)); [|apply IH].
  rewrite !fmap_cons, IH. by f_equal.
Qed.

Section same_face.
Context `{SetOrder}.
Context (hand hand' : Hand).
Hypothesis same_faces : Forall2 same_face (cards hand) (cards hand').

Lemma bind_getitem_same_face {B} (i : nat) (k k' : Card → outcome B) :
  (∀ a b, same_face a b → k a = k' b) →
  bind (getitem (cards hand) i) k = bind (getitem (cards hand') i) k'.
Proof.
  intros Hk. unfold getitem.
  pose proof (proj1 (Forall2_lookup _ _ _) same_faces i) as Hi.
  destruct Hi as [a b Hab|]; simpl; auto.
Qed.

Lemma colour_loop_same_face (target target' : Card) (positions : list nat) :
  same_face target target' →
  colour_loop hand target positions = colour_loop hand' target' positions.
Proof.
  intros [_ Hcol]. induction positions as [|pos positions IH]; simpl; [done|].
  apply bind_getitem_same_face. intros a b [_ Hab]. by rewrite Hcol, Hab, IH.
Qed.

Lemma all_same_colour_same_face (positions : PositionSet) :
  all_same_colour hand positions = all_same_colour hand' positions.
Proof.
  unfold all_same_colour.
  rewrite (filter_each_ext _
             (λ pos, card ←! getitem (cards hand') pos;
                     Ok (bool_decide (number card ≠ -1)))).
  - apply bind_ext. intros targets _. destruct (len targets =? 0); [done|].
    apply bind_ext. intros first _. apply bind_getitem_same_face.
    intros a b Hab. by apply colour_loop_same_face.
  - intros pos. apply bind_getitem_same_face. intros a b [Hab _]. by rewrite Hab.
Qed.

Lemma SameColour_candidates_same_face :
  SameColour_candidates hand = SameColour_candidates hand'.
Proof.
  unfold SameColour_candidates. by rewrite (colour_keys_same_face _ _ same_faces).
Qed.

Lemma same_face_number (a b : Card) : same_face a b → number a = number b.
Proof. by intros [? _]. Qed.

Lemma same_face_colour (a b : Card) :
  same_face a b → number a ≠ -1 → colour a = colour b.
Proof. by intros [_ ?]. Qed.

(** The [type] of the cards is never consulted. *)
Lemma possibilities_same_face (self : Condition) :
  possibilities self hand = possibilities self hand'.
Proof.
  induction self as [c k subs IH] using Condition_ind. destruct c; simpl.
  - apply (SameNumber_possibilities_rel same_face same_face_number k hand hand'
             same_faces).
  - unfold SetBased_possibilities. rewrite SameColour_candidates_same_face.
    f_equal. apply for_each_ext, Forall_forall. intros [col n] _.
    by apply (SameColour_find_matches_rel same_face same_face_number
                same_face_colour).
  - by apply (ListBased_possibilities_rel same_face same_face_number).
  - rewrite (ListBased_possibilities_rel same_face same_face_number k hand hand')
      by done.
    apply bind_ext. intros all _. apply filter_each_ext.
    apply all_same_colour_same_face.
  - f_equal. by apply for_each_ext.
Qed.
End same_face.

Lemma elem_of_SameColour_candidates `{SetOrder} (hand : Hand) (col : string) (n : Z) :
  (col, n) ∈ SameColour_candidates hand ↔
  n = -1 ∧ str_in "black" col = false ∧ ∃ card, card ∈ cards hand ∧ colour card = col.
Proof.
  unfold SameColour_candidates. rewrite list_elem_of_fmap. split.
  - intros (col' & [= -> ->] & Hcol). split; [done|].
    apply elem_of_iter, elem_of_list_to_set, list_elem_of_fmap in Hcol
      as (card & -> & [Hblack Hcard]%list_elem_of_filter). eauto.
  - intros (-> & Hblack & card & Hcard & <-). exists (colour card). split; [done|].
    apply elem_of_iter, elem_of_list_to_set, list_elem_of_fmap.
    exists card. split; [done|]. by apply list_elem_of_filter.
Qed.

Lemma elem_of_SameNumber_candidates `{SetOrder} (hand : Hand) (key : string) (n : Z) :
  (key, n) ∈ SameNumber_candidates hand ↔
  key = "any"%string ∧ n ≠ -1 ∧ ∃ card, card ∈ cards hand ∧ number card = n.
Proof.
  unfold SameNumber_candidates. rewrite list_elem_of_fmap. split.
  - intros (n' & [= -> ->] & Hn). split; [done|].
    apply elem_of_iter, elem_of_list_to_set, list_elem_of_fmap in Hn
      as (card & -> & [Hwild Hcard]%list_elem_of_filter). eauto.
  - intros (-> & Hwild & card & Hcard & <-). exists (number card). split; [done|].
    apply elem_of_iter, elem_of_list_to_set, list_elem_of_fmap.
    exists card. split; [done|]. by apply list_elem_of_filter.
Qed.

(** C10, as the code has it.  The [type] of a card is never consulted:
    hands whose cards agree in number and colour give the same result for
    every condition.  For set-match filling ([SameNumber] and
    [SameColour.find_matches]), for the candidate keys of [SameNumber] and
    for run-gap filling ([AnyList]) a card is a wildcard exactly when its
    number is [-1], whatever its colour: hands that agree in the numbers,
    and in the colours of the cards not numbered [-1], give the same
    results.  The candidate keys of [SameColour] are decided by the colour
    instead: a card yields its colour as a key unless that colour contains
    ["black"], whatever its number. *)
Theorem wildcard_decided_by_number `{SetOrder} (hand hand' : Hand) :
  Forall2 same_but_wild (cards hand) (cards hand') →
  (∀ k, possibilities (SameNumber k) hand = possibilities (SameNumber k) hand') ∧
  (∀ k, possibilities (AnyList k) hand = possibilities (AnyList k) hand') ∧
  (∀ k col n, SameColour_find_matches k hand col n =
              SameColour_find_matches k hand' col n) ∧
  (∀ key n, (key, n) ∈ SameNumber_candidates hand ↔
            key = "any"%string ∧ n ≠ -1 ∧
            ∃ card, card ∈ cards hand ∧ number card = n) ∧
  (∀ col n, (col, n) ∈ SameColour_candidates hand ↔
            n = -1 ∧ str_in "black" col = false ∧
            ∃ card, card ∈ cards hand ∧ colour card = col) ∧
  (Forall2 same_face (cards hand) (cards hand') →
   ∀ self, possibilities self hand = possibilities self hand').
Proof.
  intros Hwild.
  assert (∀ a b, same_but_wild a b → number a = number b) as Hnum by (by intros a b [? _]).
  assert (∀ a b, same_but_wild a b → number a ≠ -1 → colour a = colour b) as Hcol
    by (by intros a b [_ ?]).
  split_and!.
  - intros k. by apply (SameNumber_possibilities_rel same_but_wild).
  - intros k. by apply (ListBased_possibilities_rel same_but_wild).
  - intros k col n. by apply (SameColour_find_matches_rel same_but_wild).
  - apply elem_of_SameNumber_candidates.
  - apply elem_of_SameColour_candidates.
  - intros Hface self. by apply possibilities_same_face.
Qed.

Lemma wildcard_decided_by_number_witness :
  possibilities (H:=elements_order) (SameNumber 3) test_hand =
    possibilities (H:=elements_order) (SameNumber 3) test_hand_deck_jokers ∧
  possibilities (H:=elements_order) (AnyList 3) test_hand =
    possibilities (H:=elements_order) (AnyList 3) test_hand_deck_jokers ∧
  possibilities (H:=elements_order) combination test_hand =
    possibilities (H:=elements_order) combination retyped_test_hand.
Proof.
  assert (Forall2 same_but_wild (cards test_hand) (cards test_hand_deck_jokers)) as Hwild.
  { repeat constructor; simpl; lia. }
  assert (Forall2 same_but_wild (cards test_hand) (cards retyped_test_hand)) as Hwild'.
  { repeat constructor; simpl; lia. }
  assert (Forall2 same_face (cards test_hand) (cards retyped_test_hand)) as Hface.
  { repeat constructor. }
  destruct (@wildcard_decided_by_number elements_order test_hand test_hand_deck_jokers
              Hwild) as (Hnum & Hrun & _).
  destruct (@wildcard_decided_by_number elements_order test_hand retyped_test_hand
              Hwild') as (_ & _ & _ & _ & _ & Htype).
  split_and!; [apply Hnum|apply Hrun|by apply Htype].
Defined.

Lemma wildcard_colour_counterexample :
  Forall2 same_but_wild (cards (blue_hand (Card_ "red" (-1))))
                        (cards (blue_hand deck_joker)) ∧
  ("red"%string, -1) ∈
    SameColour_candidates (H:=elements_order) (blue_hand (Card_ "red" (-1))) ∧
  count_returned
    (possibilities (H:=elements_order) (SameColour 3) (blue_hand (Card_ "red" (-1))))
  = 121%nat ∧
  count_returned
    (possibilities (H:=elements_order) (SameColour 3) (blue_hand deck_joker))
  = 120%nat ∧
  possibilities (H:=elements_order) (SameColour 3) (blue_hand (Card_ "red" (-1))) ≠
  possibilities (H:=elements_order) (SameColour 3) (blue_hand deck_joker).
Proof.
  assert (count_returned
            (possibilities (H:=elements_order) (SameColour 3)
               (blue_hand (Card_ "red" (-1)))) = 121%nat) as Hred by (by vm_compute).
  assert (count_returned
            (possibilities (H:=elements_order) (SameColour 3) (blue_hand deck_joker))
          = 120%nat) as Hblack by (by vm_compute).
  split_and!; [|apply (bool_decide_unpack _); by vm_compute|done|done|].
  - repeat constructor; simpl; (lia || done).
  - intros Heq. rewrite Heq, Hblack in Hred. clear Heq. lia.
Qed.

(** The monochrome filter on a run filled by a joker of the deck: the
    loop of [all_same_colour] compares the colour of every position, the
    joker's included, so the blue run 10-11-12 with the black joker is
    turned down, and [SameColourList(4)] returns nothing on
    [high_run_hand]. *)
Lemma all_same_colour_rejects_deck_joker :
  all_same_colour (H:=elements_order) high_run_hand (list_to_set [4; 5; 6; 9]%nat)
  = Ok false ∧
  possibilities (H:=elements_order) (SameColourList 4) high_run_hand = Ok [].
Proof. by vm_compute. Qed.

(** ** Every condition, at any depth of nesting *)

Lemma size_below (X : PositionSet) (n : nat) :
  (∀ i, i ∈ X → (i < n)%nat) → (size X ≤ n)%nat.
Proof.
  intros HX.
  assert (X ⊆ list_to_set (seq 0 n)) as Hsub.
  { intros i Hi. apply elem_of_list_to_set, elem_of_seq. specialize (HX i Hi). lia. }
  apply subseteq_size in Hsub.
  rewrite size_list_to_set, length_seq in Hsub by apply NoDup_seq. done.
Qed.

Lemma possibilities_group_any_number `{SetOrder} (k : Z) (subs : list Condition)
    (hand : Hand) :
  possibilities (mkCondition GroupConditionC k subs) hand =
  possibilities (GroupCondition subs) hand.
Proof. reflexivity. Qed.

Lemma possibilities_member `{SetOrder} (hand : Hand) (self : Condition) :
  ∀ (res : list PositionSet) (X : PositionSet),
    possibilities self hand = Ok res → X ∈ res →
    Z.of_nat (size X) = cards_needed self ∧
    ∀ i, i ∈ X → (i < length (cards hand))%nat.
Proof.
  induction self as [c k subs IH] using Condition_ind. intros res X Hres HX.
  assert (c = GroupConditionC ∨ c ≠ GroupConditionC) as [->|Hc]
    by (destruct c; (by left) || (by right)).
  - rewrite possibilities_group_any_number in Hres.
    apply possibilities_GroupCondition in Hres as (sps & Hsps & ->).
    apply elem_of_GroupCondition_fold in HX as (_ & parts & Hparts & Hpd & ->).
    rewrite size_union_of by done. cbn [cards_needed]. clear Hpd.
    revert parts Hparts.
    induction Hsps as [|condition sp subs sps Hsp _ IHsps]; intros parts Hparts;
      inversion Hparts as [|part ? parts' ? Hpart Hparts']; subst.
    + split; [done|]. unfold union_of. simpl. set_solver.
    + apply Forall_cons in IH as [IHc IH].
      destruct (IHc sp part Hsp Hpart) as [Hsize Hpos].
      destruct (IHsps IH parts' Hparts') as [Hsizes Hposs].
      split.
      * cbn [fmap list_fmap foldr sum_Z]. rewrite Nat2Z.inj_add, Hsize.
        f_equal. apply Hsizes.
      * unfold union_of in *. simpl. intros i [Hi|Hi]%elem_of_union; eauto.
  - destruct (leaf_possibilities_member (mkCondition c k subs) hand res X)
      as [Hsize Hpos]; [done..|].
    split; [|done]. rewrite Hsize. by destruct c.
Qed.

(** X1. Whatever the condition (a set or run condition or a group, nested
    to any depth, with any required numbers) and whatever the hand, every
    set that [possibilities] returns holds positions of the hand only, and
    as many of them as the leaves of the condition require together. *)
Theorem possibilities_positions_and_size `{SetOrder}
    (self : Condition) (hand : Hand) (res : list PositionSet) (X : PositionSet) :
  possibilities self hand = Ok res → X ∈ res →
  Z.of_nat (size X) = cards_needed self ∧
  (∀ i, i ∈ X → ∃ card, cards hand !! i = Some card) ∧
  (size X ≤ length (cards hand))%nat.
Proof.
  intros Hres HX.
  destruct (possibilities_member hand self res X Hres HX) as [Hsize Hpos].
  split; [done|]. split.
  - intros i Hi. apply lookup_lt_is_Some_2. by apply Hpos.
  - by apply size_below.
Qed.

Lemma possibilities_positions_and_size_witness :
  Z.of_nat (size (default ∅ (head combination_result))) = cards_needed combination ∧
  (∀ i, i ∈ default ∅ (head combination_result) →
        ∃ card, cards test_hand !! i = Some card) ∧
  (size (default ∅ (head combination_result)) ≤ length (cards test_hand))%nat.
Proof.
  apply (@possibilities_positions_and_size elements_order
           combination test_hand combination_result).
  - vm_compute. reflexivity.
  - vm_compute. apply list_elem_of_here.
Defined.

(** X2. A condition that asks for more cards than the hand holds is met
    by no set: [possibilities], when it returns, returns the empty list,
    and [hand_passed] returns [False]. *)
Theorem possibilities_too_many_cards `{SetOrder}
    (self : Condition) (hand : Hand) (res : list PositionSet) :
  len (cards hand) < cards_needed self →
  possibilities self hand = Ok res →
  res = [] ∧ hand_passed self hand = Ok false.
Proof.
  intros Hlt Hres.
  assert (res = []) as ->.
  { destruct res as [|X res]; [done|].
    destruct (possibilities_member hand self (X :: res) X Hres) as [Hsize Hpos];
      [apply list_elem_of_here|].
    apply size_below in Hpos. unfold len in Hlt. lia. }
  split; [done|]. unfold hand_passed. by rewrite Hres.
Qed.

Lemma possibilities_too_many_cards_witness :
  (@nil PositionSet) = [] ∧
  hand_passed (H:=elements_order)
    (GroupCondition [SameNumber 5; GroupCondition [AnyList 3; SameColour 3]]) test_hand
  = Ok false.
Proof.
  apply (@possibilities_too_many_cards elements_order
           (GroupCondition [SameNumber 5; GroupCondition [AnyList 3; SameColour 3]])
           test_hand []).
  - vm_compute. reflexivity.
  - vm_compute. reflexivity.
Defined.

(** ** Groups *)

(** X3. A hand passes a group exactly when the group has a sub-condition,
    every sub-condition returns, and one returned set can be chosen for
    each sub-condition such that no position is chosen twice. *)
Theorem GroupCondition_hand_passed_iff `{SetOrder}
    (subs : list Condition) (hand : Hand) :
  hand_passed (GroupCondition subs) hand = Ok true ↔
  subs ≠ [] ∧
  ∃ parts,
    Forall2 (λ part condition,
               ∃ sets, possibilities condition hand = Ok sets ∧ part ∈ sets)
            parts subs ∧
    pairwise_disjoint parts.
Proof.
  split.
  - intros (res & Hres & Hlen)%hand_passed_true_inv.
    apply possibilities_GroupCondition in Hres as (sps & Hsps & ->).
    destruct (GroupCondition_fold sps) as [|X res] eqn:Hfold; [simpl in Hlen; lia|].
    assert (X ∈ GroupCondition_fold sps) as HX by (rewrite Hfold; apply list_elem_of_here).
    apply elem_of_GroupCondition_fold in HX as (Hne & parts & Hparts & Hpd & _).
    split.
    + intros ->. inversion Hsps; by subst.
    + exists parts. split; [|done]. clear Hpd Hfold Hne. revert parts Hparts.
      induction Hsps as [|condition sp subs sps Hsp _ IH]; intros parts Hparts;
        inversion Hparts; subst; constructor; eauto.
  - intros (Hne & parts & Hparts & Hpd).
    assert (∃ sps, Forall2 (λ condition sp, possibilities condition hand = Ok sp) subs sps ∧
                   Forall2 (λ part sets, part ∈ sets) parts sps) as (sps & Hsps & Hin).
    { clear Hpd Hne. induction Hparts as [|part condition parts subs (sets & Hsets & Hpart) _
                                           (sps & Hsps & Hin)].
      - exists []. split; constructor.
      - exists (sets :: sps). split; by constructor. }
    apply (hand_passed_nonempty _ _ (GroupCondition_fold sps)).
    + apply possibilities_GroupCondition. eauto.
    + intros Hnil.
      assert (union_of parts ∈ GroupCondition_fold sps) as HX.
      { apply elem_of_GroupCondition_fold. split; [|eauto].
        intros ->. inversion Hsps; by subst. }
      rewrite Hnil in HX. by apply elem_of_nil in HX.
Qed.

(** X4. A hand that passes a group passes each of its sub-conditions. *)
Theorem GroupCondition_passes_each `{SetOrder} (subs : list Condition) (hand : Hand) :
  hand_passed (GroupCondition subs) hand = Ok true →
  Forall (λ condition, hand_passed condition hand = Ok true) subs.
Proof.
  intros (res & Hres & Hlen)%hand_passed_true_inv.
  apply possibilities_GroupCondition in Hres as (sps & Hsps & ->).
  destruct (GroupCondition_fold sps) as [|X res] eqn:Hfold; [simpl in Hlen; lia|].
  assert (X ∈ GroupCondition_fold sps) as HX by (rewrite Hfold; apply list_elem_of_here).
  apply elem_of_GroupCondition_fold in HX as (_ & parts & Hparts & _ & _).
  clear Hfold Hlen. revert parts Hparts.
  induction Hsps as [|condition sp subs sps Hsp _ IH]; intros parts Hparts;
    inversion Hparts as [|part ? parts' ? Hpart Hparts']; subst; constructor.
  - apply (hand_passed_nonempty _ _ sp); [done|]. intros ->. by apply elem_of_nil in Hpart.
  - by apply (IH parts').
Qed.

Lemma GroupCondition_passes_each_witness :
  Forall (λ condition, hand_passed (H:=elements_order) condition test_hand = Ok true)
         [four_list; four_colours].
Proof.
  apply (@GroupCondition_passes_each elements_order [four_list; four_colours] test_hand).
  vm_compute. reflexivity.
Defined.

(** The loop of a group is associative. *)
Lemma disjoint_unions_nil_r (A : list PositionSet) : disjoint_unions A [] = [].
Proof. unfold disjoint_unions. induction A as [|a A IH]; [done|]. simpl. done. Qed.

Lemma disjoint_unions_app_l (A1 A2 B : list PositionSet) :
  disjoint_unions (A1 ++ A2) B = disjoint_unions A1 B ++ disjoint_unions A2 B.
Proof. unfold disjoint_unions. by rewrite bind_app. Qed.

Lemma disjoint_unions_cons_l (a : PositionSet) (A B : list PositionSet) :
  disjoint_unions (a :: A) B = disjoint_unions [a] B ++ disjoint_unions A B.
Proof. apply (disjoint_unions_app_l [a]). Qed.

Lemma disjoint_unions_single_cons (a b : PositionSet) (B : list PositionSet) :
  disjoint_unions [a] (b :: B) =
  (if decide (a ## b) then [a ∪ b] else []) ++ disjoint_unions [a] B.
Proof.
  unfold disjoint_unions. simpl. rewrite !(right_id_L [] (++)). done.
Qed.

Lemma disjoint_unions_single_app (a : PositionSet) (B1 B2 : list PositionSet) :
  disjoint_unions [a] (B1 ++ B2) = disjoint_unions [a] B1 ++ disjoint_unions [a] B2.
Proof.
  induction B1 as [|b B1 IH]; [done|].
  rewrite <-app_comm_cons, !disjoint_unions_single_cons, IH. by rewrite (assoc_L (++)).
Qed.

Lemma disjoint_unions_assoc (A B C : list PositionSet) :
  disjoint_unions A (disjoint_unions B C) = disjoint_unions (disjoint_unions A B) C.
Proof.
  induction A as [|a A IHA]; [done|].
  rewrite disjoint_unions_cons_l, IHA, (disjoint_unions_cons_l a A B),
    disjoint_unions_app_l.
  f_equal. clear IHA.
  induction B as [|b B IHB]; [done|].
  rewrite (disjoint_unions_cons_l b B C), disjoint_unions_single_app, IHB.
  rewrite disjoint_unions_single_cons, disjoint_unions_app_l. f_equal. clear IHB.
  induction C as [|c C IHC].
  { by rewrite !disjoint_unions_nil_r. }
  rewrite (disjoint_unions_single_cons b c C), disjoint_unions_single_app, IHC.
  clear IHC.
  destruct (decide (a ## b)) as [Hab|Hab], (decide (b ## c)) as [Hbc|Hbc].
  - rewrite !disjoint_unions_single_cons.
    rewrite !disjoint_unions_nil_r.
    destruct (decide (a ## b ∪ c)) as [Habc|Habc],
             (decide (a ∪ b ## c)) as [Habc'|Habc']; simpl.
    + by rewrite (assoc_L (∪)).
    + destruct Habc'. set_solver.
    + destruct Habc. set_solver.
    + done.
  - rewrite (disjoint_unions_single_cons (a ∪ b) c C).
    destruct (decide (a ∪ b ## c)) as [Habc'|Habc']; [destruct Hbc; set_solver|].
    done.
  - rewrite !disjoint_unions_single_cons, !disjoint_unions_nil_r.
    destruct (decide (a ## b ∪ c)) as [Habc|Habc]; [destruct Hab; set_solver|].
    done.
  - done.
Qed.

Lemma foldl_disjoint_unions_assoc (A first : list PositionSet)
    (rest : list (list PositionSet)) :
  disjoint_unions A (foldl disjoint_unions first rest) =
  foldl disjoint_unions (disjoint_unions A first) rest.
Proof.
  revert first. induction rest as [|sets rest IH]; intros first; [done|].
  simpl. by rewrite IH, disjoint_unions_assoc.
Qed.

Lemma GroupCondition_fold_flatten (before inner after : list (list PositionSet)) :
  inner ≠ [] →
  GroupCondition_fold (before ++ GroupCondition_fold inner :: after) =
  GroupCondition_fold (before ++ inner ++ after).
Proof.
  intros Hinner. destruct inner as [|first rest]; [done|]. clear Hinner.
  destruct before as [|first' rest']; simpl.
  - by rewrite foldl_app.
  - rewrite !foldl_app. simpl. rewrite foldl_app.
    by rewrite foldl_disjoint_unions_assoc.
Qed.

Lemma for_each_app {A B} (f : A → outcome B) (l1 l2 : list A) :
  for_each f (l1 ++ l2) =
  (ys1 ←! for_each f l1; ys2 ←! for_each f l2; Ok (ys1 ++ ys2)).
Proof.
  induction l1 as [|x l1 IH]; simpl.
  - by destruct (for_each f l2).
  - destruct (f x); [|done..]. simpl. rewrite IH.
    destruct (for_each f l1); [|done..]. simpl.
    by destruct (for_each f l2).
Qed.

Lemma for_each_length {A B} (f : A → outcome B) (l : list A) (ys : list B) :
  for_each f l = Ok ys → length ys = length l.
Proof.
  intros Hl%for_each_Ok_Forall2. symmetry. by eapply Forall2_length.
Qed.

(** X5. A group used as a sub-condition of a group can be replaced by its
    own sub-conditions, provided it has some: the outcome is the same, the
    same list of sets in the same order or the same exception. *)
Theorem GroupCondition_flatten `{SetOrder}
    (before inner after : list Condition) (hand : Hand) :
  inner ≠ [] →
  possibilities (GroupCondition (before ++ GroupCondition inner :: after)) hand =
  possibilities (GroupCondition (before ++ inner ++ after)) hand.
Proof.
  intros Hinner. cbn [possibilities GroupCondition].
  change (λ condition, possibilities condition hand)
    with (λ condition, possibilities condition hand).
  rewrite !for_each_app.
  destruct (for_each (λ condition, possibilities condition hand) before)
    as [sp| |]; [|done..].
  cbn [bind for_each]. cbn [possibilities GroupCondition].
  destruct (for_each (λ condition, possibilities condition hand) inner)
    as [si| |] eqn:Hsi; [|done..].
  cbn [bind].
  destruct (for_each (λ condition, possibilities condition hand) after)
    as [sa| |]; [|done..].
  cbn [bind]. f_equal. apply GroupCondition_fold_flatten.
  intros ->. apply for_each_length in Hsi. by destruct inner.
Qed.

Lemma GroupCondition_flatten_witness :
  possibilities (H:=elements_order)
    (GroupCondition ([SameNumber 2] ++ GroupCondition [four_list; four_colours] :: []))
    test_hand =
  possibilities (H:=elements_order)
    (GroupCondition ([SameNumber 2] ++ [four_list; four_colours] ++ [])) test_hand.
Proof.
  apply (@GroupCondition_flatten elements_order
           [SameNumber 2] [four_list; four_colours] [] test_hand).
  discriminate.
Defined.

(** X6. A group asks every sub-condition in turn before it combines
    anything: the first sub-condition that raises makes the group raise
    the same exception, also when an earlier one has already returned no
    set at all. *)
Theorem GroupCondition_first_failure `{SetOrder}
    (before after : list Condition) (condition : Condition) (hand : Hand) (e : exn) :
  Forall (λ earlier, ∃ sets, possibilities earlier hand = Ok sets) before →
  possibilities condition hand = Raise e →
  possibilities (GroupCondition (before ++ condition :: after)) hand = Raise e ∧
  hand_passed (GroupCondition (before ++ condition :: after)) hand = Raise e.
Proof.
  intros Hbefore Hraise.
  assert (possibilities (GroupCondition (before ++ condition :: after)) hand = Raise e)
    as Hgroup.
  { cbn [possibilities GroupCondition]. rewrite for_each_app.
    destruct (for_each_total (λ c, possibilities c hand) before) as [sp ->].
    { intros c Hc. by apply (proj1 (Forall_forall _ _) Hbefore). }
    cbn [bind for_each]. by rewrite Hraise. }
  split; [done|]. unfold hand_passed. by rewrite Hgroup.
Qed.

Lemma GroupCondition_first_failure_witness :
  possibilities (H:=elements_order)
    (GroupCondition ([SameNumber 9] ++ AnyList 0 :: [SameColour 4])) test_hand
  = Raise RecursionError ∧
  hand_passed (H:=elements_order)
    (GroupCondition ([SameNumber 9] ++ AnyList 0 :: [SameColour 4])) test_hand
  = Raise RecursionError.
Proof.
  apply (@GroupCondition_first_failure elements_order
           [SameNumber 9] [SameColour 4] (AnyList 0) test_hand RecursionError).
  - repeat constructor. exists []. vm_compute. reflexivity.
  - vm_compute. reflexivity.
Defined.

(** The loop of a group is commutative up to the order of the result. *)
Lemma disjoint_unions_perm_l (A A' B : list PositionSet) :
  A ≡ₚ A' → disjoint_unions A B ≡ₚ disjoint_unions A' B.
Proof. intros HA. unfold disjoint_unions. by rewrite HA. Qed.

Lemma disjoint_unions_cons_r (A : list PositionSet) (b : PositionSet)
    (B : list PositionSet) :
  disjoint_unions A (b :: B) ≡ₚ disjoint_unions A [b] ++ disjoint_unions A B.
Proof.
  induction A as [|a A IH]; [done|].
  rewrite (disjoint_unions_cons_l a A (b :: B)), (disjoint_unions_cons_l a A [b]),
    (disjoint_unions_cons_l a A B), IH.
  rewrite (disjoint_unions_single_cons a b B), (disjoint_unions_single_cons a b []).
  rewrite disjoint_unions_nil_r, (right_id_L [] (++)).
  rewrite <- !(assoc_L (++)). f_equiv.
  rewrite !(assoc_L (++)). f_equiv. apply Permutation_app_comm.
Qed.

Lemma disjoint_unions_comm (A B : list PositionSet) :
  disjoint_unions A B ≡ₚ disjoint_unions B A.
Proof.
  induction A as [|a A IH].
  { by rewrite disjoint_unions_nil_r. }
  rewrite disjoint_unions_cons_l, disjoint_unions_cons_r, IH. f_equiv.
  clear IH. induction B as [|b B IH]; [done|].
  rewrite disjoint_unions_single_cons, (disjoint_unions_cons_l b B [a]), IH.
  f_equiv. rewrite (disjoint_unions_single_cons b a []), disjoint_unions_nil_r,
    (right_id_L [] (++)).
  destruct (decide (a ## b)) as [Hab|Hab], (decide (b ## a)) as [Hba|Hba];
    [by rewrite (comm_L (∪))|by destruct Hba|by destruct Hab|done].
Qed.

Lemma disjoint_unions_perm_r (A B B' : list PositionSet) :
  B ≡ₚ B' → disjoint_unions A B ≡ₚ disjoint_unions A B'.
Proof.
  intros HB. rewrite (disjoint_unions_comm A B), (disjoint_unions_comm A B').
  by apply disjoint_unions_perm_l.
Qed.

Lemma foldl_disjoint_unions_perm (first first' : list PositionSet)
    (rest : list (list PositionSet)) :
  first ≡ₚ first' →
  foldl disjoint_unions first rest ≡ₚ foldl disjoint_unions first' rest.
Proof.
  revert first first'. induction rest as [|sets rest IH]; intros first first' Hfirst;
    [done|].
  simpl. apply IH. by apply disjoint_unions_perm_l.
Qed.

Lemma GroupCondition_fold_cons (first : list PositionSet)
    (rest : list (list PositionSet)) :
  rest ≠ [] →
  GroupCondition_fold (first :: rest) =
  disjoint_unions first (GroupCondition_fold rest).
Proof.
  destruct rest as [|second rest]; [done|]. intros _. simpl.
  by rewrite foldl_disjoint_unions_assoc.
Qed.

Lemma GroupCondition_fold_permutation (sps sps' : list (list PositionSet)) :
  sps ≡ₚ sps' → GroupCondition_fold sps ≡ₚ GroupCondition_fold sps'.
Proof.
  induction 1 as [|first sps sps' Hperm IH|first second sps|sps1 sps2 sps3 _ IH1 _ IH2].
  - done.
  - destruct sps as [|second sps].
    { apply Permutation_nil_l in Hperm as ->. done. }
    assert (sps' ≠ []) as Hne.
    { intros ->. by apply Permutation_nil_r in Hperm. }
    rewrite (GroupCondition_fold_cons first (second :: sps)),
      (GroupCondition_fold_cons first sps') by done.
    by apply disjoint_unions_perm_r.
  - simpl. apply foldl_disjoint_unions_perm, disjoint_unions_comm.
  - by etrans.
Qed.

(** X7. The order of the sub-conditions of a group changes the order of
    the list it returns and nothing else: for a permutation of the
    sub-conditions the group returns a permutation of the same sets. *)
Theorem GroupCondition_order_permutes `{SetOrder}
    (subs subs' : list Condition) (hand : Hand) (res : list PositionSet) :
  subs ≡ₚ subs' →
  possibilities (GroupCondition subs) hand = Ok res →
  ∃ res', possibilities (GroupCondition subs') hand = Ok res' ∧ res ≡ₚ res'.
Proof.
  intros Hperm (sps & Hsps & ->)%possibilities_GroupCondition.
  destruct (Forall2_perm_l _ _ _ _ Hperm Hsps) as (sps' & Hperm' & Hsps').
  exists (GroupCondition_fold sps'). split.
  - apply possibilities_GroupCondition. eauto.
  - by apply GroupCondition_fold_permutation.
Qed.

Lemma GroupCondition_order_permutes_witness :
  ∃ res',
    possibilities (H:=elements_order) (GroupCondition [four_colours; four_list]) test_hand
    = Ok res' ∧
    combination_result ≡ₚ res'.
Proof.
  apply (@GroupCondition_order_permutes elements_order
           [four_list; four_colours] [four_colours; four_list] test_hand
           combination_result).
  - apply Permutation_swap.
  - vm_compute. reflexivity.
Defined.

(** ** The set conditions for every required number *)

Lemma removals_all {A} (l : list A) : removals (length l) l = [[]].
Proof.
  induction l as [|x l IH]; [done|].
  simpl. rewrite IH. by rewrite removals_short by (simpl; lia).
Qed.

Lemma select_matches_nonpositive (k : Z) (matches : list nat) :
  k ≤ 0 → select_matches k matches = Ok (if decide (k = 0) then [∅] else []).
Proof.
  intros Hk. rewrite select_matches_removals. unfold len.
  rewrite decide_True by lia. f_equal. case_decide as Hk0.
  - subst k. rewrite Z.sub_0_r, Nat2Z.id, removals_all. done.
  - rewrite removals_short by lia. done.
Qed.

Lemma subset_of_size (l : list nat) (k : nat) :
  NoDup l → (k ≤ length l)%nat →
  ∃ X : PositionSet, size X = k ∧ X ⊆ list_to_set l.
Proof.
  intros Hnd Hk. exists (list_to_set (take k l)). split.
  - rewrite size_list_to_set by (eapply sublist_NoDup; [done|apply sublist_take]).
    rewrite length_take. lia.
  - intros i Hi%elem_of_list_to_set. apply elem_of_list_to_set.
    by apply (subseteq_take k l).
Qed.

Section set_based.
Context `{SetOrder}.
Context (P : string → Z → Card → Prop) `{!∀ c n card, Decision (P c n card)}.

(** The sets returned for the keys [candidates] by a [find_matches] that
    collects the positions of the cards satisfying [P]. *)
Lemma SetBased_possibilities_sets (k : Z) (hand : Hand)
    (candidates : list (string * Z)) :
  0 ≤ k →
  ∃ res,
    SetBased_possibilities candidates
      (λ c n, select_matches k (positions_where (P c n) (cards hand))) = Ok res ∧
    ∀ X : PositionSet,
      X ∈ res ↔
      size X = Z.to_nat k ∧
      ∃ c n, (c, n) ∈ candidates ∧
             ∀ i, i ∈ X → ∃ card, cards hand !! i = Some card ∧ P c n card.
Proof.
  intros Hk.
  destruct (SetBased_possibilities_spec candidates
              (λ c n, select_matches k (positions_where (P c n) (cards hand))))
    as (res & Hres & Hin).
  { intros ??. apply select_matches_total. }
  exists res. split; [done|]. intros X. rewrite Hin. split.
  - intros ([c n] & sets & Hc & Hsets & HX). simpl in Hsets.
    destruct (select_matches_choose k (positions_where (P c n) (cards hand)))
      as (sets' & Hsets' & _ & _ & Hmem); [apply NoDup_positions_where|done|].
    rewrite Hsets in Hsets'. injection Hsets' as <-.
    apply Hmem in HX as [Hsize Hsub]. split; [done|]. exists c, n. split; [done|].
    intros i Hi. apply Hsub, elem_of_list_to_set in Hi.
    by apply elem_of_positions_where in Hi.
  - intros (Hsize & c & n & Hc & HX).
    destruct (select_matches_choose k (positions_where (P c n) (cards hand)))
      as (sets & Hsets & _ & _ & Hmem); [apply NoDup_positions_where|done|].
    exists (c, n), sets. split_and!; [done..|]. apply Hmem. split; [done|].
    intros i Hi. apply elem_of_list_to_set, elem_of_positions_where. auto.
Qed.

(** Some set is returned exactly when some key has enough matching cards. *)
Lemma SetBased_possibilities_nonempty (k : Z) (hand : Hand)
    (candidates : list (string * Z)) (res : list PositionSet) :
  0 ≤ k →
  SetBased_possibilities candidates
    (λ c n, select_matches k (positions_where (P c n) (cards hand))) = Ok res →
  res ≠ [] ↔
  ∃ c n, (c, n) ∈ candidates ∧ k ≤ len (filter (P c n) (cards hand)).
Proof.
  intros Hk Hres.
  destruct (SetBased_possibilities_sets k hand candidates Hk) as (res' & Hres' & Hin).
  rewrite Hres in Hres'. injection Hres' as <-. split.
  - intros Hne. destruct res as [|X res]; [done|].
    destruct (proj1 (Hin X)) as (Hsize & c & n & Hc & HX); [apply list_elem_of_here|].
    exists c, n. split; [done|].
    assert (X ⊆ list_to_set (positions_where (P c n) (cards hand))) as Hsub.
    { intros i Hi. apply elem_of_list_to_set, elem_of_positions_where. auto. }
    apply subseteq_size in Hsub.
    rewrite size_list_to_set, length_positions_where in Hsub
      by apply NoDup_positions_where.
    unfold len. lia.
  - intros (c & n & Hc & Hlen).
    destruct (subset_of_size (positions_where (P c n) (cards hand)) (Z.to_nat k))
      as (X & Hsize & Hsub); [apply NoDup_positions_where| |].
    { rewrite length_positions_where. unfold len in Hlen. lia. }
    assert (X ∈ res) as HX.
    { apply Hin. split; [done|]. exists c, n. split; [done|].
      intros i Hi. apply Hsub, elem_of_list_to_set in Hi.
      by apply elem_of_positions_where in Hi. }
    intros ->. by apply elem_of_nil in HX.
Qed.

End set_based.

Lemma hand_passed_Ok `{SetOrder} (self : Condition) (hand : Hand)
    (res : list PositionSet) :
  possibilities self hand = Ok res →
  hand_passed self hand = Ok (bool_decide (res ≠ [])).
Proof.
  intros Hres. unfold hand_passed. rewrite Hres. simpl. by destruct res.
Qed.

Lemma SameNumber_passes_iff `{SetOrder} (k : Z) (hand : Hand) :
  0 ≤ k →
  hand_passed (SameNumber k) hand = Ok true ↔
  ∃ n, n ≠ -1 ∧ (∃ card, card ∈ cards hand ∧ number card = n) ∧
       k ≤ len (filter (matches_number n) (cards hand)).
Proof.
  intros Hk.
  destruct (SetBased_possibilities_sets (λ _ n, matches_number n) k hand
              (SameNumber_candidates hand) Hk) as (res & Hres & _).
  pose proof (SetBased_possibilities_nonempty (λ _ n, matches_number n) k hand
                (SameNumber_candidates hand) res Hk Hres) as Hne.
  rewrite (hand_passed_Ok _ _ res) by done.
  split.
  - intros [= Hb]. apply bool_decide_eq_true in Hb.
    apply Hne in Hb as (c & n & (_ & ? & ?)%elem_of_SameNumber_candidates & ?). eauto.
  - intros (n & Hn & Hcard & Hlen). f_equal. apply bool_decide_eq_true, Hne.
    exists "any"%string, n. split; [|done]. by apply elem_of_SameNumber_candidates.
Qed.

Lemma SameColour_passes_iff `{SetOrder} (k : Z) (hand : Hand) :
  0 ≤ k →
  hand_passed (SameColour k) hand = Ok true ↔
  ∃ col, str_in "black" col = false ∧ (∃ card, card ∈ cards hand ∧ colour card = col) ∧
         k ≤ len (filter (matches_colour col) (cards hand)).
Proof.
  intros Hk.
  destruct (SetBased_possibilities_sets (λ col _, matches_colour col) k hand
              (SameColour_candidates hand) Hk) as (res & Hres & _).
  pose proof (SetBased_possibilities_nonempty (λ col _, matches_colour col) k hand
                (SameColour_candidates hand) res Hk Hres) as Hne.
  rewrite (hand_passed_Ok _ _ res) by done.
  split.
  - intros [= Hb]. apply bool_decide_eq_true in Hb.
    apply Hne in Hb as (c & n & (_ & ? & ?)%elem_of_SameColour_candidates & ?). eauto.
  - intros (col & Hcol & Hcard & Hlen). f_equal. apply bool_decide_eq_true, Hne.
    exists col, (-1). split; [|done]. by apply elem_of_SameColour_candidates.
Qed.

Lemma SetBased_returns `{SetOrder} (c : class) (k : Z) (subs : list Condition)
    (hand : Hand) :
  c = SameNumberC ∨ c = SameColourC →
  ∃ res, possibilities (mkCondition c k subs) hand = Ok res.
Proof.
  intros [-> | ->]; simpl.
  - destruct (SetBased_possibilities_spec (SameNumber_candidates hand)
                (SameNumber_find_matches k hand)) as (res & Hres & _); [|eauto].
    intros ??. apply select_matches_total.
  - destruct (SetBased_possibilities_spec (SameColour_candidates hand)
                (SameColour_find_matches k hand)) as (res & Hres & _); [|eauto].
    intros ??. apply select_matches_total.
Qed.

(** X8. [SameColour.find_matches] for a required number [k >= 0], on any
    list of cards: with [m] cards of the colour asked for or numbered -1,
    it returns the [C(m, k)] sets of [k] positions of such cards, each
    once.  The [number] argument plays no part. *)
Theorem SameColour_find_matches_choose
    (hand : Hand) (k : Z) (colour_ : string) (number_ : Z) :
  0 ≤ k →
  ∃ sets,
    SameColour_find_matches k hand colour_ number_ = Ok sets ∧
    length sets =
      binomial (length (filter (matches_colour colour_) (cards hand))) (Z.to_nat k) ∧
    NoDup sets ∧
    ∀ X : PositionSet,
      X ∈ sets ↔
      size X = Z.to_nat k ∧
      ∀ i, i ∈ X → ∃ card, cards hand !! i = Some card ∧ matches_colour colour_ card.
Proof.
  intros Hk. unfold SameColour_find_matches.
  destruct (select_matches_choose k
              (positions_where (matches_colour colour_) (cards hand)))
    as (sets & Hsets & Hlen & Hnd & Hin); [apply NoDup_positions_where|done|].
  exists sets. rewrite length_positions_where in Hlen. split_and!; try done.
  intros X. rewrite Hin. apply and_iff_compat_l. split.
  - intros Hsub i Hi. apply Hsub, elem_of_list_to_set in Hi.
    by apply elem_of_positions_where in Hi.
  - intros HX i Hi. apply elem_of_list_to_set, elem_of_positions_where. auto.
Qed.

Lemma SameColour_find_matches_choose_witness :
  ∃ sets,
    SameColour_find_matches 4 test_hand "red" (-1) = Ok sets ∧
    length sets =
      binomial (length (filter (matches_colour "red") (cards test_hand))) (Z.to_nat 4) ∧
    NoDup sets ∧
    ∀ X : PositionSet,
      X ∈ sets ↔
      size X = Z.to_nat 4 ∧
      ∀ i, i ∈ X → ∃ card, cards test_hand !! i = Some card ∧ matches_colour "red" card.
Proof. apply (SameColour_find_matches_choose test_hand 4 "red" (-1)). lia. Defined.

(** X9. Both [find_matches] for a required number below 1: a negative
    number gives no set, and 0 gives the empty set alone, whatever the
    hand and the key. *)
Theorem find_matches_nonpositive
    (hand : Hand) (k : Z) (colour_ : string) (number_ : Z) :
  k ≤ 0 →
  SameNumber_find_matches k hand colour_ number_
    = Ok (if decide (k = 0) then [∅] else []) ∧
  SameColour_find_matches k hand colour_ number_
    = Ok (if decide (k = 0) then [∅] else []).
Proof. intros Hk. split; by apply select_matches_nonpositive. Qed.

Lemma find_matches_nonpositive_witness :
  SameNumber_find_matches 0 test_hand "any" 6 = Ok [∅] ∧
  SameColour_find_matches 0 test_hand "red" (-1) = Ok [∅].
Proof.
  destruct (find_matches_nonpositive test_hand 0 "any" 6) as [Hnumber _]; [lia|].
  destruct (find_matches_nonpositive test_hand 0 "red" (-1)) as [_ Hcolour]; [lia|].
  by split.
Defined.

(** X10. [SameNumber(k).possibilities] for [k >= 0] returns exactly the
    sets of [k] positions whose cards all bear one number [n] or -1, for a
    number [n] other than -1 that some card of the hand bears.  So a hand
    passes exactly when such a number is borne, wildcards counted in, by
    at least [k] cards. *)
Theorem SameNumber_possibilities_sets `{SetOrder} (k : Z) (hand : Hand) :
  0 ≤ k →
  (∃ res,
     possibilities (SameNumber k) hand = Ok res ∧
     ∀ X : PositionSet,
       X ∈ res ↔
       size X = Z.to_nat k ∧
       ∃ n, n ≠ -1 ∧ (∃ card, card ∈ cards hand ∧ number card = n) ∧
            ∀ i, i ∈ X → ∃ card, cards hand !! i = Some card ∧ matches_number n card) ∧
  (hand_passed (SameNumber k) hand = Ok true ↔
   ∃ n, n ≠ -1 ∧ (∃ card, card ∈ cards hand ∧ number card = n) ∧
        k ≤ len (filter (matches_number n) (cards hand))).
Proof.
  intros Hk. split; [|by apply SameNumber_passes_iff].
  destruct (SetBased_possibilities_sets (λ _ n, matches_number n) k hand
              (SameNumber_candidates hand) Hk) as (res & Hres & Hin).
  exists res. split; [done|]. intros X. rewrite Hin. apply and_iff_compat_l. split.
  - intros (c & n & (_ & ? & ?)%elem_of_SameNumber_candidates & ?). eauto.
  - intros (n & ? & ? & ?). exists "any"%string, n.
    split; [|done]. by apply elem_of_SameNumber_candidates.
Qed.

Lemma SameNumber_possibilities_sets_witness :
  (∃ res,
     possibilities (H:=elements_order) (SameNumber 3) test_hand = Ok res ∧
     ∀ X : PositionSet,
       X ∈ res ↔
       size X = Z.to_nat 3 ∧
       ∃ n, n ≠ -1 ∧ (∃ card, card ∈ cards test_hand ∧ number card = n) ∧
            ∀ i, i ∈ X →
                 ∃ card, cards test_hand !! i = Some card ∧ matches_number n card) ∧
  (hand_passed (H:=elements_order) (SameNumber 3) test_hand = Ok true ↔
   ∃ n, n ≠ -1 ∧ (∃ card, card ∈ cards test_hand ∧ number card = n) ∧
        3 ≤ len (filter (matches_number n) (cards test_hand))).
Proof. apply (@SameNumber_possibilities_sets elements_order 3 test_hand). lia. Defined.

(** X11. [SameColour(k).possibilities] for [k >= 0] returns exactly the
    sets of [k] positions whose cards all have one colour or the number
    -1, for a colour of the hand that does not contain ["black"].  So a
    hand passes exactly when such a colour is found, wildcards counted in,
    on at least [k] cards. *)
Theorem SameColour_possibilities_sets `{SetOrder} (k : Z) (hand : Hand) :
  0 ≤ k →
  (∃ res,
     possibilities (SameColour k) hand = Ok res ∧
     ∀ X : PositionSet,
       X ∈ res ↔
       size X = Z.to_nat k ∧
       ∃ col, str_in "black" col = false ∧
              (∃ card, card ∈ cards hand ∧ colour card = col) ∧
              ∀ i, i ∈ X →
                   ∃ card, cards hand !! i = Some card ∧ matches_colour col card) ∧
  (hand_passed (SameColour k) hand = Ok true ↔
   ∃ col, str_in "black" col = false ∧
          (∃ card, card ∈ cards hand ∧ colour card = col) ∧
          k ≤ len (filter (matches_colour col) (cards hand))).
Proof.
  intros Hk. split; [|by apply SameColour_passes_iff].
  destruct (SetBased_possibilities_sets (λ col _, matches_colour col) k hand
              (SameColour_candidates hand) Hk) as (res & Hres & Hin).
  exists res. split; [done|]. intros X. rewrite Hin. apply and_iff_compat_l. split.
  - intros (c & n & (_ & ? & ?)%elem_of_SameColour_candidates & ?). eauto.
  - intros (col & ? & ? & ?). exists col, (-1).
    split; [|done]. by apply elem_of_SameColour_candidates.
Qed.

Lemma SameColour_possibilities_sets_witness :
  (∃ res,
     possibilities (H:=elements_order) (SameColour 4) test_hand = Ok res ∧
     ∀ X : PositionSet,
       X ∈ res ↔
       size X = Z.to_nat 4 ∧
       ∃ col, str_in "black" col = false ∧
              (∃ card, card ∈ cards test_hand ∧ colour card = col) ∧
              ∀ i, i ∈ X →
                   ∃ card, cards test_hand !! i = Some card ∧ matches_colour col card) ∧
  (hand_passed (H:=elements_order) (SameColour 4) test_hand = Ok true ↔
   ∃ col, str_in "black" col = false ∧
          (∃ card, card ∈ cards test_hand ∧ colour card = col) ∧
          4 ≤ len (filter (matches_colour col) (cards test_hand))).
Proof. apply (@SameColour_possibilities_sets elements_order 4 test_hand). lia. Defined.

(** X12. A hand that passes a set condition for the required number [k]
    passes it for every smaller required number down to 0. *)
Theorem SetBased_hand_passed_monotone `{SetOrder} (k k' : Z) (hand : Hand) :
  0 ≤ k' ≤ k →
  (hand_passed (SameNumber k) hand = Ok true →
   hand_passed (SameNumber k') hand = Ok true) ∧
  (hand_passed (SameColour k) hand = Ok true →
   hand_passed (SameColour k') hand = Ok true).
Proof.
  intros Hk. split.
  - rewrite !SameNumber_passes_iff by lia.
    intros (n & ? & ? & ?). exists n. split_and!; [done..|lia].
  - rewrite !SameColour_passes_iff by lia.
    intros (col & ? & ? & ?). exists col. split_and!; [done..|lia].
Qed.

Lemma SetBased_hand_passed_monotone_witness :
  (hand_passed (H:=elements_order) (SameNumber 5) test_hand = Ok true →
   hand_passed (H:=elements_order) (SameNumber 2) test_hand = Ok true) ∧
  (hand_passed (H:=elements_order) (SameColour 5) test_hand = Ok true →
   hand_passed (H:=elements_order) (SameColour 2) test_hand = Ok true).
Proof. apply (@SetBased_hand_passed_monotone elements_order 5 2 test_hand). lia. Defined.

(** X13. The set conditions return for every required number and every
    hand; on a hand whose cards are all numbered -1 [SameNumber] returns
    no set, however many wildcards there are, and [SameColour] returns
    none on a hand whose colours all contain ["black"]; for a negative
    required number neither returns a set. *)
Theorem SetBased_degenerate `{SetOrder} (k : Z) (hand : Hand) :
  (∃ res, possibilities (SameNumber k) hand = Ok res) ∧
  (∃ res, possibilities (SameColour k) hand = Ok res) ∧
  (Forall (λ card, number card = -1) (cards hand) →
   possibilities (SameNumber k) hand = Ok []) ∧
  (Forall (λ card, str_in "black" (colour card) = true) (cards hand) →
   possibilities (SameColour k) hand = Ok []) ∧
  (k < 0 →
   possibilities (SameNumber k) hand = Ok [] ∧
   possibilities (SameColour k) hand = Ok []).
Proof.
  split_and!.
  - apply SetBased_returns. by left.
  - apply SetBased_returns. by right.
  - intros Hall. cbn [possibilities SameNumber]. unfold SameNumber_candidates.
    replace (filter (λ card, number card ≠ -1) (cards hand)) with (@nil Card).
    + assert (iter (∅ : gset Z) = []) as Hiter.
      { apply Permutation_nil_r. rewrite iter_perm. by rewrite elements_empty. }
      simpl. by rewrite Hiter.
    + symmetry. induction Hall as [|card cs Hcard _ IH]; [done|].
      rewrite filter_cons_False by (by intros ?). done.
  - intros Hall. cbn [possibilities SameColour]. unfold SameColour_candidates.
    replace (filter (λ card, str_in "black" (colour card) = false) (cards hand))
      with (@nil Card).
    + assert (iter (∅ : gset string) = []) as Hiter.
      { apply Permutation_nil_r. rewrite iter_perm. by rewrite elements_empty. }
      simpl. by rewrite Hiter.
    + symmetry. induction Hall as [|card cs Hcard _ IH]; [done|].
      rewrite filter_cons_False by (by rewrite Hcard). done.
  - intros Hk.
    assert (∀ candidates (find_matches : string → Z → outcome (list PositionSet)),
              (∀ c n, find_matches c n = Ok []) →
              SetBased_possibilities candidates find_matches = Ok []) as Hnone.
    { intros candidates find_matches Hfm. unfold SetBased_possibilities.
      rewrite (for_each_Ok_fmap _ (λ _, [])) by (intros; apply Hfm). simpl. f_equal.
      induction candidates as [|c cs IH]; [done|]. done. }
    split; apply Hnone; intros c n.
    + unfold SameNumber_find_matches. rewrite select_matches_nonpositive by lia.
      by rewrite decide_False by lia.
    + unfold SameColour_find_matches. rewrite select_matches_nonpositive by lia.
      by rewrite decide_False by lia.
Qed.

(** ** The enumeration helpers on their own *)

Lemma sublist_same_length {A} (l1 l2 : list A) :
  l1 `sublist_of` l2 → length l1 = length l2 → l1 = l2.
Proof.
  induction 1 as [|x l1 l2 Hsub IH|x l1 l2 Hsub IH]; simpl; intros Hlen.
  - done.
  - f_equal. apply IH. lia.
  - apply sublist_length in Hsub. lia.
Qed.

Lemma elem_of_removals {A} (r : nat) (l kept : list A) :
  kept ∈ removals r l ↔ kept `sublist_of` l ∧ (length kept + r = length l)%nat.
Proof.
  split.
  { intros [? ?]%removals_length. done. }
  revert r kept. induction l as [|x l IH]; intros r kept [Hsub Hlen].
  - apply sublist_nil_r in Hsub as ->. simpl in Hlen.
    assert (r = 0%nat) as -> by lia. apply list_elem_of_here.
  - destruct r as [|r].
    + rewrite removals_0. apply list_elem_of_singleton.
      apply sublist_same_length; [done|lia].
    + cbn [removals]. apply elem_of_app.
      apply sublist_cons_r in Hsub as [Hsub|(kept' & -> & Hsub)].
      * left. apply IH. split; [done|]. simpl in Hlen. lia.
      * right. apply list_elem_of_fmap. exists kept'. split; [done|].
        apply IH. split; [done|]. simpl in Hlen. lia.
Qed.

Lemma for_each_raises {A B} (f : A → outcome B) (l : list A) (e : exn) :
  (∀ x, x ∈ l → (∃ y, f x = Ok y) ∨ f x = Raise e) →
  (∃ x, x ∈ l ∧ f x = Raise e) →
  for_each f l = Raise e.
Proof.
  induction l as [|x l IH]; intros Hall (x' & Hx' & Hraise).
  { by apply elem_of_nil in Hx'. }
  simpl. destruct (Hall x) as [[y Hy]| ->]; [apply list_elem_of_here| |done].
  rewrite Hy. simpl. rewrite IH; [done| |].
  - intros x'' Hx''. apply Hall. by apply list_elem_of_further.
  - apply elem_of_cons in Hx' as [->|Hx']; [congruence|eauto].
Qed.

Lemma length_bind_const {A B} (f : A → list B) (l : list A) (n : nat) :
  (∀ x, length (f x) = n) → length (l ≫= f) = (length l * n)%nat.
Proof.
  intros Hf. induction l as [|x l IH]; [done|].
  rewrite bind_cons, length_app, IH, Hf. simpl. lia.
Qed.

Lemma length_iter `{SetOrder} `{Countable A} (X : gset A) : length (iter X) = size X.
Proof. by rewrite iter_perm. Qed.

(** X14. [SetBased.internal_possibilities] called with a number of
    removals below 1 raises [IndexError], whatever the list and the
    prefix: its loop runs one step too far and deletes from an empty list
    in the end. *)
Theorem internal_possibilities_nonpositive (fuel : nat) (prefix : PositionSet)
    (sub_range : list nat) (remaining_levels : Z) :
  remaining_levels ≤ 0 → (length sub_range < fuel)%nat →
  internal_possibilities fuel prefix sub_range remaining_levels = Raise IndexError.
Proof.
  revert prefix sub_range remaining_levels.
  induction fuel as [|fuel IH]; intros prefix sub_range levels Hlevels Hfuel; [lia|].
  cbn [internal_possibilities].
  destruct (Z.eqb_spec levels 1) as [|_]; [lia|].
  rewrite range_seq.
  replace (Z.to_nat (len sub_range - levels + 1))
    with (S (Z.to_nat (len sub_range - levels))) by (unfold len; lia).
  cbn [seq for_each].
  destruct sub_range as [|x sub_range]; [done|].
  rewrite del_Ok by (simpl; lia). cbn [bind delete list_delete take drop].
  simpl in Hfuel. rewrite IH; [done|lia|rewrite drop_0; lia].
Qed.

Lemma internal_possibilities_nonpositive_witness :
  internal_possibilities 4 ∅ [0; 1; 2]%nat 0 = Raise IndexError.
Proof.
  apply (internal_possibilities_nonpositive 4 ∅ [0; 1; 2]%nat 0); simpl; lia.
Defined.

(** X15. [SetBased.internal_possibilities] called with [r >= 1] removals
    returns one set for each way to remove [r] elements from the list: the
    elements kept, together with the prefix.  These are [C(n, r)] sets for
    a list of [n] elements, none when [r > n]. *)
Theorem internal_possibilities_removes (fuel : nat) (prefix : PositionSet)
    (sub_range : list nat) (remaining_levels : Z) :
  1 ≤ remaining_levels → (length sub_range < fuel)%nat →
  ∃ res,
    internal_possibilities fuel prefix sub_range remaining_levels = Ok res ∧
    length res = binomial (length sub_range) (Z.to_nat remaining_levels) ∧
    (len sub_range < remaining_levels → res = []) ∧
    ∀ X : PositionSet,
      X ∈ res ↔
      ∃ kept, kept `sublist_of` sub_range ∧
              len kept + remaining_levels = len sub_range ∧
              X = list_to_set kept ∪ prefix.
Proof.
  intros Hlevels Hfuel.
  assert (∃ r, remaining_levels = Z.of_nat r ∧ (1 ≤ r)%nat) as (r & -> & Hr).
  { exists (Z.to_nat remaining_levels). lia. }
  rewrite internal_possibilities_removals, Nat2Z.id by lia.
  eexists. split; [done|]. split_and!.
  - by rewrite length_fmap, length_removals.
  - intros Hshort. rewrite removals_short by (unfold len in Hshort; lia). done.
  - intros X. rewrite list_elem_of_fmap. unfold len. split.
    + intros (kept & -> & [Hsub Hlen]%elem_of_removals).
      exists kept. split_and!; [done|lia|done].
    + intros (kept & Hsub & Hlen & ->). exists kept. split; [done|].
      apply elem_of_removals. split; [done|lia].
Qed.

Lemma internal_possibilities_removes_witness :
  ∃ res,
    internal_possibilities 5 {[ 9%nat ]} [0; 1; 2; 3]%nat 2 = Ok res ∧
    length res = binomial (length [0; 1; 2; 3]%nat) (Z.to_nat 2) ∧
    (len [0; 1; 2; 3]%nat < 2 → res = []) ∧
    ∀ X : PositionSet,
      X ∈ res ↔
      ∃ kept, kept `sublist_of` [0; 1; 2; 3]%nat ∧
              len kept + 2 = len [0; 1; 2; 3]%nat ∧
              X = list_to_set kept ∪ {[ 9%nat ]}.
Proof.
  apply (internal_possibilities_removes 5 {[ 9%nat ]} [0; 1; 2; 3]%nat 2); simpl; lia.
Defined.

(** X16. [ListBased.get_combinations] on a non-empty list of slots returns
    one set for each way to take one position from each slot, the product
    of the sizes of the slots in all; on the empty list it recurses
    without end. *)
Theorem get_combinations_count `{SetOrder} (slots : list PositionSet) :
  (slots = [] → get_combinations slots = Raise RecursionError) ∧
  (slots ≠ [] →
   ∃ res, get_combinations slots = Ok res ∧
          length res = product (size <$> slots) ∧
          ∀ X, X ∈ res ↔ ∃ ps, choice_of slots ps ∧ X = list_to_set ps).
Proof.
  split; [by intros ->|]. intros Hne.
  destruct (get_combinations_spec slots Hne) as (res & Hres & Hin).
  exists res. split_and!; [done| |done]. clear Hin. revert res Hres.
  induction slots as [|slot slots IH]; [done|]. intros res Hres.
  destruct slots as [|slot' slots].
  - injection Hres as <-. rewrite length_fmap, length_iter. simpl. lia.
  - cbn [get_combinations] in Hres.
    apply bind_Ok in Hres as (subs & Hsubs & [= <-]).
    rewrite (length_bind_const _ _ (length subs)).
    + rewrite length_iter, (IH ltac:(done) subs Hsubs). done.
    + intros position. by rewrite (length_bind_const _ _ 1%nat), Nat.mul_1_r.
Qed.

Section nonpositive.
Context `{SetOrder}.

Lemma get_combinations_outcome (slots : list PositionSet) :
  (∃ res, get_combinations slots = Ok res) ∨
  get_combinations slots = Raise RecursionError.
Proof.
  destruct slots as [|slot slots]; [by right|]. left.
  destruct (get_combinations_spec (slot :: slots)) as (res & Hres & _); [done|eauto].
Qed.

Lemma get_possibilities_nonpositive_raises (k : Z) (streak : list PositionSet) :
  k ≤ 0 → get_possibilities k streak = Raise RecursionError.
Proof.
  intros Hk. unfold get_possibilities. rewrite (for_each_raises _ _ RecursionError).
  - done.
  - intros i _. apply get_combinations_outcome.
  - exists (Z.to_nat (- k)). split.
    + rewrite range_seq. apply elem_of_seq. unfold len. lia.
    + rewrite Z2Nat.id by lia. replace (k + - k) with 0 by lia.
      unfold slice, slice_index. change (0 <? 0) with false. cbv iota.
      replace (Z.to_nat (0 `min` len streak)) with 0%nat by (unfold len; lia).
      by rewrite Nat.sub_0_l, take_0.
Qed.

Lemma ListBased_possibilities_nonpositive_raises (k : Z) (hand : Hand) :
  k ≤ 0 →
  ListBased_possibilities k (AnyList_candidates hand) = Raise RecursionError.
Proof.
  intros Hk. unfold ListBased_possibilities. cbn [streaks_loop].
  change (1 <=? 12) with true. cbv iota.
  destruct (streak_loop_spec (AnyList_candidates hand) (AnyList_candidates_NoDup hand)
              (S (length (AnyList_candidates hand))) []
              (filter (λ card : nat * Card, number card.2 = -1) (AnyList_candidates hand)) 1)
    as (streak & n' & Hstreak & _); [done|lia| |].
  { apply Nat.lt_succ_r. apply length_filter_exclusive.
    intros [i card]; simpl; lia. }
  rewrite Hstreak. cbn [bind app].
  by rewrite get_possibilities_nonpositive_raises.
Qed.

End nonpositive.

(** X17. The run conditions with a required number below 1 raise
    [RecursionError] on every hand: [get_possibilities] then asks
    [get_combinations] for the combinations of an empty window. *)
Theorem ListBased_nonpositive_raises `{SetOrder} (k : Z) (hand : Hand) :
  k ≤ 0 →
  possibilities (AnyList k) hand = Raise RecursionError ∧
  possibilities (SameColourList k) hand = Raise RecursionError ∧
  hand_passed (AnyList k) hand = Raise RecursionError ∧
  hand_passed (SameColourList k) hand = Raise RecursionError ∧
  ∀ streak, get_possibilities k streak = Raise RecursionError.
Proof.
  intros Hk.
  pose proof (ListBased_possibilities_nonpositive_raises k hand Hk) as Hraise.
  unfold hand_passed. cbn [possibilities AnyList SameColourList].
  rewrite Hraise. split_and!; try done.
  intros streak. by apply get_possibilities_nonpositive_raises.
Qed.

Lemma ListBased_nonpositive_raises_witness :
  possibilities (H:=elements_order) (AnyList 0) test_hand = Raise RecursionError ∧
  possibilities (H:=elements_order) (SameColourList 0) test_hand = Raise RecursionError ∧
  hand_passed (H:=elements_order) (AnyList 0) test_hand = Raise RecursionError ∧
  hand_passed (H:=elements_order) (SameColourList 0) test_hand = Raise RecursionError ∧
  ∀ streak, get_possibilities (H:=elements_order) 0 streak = Raise RecursionError.
Proof. apply (@ListBased_nonpositive_raises elements_order 0 test_hand). lia. Defined.

(** ** What the run conditions return *)

Section slots.
Context (candidates : list (nat * Card)).

Local Notation exactly n := (filter (λ card : nat * Card, number card.2 = n) candidates).

(** The slots that the inner loop appends: the [j]-th of them stands for
    the number [n + j]; it holds the positions of all cards of that
    number, or one of the jokers when no card bears it.  The loop stops at
    the first number that no card bears once the jokers are spent. *)
Lemma streak_loop_slots (fuel : nat) (streak : list PositionSet)
    (jokers : list (nat * Card)) (n : Z) (out : list PositionSet) (n' : Z) :
  streak_loop fuel candidates streak jokers n = Ok (out, n') →
  ∃ streak',
    out = streak ++ streak' ∧ n' = n + len streak' + 1 ∧
    exactly (n' - 1) = [] ∧
    ∀ (j : nat) (slot : PositionSet), streak' !! j = Some slot →
      (exactly (n + Z.of_nat j) ≠ [] ∧
       slot = list_to_set (exactly (n + Z.of_nat j)).*1) ∨
      (exactly (n + Z.of_nat j) = [] ∧ ∃ joker, joker ∈ jokers ∧ slot = {[ joker.1 ]}).
Proof.
  revert streak jokers n.
  induction fuel as [|fuel IH]; intros streak jokers n Hrun; [done|].
  cbn [streak_loop] in Hrun.
  destruct (exactly n) as [|c0 cs0] eqn:Hex.
  - destruct (decide (jokers = [])) as [->|Hne].
    + simpl in Hrun. injection Hrun as <- <-. exists [].
      rewrite app_nil_r. split_and!; [done|unfold len; simpl; lia| |done].
      by replace (n + 1 - 1) with n by lia.
    + destruct (pop_snoc jokers Hne) as (jokers' & joker & Hpop & Hjokers).
      replace (len jokers >? 0) with true in Hrun
        by (symmetry; apply Z.gtb_lt; unfold len; destruct jokers; simpl; [done|lia]).
      simpl in Hrun. rewrite Hpop in Hrun. simpl in Hrun.
      apply IH in Hrun as (streak' & -> & -> & Hstop & Hslots).
      exists ({[ joker.1 ]} :: streak'). rewrite <- (assoc_L _ _).
      split_and!; [done|unfold len; simpl; lia| |].
      * rewrite <- Hstop. f_equal; unfold len; simpl; lia.
      * intros [|j] slot Hslot; simpl in Hslot.
        -- injection Hslot as <-. right. rewrite Z.add_0_r. split; [done|].
           exists joker. split; [|done]. rewrite Hjokers. set_solver.
        -- replace (n + Z.of_nat (S j)) with (n + 1 + Z.of_nat j) by lia.
           destruct (Hslots j slot Hslot) as [?|(? & joker' & ? & ?)]; [by left|].
           right. split; [done|]. exists joker'. split; [|done].
           rewrite Hjokers. set_solver.
  - change (len (c0 :: cs0) =? 0) with false in Hrun.
    change (len (c0 :: cs0) >? 0) with true in Hrun. cbn [andb] in Hrun.
    apply IH in Hrun as (streak' & -> & -> & Hstop & Hslots).
    exists (list_to_set (c0 :: cs0).*1 :: streak'). rewrite <- (assoc_L _ _).
    split_and!; [done|unfold len; simpl; lia| |].
    + rewrite <- Hstop. f_equal; unfold len; simpl; lia.
    + intros [|j] slot Hslot; simpl in Hslot.
      * injection Hslot as <-. left. rewrite Z.add_0_r, Hex. done.
      * replace (n + Z.of_nat (S j)) with (n + 1 + Z.of_nat j) by lia.
        by apply Hslots.
Qed.

End slots.

Section AnyList.
Context `{SetOrder}.
Context (hand : Hand).

Local Notation candidates := (AnyList_candidates hand).
Local Notation exactly n := (filter (λ card : nat * Card, number card.2 = n) candidates).
Local Notation all_jokers := (filter (λ card : nat * Card, number card.2 = -1) candidates).

Lemma elem_of_AnyList_candidates (p : nat) (card : Card) :
  (p, card) ∈ candidates ↔ cards hand !! p = Some card.
Proof. by rewrite AnyList_candidates_perm, elem_of_enumerate. Qed.

Lemma elem_of_exactly (n : Z) (p : nat) :
  p ∈ (list_to_set (exactly n).*1 : PositionSet) ↔
  ∃ card, cards hand !! p = Some card ∧ number card = n.
Proof.
  rewrite elem_of_list_to_set, list_elem_of_fmap. split.
  - intros ([p' card] & -> & [Hn Hin]%list_elem_of_filter).
    exists card. split; [|done]. by apply elem_of_AnyList_candidates.
  - intros (card & Hcard & Hn). exists (p, card). split; [done|].
    apply list_elem_of_filter. split; [done|]. by apply elem_of_AnyList_candidates.
Qed.

Lemma streak_loop_returns (n : Z) :
  0 ≤ n →
  ∃ streak n',
    streak_loop (S (length candidates)) candidates [] all_jokers n = Ok (streak, n').
Proof.
  intros Hn.
  destruct (streak_loop_spec candidates (AnyList_candidates_NoDup hand)
              (S (length candidates)) [] all_jokers n)
    as (streak & n' & Hstreak & _); [done|lia| |eauto].
  apply Nat.lt_succ_r. apply length_filter_exclusive.
  intros [i card]; simpl; lia.
Qed.

(** A window of a streak holds a run. *)
Lemma window_run_from (streak : list PositionSet) (n n' : Z) (i : nat) (ps : list nat)
    (slots : list PositionSet) :
  0 ≤ n →
  streak_loop (S (length candidates)) candidates [] all_jokers n = Ok (streak, n') →
  slots `prefix_of` drop i streak → choice_of slots ps →
  run_from hand (n + Z.of_nat i) ps ∧ wildcards_fill_gaps hand (n + Z.of_nat i) ps.
Proof.
  intros Hn (streak' & -> & _ & _ & Hslots)%streak_loop_slots Hprefix Hch.
  simpl in Hprefix.
  assert (∀ (j p : nat), ps !! j = Some p →
            ∃ slot, streak' !! (i + j)%nat = Some slot ∧ p ∈ slot) as Hslot.
  { intros j p Hp.
    destruct (Forall2_lookup_l _ _ _ _ _ Hch Hp) as (slot & Hslot & Hin).
    exists slot. split; [|done].
    rewrite <- lookup_drop. by eapply prefix_lookup_Some. }
  split.
  - intros j p Hp. destruct (Hslot j p Hp) as (slot & Hslot' & Hin).
    destruct (Hslots _ _ Hslot') as [[_ ->]|(_ & [q joker] & Hjoker & ->)].
    + apply elem_of_exactly in Hin as (card & Hcard & Hnum).
      exists card. split; [done|]. left. lia.
    + apply elem_of_singleton in Hin as ->. simpl.
      apply list_elem_of_filter in Hjoker as [Hnum Hjoker]. simpl in Hnum.
      exists joker. split; [|by right]. by apply elem_of_AnyList_candidates.
  - intros j p card Hp Hcard Hwild card' Hcard' Hnum'.
    destruct (Hslot j p Hp) as (slot & Hslot' & Hin).
    destruct (Hslots _ _ Hslot') as [[_ ->]|[Hnone _]].
    + apply elem_of_exactly in Hin as (card0 & Hcard0 & Hnum). 
      rewrite Hcard in Hcard0. injection Hcard0 as <-. lia.
    + apply list_elem_of_lookup in Hcard' as [q Hq].
      assert ((q, card') ∈ exactly (n + Z.of_nat (i + j))) as Hin'.
      { apply list_elem_of_filter. split; [simpl; lia|].
        by apply elem_of_AnyList_candidates. }
      rewrite Hnone in Hin'. by apply elem_of_nil in Hin'.
Qed.

(** A run of real cards lies within one streak or behind it. *)
Lemma real_run_in_streak (streak : list PositionSet) (n n' s : Z) (ps : list nat) :
  streak_loop (S (length candidates)) candidates [] all_jokers n = Ok (streak, n') →
  n ≤ s → ps ≠ [] → real_run_from hand s ps →
  n' ≤ s ∨
  ∃ i : nat, n + Z.of_nat i = s ∧ (i + length ps ≤ length streak)%nat ∧
             choice_of (take (length ps) (drop i streak)) ps.
Proof.
  intros (streak' & -> & -> & Hstop & Hslots)%streak_loop_slots Hn Hne Hrun.
  simpl in *.
  assert (∀ j : nat, (j < length ps)%nat → exactly (s + Z.of_nat j) ≠ []) as Hcards.
  { intros j Hj. destruct (lookup_lt_is_Some_2 ps j Hj) as [p Hp].
    destruct (Hrun j p Hp) as (card & Hcard & Hnum).
    assert ((p, card) ∈ exactly (s + Z.of_nat j)) as Hin.
    { apply list_elem_of_filter. split; [done|]. by apply elem_of_AnyList_candidates. }
    intros Hnil. rewrite Hnil in Hin. by apply elem_of_nil in Hin. }
  destruct (decide (n + len streak' < s)) as [Hbehind|Hin]; [left; lia|].
  right. exists (Z.to_nat (s - n)).
  assert (Z.to_nat (s - n) + length ps ≤ length streak')%nat as Hfits.
  { apply Nat.le_ngt. intros Hover.
    apply (Hcards (Z.to_nat (n + len streak' - s))).
    - unfold len in *. lia.
    - replace (s + Z.of_nat (Z.to_nat (n + len streak' - s)))
        with (n + len streak' + 1 - 1) by (unfold len in *; lia).
      done. }
  split_and!; [lia|done|].
  apply Forall2_same_length_lookup. split.
  { rewrite length_take, length_drop. lia. }
  intros j p slot Hp Hslot.
  apply lookup_take_Some in Hslot as [Hslot Hj]. rewrite lookup_drop in Hslot.
  destruct (Hrun j p Hp) as (card & Hcard & Hnum).
  destruct (Hslots _ _ Hslot) as [[_ ->]|[Hnil _]].
  - apply elem_of_exactly. exists card. split; [done|]. lia.
  - destruct (Hcards j Hj).
    replace (s + Z.of_nat j) with (n + Z.of_nat (Z.to_nat (s - n) + j)) by lia.
    done.
Qed.

(** Every set that the outer loop adds comes from a window of a streak. *)
Lemma streaks_loop_sound (fuel : nat) (k : Z) (acc res : list PositionSet) (n : Z)
    (X : PositionSet) :
  1 ≤ k → 1 ≤ n →
  streaks_loop fuel k candidates acc n = Ok res → X ∈ res →
  X ∈ acc ∨
  ∃ (start : Z) (ps : list nat),
    1 ≤ start ∧ X = list_to_set ps ∧ length ps = Z.to_nat k ∧
    run_from hand start ps ∧ wildcards_fill_gaps hand start ps.
Proof.
  intros Hk. revert acc n.
  induction fuel as [|fuel IH]; intros acc n Hn Hres HX.
  { destruct (decide (12 < n)) as [Hdone|Hgo].
    - rewrite streaks_loop_done in Hres by done. injection Hres as <-. by left.
    - cbn [streaks_loop] in Hres. by destruct (Z.leb_spec n 12); [|lia]. }
  destruct (decide (12 < n)) as [Hdone|Hgo].
  { rewrite streaks_loop_done in Hres by done. injection Hres as <-. by left. }
  destruct (streak_loop_returns n) as (streak & n' & Hstreak); [lia|].
  destruct (get_possibilities_spec k streak Hk) as (combinations & Hcomb & Hin).
  rewrite (streaks_loop_step fuel k candidates acc streak combinations n n') in Hres
    by (done || lia).
  assert (n < n') as Hlt.
  { apply streak_loop_slots in Hstreak as (streak' & _ & -> & _). unfold len. lia. }
  destruct (IH (acc ++ combinations) n') as [[Hacc|Hnew]%elem_of_app|Hrun];
    [lia|done|done|by left| |by right].
  right. apply Hin in Hnew as (i & ps & Hi & Hch & ->).
  exists (n + Z.of_nat i), ps. split; [lia|]. split; [done|]. split.
  - apply choice_of_length in Hch. rewrite Hch, length_take, length_drop. lia.
  - eapply window_run_from; [lia|done| |done]. apply prefix_take.
Qed.

(** A run of real cards that starts at a number the outer loop has not
    passed yet is returned. *)
Lemma streaks_loop_complete (fuel : nat) (k : Z) (acc : list PositionSet) (n s : Z)
    (ps : list nat) :
  1 ≤ k → 1 ≤ n ≤ s → s ≤ 12 → 13 - n ≤ Z.of_nat fuel →
  length ps = Z.to_nat k → real_run_from hand s ps →
  ∃ res, streaks_loop fuel k candidates acc n = Ok res ∧ list_to_set ps ∈ res.
Proof.
  intros Hk. revert acc n.
  induction fuel as [|fuel IH]; intros acc n Hn Hs Hfuel Hlen Hrun; [lia|].
  destruct (streak_loop_returns n) as (streak & n' & Hstreak); [lia|].
  destruct (real_run_in_streak streak n n' s ps Hstreak) as [Hbehind|(i & Hi & Hfits & Hch)];
    [lia|by intros ->; simpl in Hlen; lia|done| |].
  - destruct (get_possibilities_spec k streak Hk) as (combinations & Hcomb & _).
    rewrite (streaks_loop_step fuel k candidates acc streak combinations n n')
      by (done || lia).
    assert (n < n') as Hlt.
    { apply streak_loop_slots in Hstreak as (streak' & _ & -> & _). unfold len. lia. }
    apply IH; [lia|done|lia|done..].
  - rewrite Hlen in Hfits, Hch.
    apply (streaks_loop_window fuel k hand acc streak n n' i ps); [done|lia|lia|done..].
Qed.

(** A shorter run is found wherever a longer one is. *)
Lemma streaks_loop_shorter (fuel : nat) (k k' : Z) (acc acc' res' : list PositionSet)
    (n : Z) :
  1 ≤ k ≤ k' → 0 ≤ n → (acc' ≠ [] → acc ≠ []) →
  streaks_loop fuel k' candidates acc' n = Ok res' → res' ≠ [] →
  ∃ res, streaks_loop fuel k candidates acc n = Ok res ∧ res ≠ [].
Proof.
  intros Hk. revert acc acc' n.
  induction fuel as [|fuel IH]; intros acc acc' n Hn Hacc Hres' Hne.
  { destruct (decide (12 < n)) as [Hdone|Hgo].
    - rewrite streaks_loop_done in Hres' by done. injection Hres' as <-.
      exists acc. rewrite streaks_loop_done by done. auto.
    - cbn [streaks_loop] in Hres'. by destruct (Z.leb_spec n 12); [|lia]. }
  destruct (decide (12 < n)) as [Hdone|Hgo].
  { rewrite streaks_loop_done in Hres' by done. injection Hres' as <-.
    exists acc. rewrite streaks_loop_done by done. auto. }
  destruct (streak_loop_returns n) as (streak & n' & Hstreak); [lia|].
  destruct (get_possibilities_spec k streak) as (combinations & Hcomb & Hin); [lia|].
  destruct (get_possibilities_spec k' streak) as (combinations' & Hcomb' & Hin'); [lia|].
  rewrite (streaks_loop_step fuel k' candidates acc' streak combinations' n n') in Hres'
    by (done || lia).
  rewrite (streaks_loop_step fuel k candidates acc streak combinations n n')
    by (done || lia).
  assert (n < n') as Hlt.
  { apply streak_loop_slots in Hstreak as (streak' & _ & -> & _). unfold len. lia. }
  apply (IH _ (acc' ++ combinations')); [lia| |done..].
  intros Hne'. destruct acc' as [|X' acc'].
  - destruct combinations' as [|X' combinations']; [done|].
    destruct (proj1 (Hin' X')) as (i & ps & Hi & Hch & _); [apply list_elem_of_here|].
    assert (list_to_set (take (Z.to_nat k) ps) ∈ combinations) as Hshort.
    { apply Hin. exists i, (take (Z.to_nat k) ps). split_and!; [lia| |done].
      unfold choice_of in *.
      replace (take (Z.to_nat k) (drop i streak))
        with (take (Z.to_nat k) (take (Z.to_nat k') (drop i streak)))
        by (rewrite take_take; f_equal; lia).
      by apply Forall2_take. }
    intros Hnil. apply app_eq_nil in Hnil as [_ ->]. by apply elem_of_nil in Hshort.
  - destruct acc as [|X acc]; [by destruct Hacc|done].
Qed.

End AnyList.

Lemma size_list_to_set_length (ps : list nat) :
  (size (list_to_set (C:=PositionSet) ps) ≤ length ps)%nat.
Proof.
  induction ps as [|p ps IH]; [done|].
  rewrite list_to_set_cons, size_union_alt, size_singleton. simpl.
  assert (size (list_to_set (C:=PositionSet) ps ∖ {[p]}) ≤ size (list_to_set (C:=PositionSet) ps))%nat
    by (apply subseteq_size; set_solver).
  lia.
Qed.

Lemma NoDup_of_size (ps : list nat) :
  size (list_to_set (C:=PositionSet) ps) = length ps → NoDup ps.
Proof.
  induction ps as [|p ps IH]; [constructor|]. intros Hsize.
  pose proof (size_list_to_set_length ps) as Hle.
  rewrite list_to_set_cons in Hsize. simpl in Hsize.
  destruct (decide (p ∈ ps)) as [Hin|Hnotin].
  - assert ({[p]} ∪ list_to_set ps = (list_to_set ps : PositionSet)) as Heq
      by set_solver.
    rewrite Heq in Hsize. lia.
  - constructor; [done|]. apply IH.
    rewrite size_union, size_singleton in Hsize by set_solver. lia.
Qed.

(** X18. Every set that [AnyList(k)] returns, [k >= 1], is a run: its [k]
    positions, taken in some order, hold cards that bear the numbers
    [start], [start + 1], ... in turn or the number -1, for a [start] of
    at least 1; and a card numbered -1 stands only in the place of a
    number that no card of the hand bears. *)
Theorem AnyList_possibilities_runs `{SetOrder}
    (k : Z) (hand : Hand) (res : list PositionSet) (X : PositionSet) :
  1 ≤ k → possibilities (AnyList k) hand = Ok res → X ∈ res →
  ∃ (start : Z) (ps : list nat),
    1 ≤ start ∧ X = list_to_set ps ∧ length ps = Z.to_nat k ∧ NoDup ps ∧
    run_from hand start ps ∧ wildcards_fill_gaps hand start ps.
Proof.
  intros Hk Hres HX.
  destruct (ListBased_possibilities_finishes k hand Hk) as (res' & Hres' & Hall).
  cbn [possibilities AnyList] in Hres. rewrite Hres in Hres'. injection Hres' as <-.
  destruct (proj1 (Forall_forall _ _) Hall X HX) as [Hsize _].
  destruct (streaks_loop_sound hand 12 k [] res 1 X)
    as [Hnil|(start & ps & ? & -> & ? & ? & ?)];
    [done..|by apply elem_of_nil in Hnil|].
  exists start, ps. split_and!; [done..| |done|done].
  apply NoDup_of_size. lia.
Qed.

Lemma AnyList_possibilities_runs_witness :
  ∃ (start : Z) (ps : list nat),
    1 ≤ start ∧ list_to_set [0; 1; 2]%nat = (list_to_set ps : PositionSet) ∧
    length ps = Z.to_nat 3 ∧ NoDup ps ∧
    run_from test_hand start ps ∧ wildcards_fill_gaps test_hand start ps.
Proof.
  apply (@AnyList_possibilities_runs elements_order 3 test_hand
           (match possibilities (H:=elements_order) (AnyList 3) test_hand with
            | Ok res => res
            | _ => []
            end)).
  - lia.
  - vm_compute. reflexivity.
  - vm_compute. apply list_elem_of_here.
Defined.

(** X19. Every run of real cards is found: [k >= 1] positions whose cards
    bear the numbers [s], [s + 1], ..., [s + k - 1] in turn, for a start
    [s] from 1 to 12, form a set that [AnyList(k)] returns. *)
Theorem AnyList_possibilities_real_runs `{SetOrder}
    (k : Z) (hand : Hand) (s : Z) (ps : list nat) :
  1 ≤ k → 1 ≤ s ≤ 12 → length ps = Z.to_nat k → real_run_from hand s ps →
  (∃ res, possibilities (AnyList k) hand = Ok res ∧ list_to_set ps ∈ res) ∧
  hand_passed (AnyList k) hand = Ok true.
Proof.
  intros Hk Hs Hlen Hrun.
  destruct (streaks_loop_complete hand 12 k [] 1 s ps) as (res & Hres & Hin);
    [done|lia|lia|lia|done..|].
  split; [by exists res|].
  apply (hand_passed_nonempty _ _ res); [done|].
  intros ->. by apply elem_of_nil in Hin.
Qed.

Lemma AnyList_possibilities_real_runs_witness :
  (∃ res, possibilities (H:=elements_order) (AnyList 3) test_hand = Ok res ∧
          list_to_set [3; 4; 6]%nat ∈ res) ∧
  hand_passed (H:=elements_order) (AnyList 3) test_hand = Ok true.
Proof.
  apply (@AnyList_possibilities_real_runs elements_order 3 test_hand 4 [3; 4; 6]%nat).
  - lia.
  - lia.
  - reflexivity.
  - intros [|[|[|j]]] p Hp; simpl in Hp; try done; injection Hp as <-;
      eexists; (split; [reflexivity|reflexivity]).
Defined.

(** X20. A hand that passes [AnyList(k')] passes [AnyList(k)] for every
    [k] from 1 to [k']. *)
Theorem AnyList_hand_passed_monotone `{SetOrder} (k k' : Z) (hand : Hand) :
  1 ≤ k ≤ k' →
  hand_passed (AnyList k') hand = Ok true → hand_passed (AnyList k) hand = Ok true.
Proof.
  intros Hk (res' & Hres' & Hlen)%hand_passed_true_inv.
  destruct (streaks_loop_shorter hand 12 k k' [] [] res' 1) as (res & Hres & Hne);
    [done|lia|done|done| |].
  { intros ->. simpl in Hlen. lia. }
  by apply (hand_passed_nonempty _ _ res).
Qed.

Lemma AnyList_hand_passed_monotone_witness :
  hand_passed (H:=elements_order) (AnyList 3) test_hand = Ok true.
Proof.
  apply (@AnyList_hand_passed_monotone elements_order 3 9 test_hand).
  - lia.
  - vm_compute. reflexivity.
Defined.

(** ** Runs lie within 1..12 *)

(** A run on cards numbered up to 12 whose places reach beyond 12 holds
    cards numbered -1 at those places; moved to the front of the run, they
    stand for the numbers before its start. *)
Lemma run_from_within (hand : Hand) (start : Z) (ps : list nat) :
  Forall (λ card, number card ≤ 12) (cards hand) →
  1 ≤ start → (length ps ≤ 12)%nat → run_from hand start ps →
  ∃ (start' : Z) (ps' : list nat),
    1 ≤ start' ∧ start' + len ps - 1 ≤ 12 ∧ ps' ≡ₚ ps ∧ run_from hand start' ps'.
Proof.
  intros Hcards Hstart Hlen Hrun.
  assert (∀ (j p : nat), ps !! j = Some p → 12 < start + Z.of_nat j →
            ∃ card, cards hand !! p = Some card ∧ number card = -1) as Hwild.
  { intros j p Hp Hbeyond. destruct (Hrun j p Hp) as (card & Hcard & [Hnum|Hnum]);
      [|eauto].
    assert (number card ≤ 12); [|lia].
    apply (proj1 (Forall_forall _ _) Hcards). by eapply list_elem_of_lookup_2. }
  destruct (decide (start + len ps - 1 ≤ 12)) as [Hfits|Hover].
  { exists start, ps. done. }
  destruct (decide (12 < start)) as [Hhigh|Hlow].
  { exists 1, ps. split_and!; [done|unfold len; lia|done|].
    intros j p Hp. destruct (Hwild j p Hp) as (card & Hcard & Hnum); [lia|].
    exists card. auto. }
  set (m := Z.to_nat (13 - start)).
  assert (1 ≤ m < length ps)%nat as Hm by (unfold len in Hover; lia).
  exists (start - Z.of_nat (length ps - m)), (drop m ps ++ take m ps).
  split_and!.
  - unfold len in *. lia.
  - unfold len in *. lia.
  - rewrite Permutation_app_comm. by rewrite take_drop.
  - intros j p Hp.
    destruct (decide (j < length ps - m)%nat) as [Hfront|Hback].
    + rewrite lookup_app_l in Hp by (rewrite length_drop; lia).
      rewrite lookup_drop in Hp.
      destruct (Hwild _ p Hp) as (card & Hcard & Hnum); [lia|].
      exists card. auto.
    + rewrite lookup_app_r in Hp by (rewrite length_drop; lia).
      rewrite length_drop in Hp.
      apply lookup_take_Some in Hp as [Hp Hj].
      destruct (Hrun _ p Hp) as (card & Hcard & [Hnum|Hnum]);
        exists card; (split; [done|]); [left; lia|by right].
Qed.

(** C2. For a hand built by [Hand.__init__] whose cards are numbered up to
    12 (the cards numbered -1 included) and a run condition, [AnyList] or
    [SameColourList], with a required number [k] from 1 to 10,
    [possibilities] returns, and every set it returns is a run within
    1..12: its [k] distinct positions, in some order, hold cards that bear
    the numbers [start], ..., [start + k - 1] in turn or the number -1,
    with [1 <= start] and [start + k - 1 <= 12]. *)
Theorem runs_within_1_12 `{SetOrder}
    (cs : list Card) (hand : Hand) (c : class) (k : Z) :
  Hand_init cs = Ok hand →
  Forall (λ card, number card ≤ 12) (cards hand) →
  c = AnyListC ∨ c = SameColourListC →
  1 ≤ k ≤ 10 →
  ∃ res,
    possibilities (mkCondition c k []) hand = Ok res ∧
    ∀ X, X ∈ res →
      ∃ (start : Z) (ps : list nat),
        1 ≤ start ∧ start + k - 1 ≤ 12 ∧
        X = list_to_set ps ∧ length ps = Z.to_nat k ∧ NoDup ps ∧
        run_from hand start ps.
Proof.
  intros _ Hcards Hclass Hk.
  destruct (ListBased_possibilities_finishes k hand) as (all & Hall & Hsizes); [lia|].
  assert (∃ res, possibilities (mkCondition c k []) hand = Ok res ∧
                 ∀ X, X ∈ res → X ∈ all) as (res & Hres & Hsub).
  { destruct Hclass as [-> | ->].
    - exists all. done.
    - destruct (possibilities_total (mkCondition SameColourListC k []) hand)
        as [res Hres]; [by constructor|].
      exists res. split; [done|]. cbn [possibilities] in Hres. rewrite Hall in Hres.
      cbn [bind] in Hres. intros X HX.
      eapply elem_of_sublist; [done|]. by eapply filter_each_sublist. }
  exists res. split; [done|]. intros X HX%Hsub.
  destruct (proj1 (Forall_forall _ _) Hsizes X HX) as [Hsize _].
  destruct (streaks_loop_sound hand 12 k [] all 1 X)
    as [Hnil|(start & ps & Hstart & -> & Hlen & Hrun & _)];
    [lia|done|done|done|by apply elem_of_nil in Hnil|].
  destruct (run_from_within hand start ps) as (start' & ps' & ? & Hend & Hperm & ?);
    [done|done|lia|done|].
  exists start', ps'. unfold len in Hend. rewrite Hlen in Hend.
  split_and!; [done|lia| | | |done].
  - by rewrite Hperm.
  - by rewrite Hperm.
  - rewrite Hperm. apply NoDup_of_size. lia.
Qed.

Lemma runs_within_1_12_witness :
  ∃ res,
    possibilities (H:=elements_order) (mkCondition AnyListC 4 []) high_run_hand = Ok res ∧
    ∀ X, X ∈ res →
      ∃ (start : Z) (ps : list nat),
        1 ≤ start ∧ start + 4 - 1 ≤ 12 ∧
        X = list_to_set ps ∧ length ps = Z.to_nat 4 ∧ NoDup ps ∧
        run_from high_run_hand start ps.
Proof.
  apply (@runs_within_1_12 elements_order (cards high_run_hand) high_run_hand AnyListC 4).
  - reflexivity.
  - simpl. repeat (apply Forall_cons; split; [simpl; lia|]). apply Forall_nil_2.
  - by left.
  - lia.
Defined.

(** ** Which hands pass a run condition *)

Lemma missing_count_snoc (hand : Hand) (n : Z) (k : nat) :
  missing_count hand n (S k) =
  (missing_count hand n k +
   if decide (missing hand (n + Z.of_nat k)) then 1 else 0)%nat.
Proof.
  revert n. induction k as [|k IH]; intros n.
  - simpl. rewrite Z.add_0_r. lia.
  - cbn [missing_count] in *. rewrite IH.
    replace (n + 1 + Z.of_nat k) with (n + Z.of_nat (S k)) by lia. lia.
Qed.

Lemma missing_count_mono (hand : Hand) (n : Z) (k k' : nat) :
  (k ≤ k')%nat → (missing_count hand n k ≤ missing_count hand n k')%nat.
Proof.
  induction 1 as [|k' _ IH]; [done|]. rewrite missing_count_snoc. lia.
Qed.

(** The length of a streak is fixed by the numbers that no card bears. *)
Lemma streak_length_unique (hand : Hand) (n : Z) (l l' : nat) (j : nat) :
  missing_count hand n l = j → missing hand (n + Z.of_nat l) →
  missing_count hand n l' = j → missing hand (n + Z.of_nat l') →
  l = l'.
Proof.
  intros Hl Hgap Hl' Hgap'.
  destruct (Nat.lt_trichotomy l l') as [Hlt|[ |Hlt]]; [|done|].
  - pose proof (missing_count_mono hand n (S l) l' Hlt) as Hle.
    rewrite missing_count_snoc, decide_True in Hle by done. lia.
  - pose proof (missing_count_mono hand n (S l') l Hlt) as Hle.
    rewrite missing_count_snoc, decide_True in Hle by done. lia.
Qed.

Lemma streak_length_at_least (hand : Hand) (n : Z) (l k : nat) :
  missing_count hand n l = wildcards hand → missing hand (n + Z.of_nat l) →
  (k ≤ l)%nat ↔ (missing_count hand n k ≤ wildcards hand)%nat.
Proof.
  intros Hl Hgap. split.
  - intros Hk. rewrite <- Hl. by apply missing_count_mono.
  - intros Hk. apply Nat.le_ngt. intros Hlt.
    pose proof (missing_count_mono hand n (S l) k Hlt) as Hle.
    rewrite missing_count_snoc, decide_True in Hle by done. lia.
Qed.

Section pass.
Context `{SetOrder}.
Context (hand : Hand).

Local Notation candidates := (AnyList_candidates hand).
Local Notation exactly n := (filter (λ card : nat * Card, number card.2 = n) candidates).
Local Notation all_jokers := (filter (λ card : nat * Card, number card.2 = -1) candidates).

Lemma exactly_nil_iff (n : Z) : exactly n = [] ↔ missing hand n.
Proof.
  unfold missing. rewrite Forall_forall. split.
  - intros Hnil card Hcard Hnum. apply list_elem_of_lookup in Hcard as [p Hp].
    assert ((p, card) ∈ exactly n) as Hin.
    { apply list_elem_of_filter. split; [done|]. by apply elem_of_AnyList_candidates. }
    rewrite Hnil in Hin. by apply elem_of_nil in Hin.
  - intros Hmissing. destruct (exactly n) as [|[p card] l] eqn:Hex; [done|].
    assert ((p, card) ∈ exactly n) as Hin by (rewrite Hex; apply list_elem_of_here).
    apply list_elem_of_filter in Hin as [Hnum Hin%elem_of_AnyList_candidates].
    destruct (Hmissing card); [by eapply list_elem_of_lookup_2|done].
Qed.

Lemma length_all_jokers : length all_jokers = wildcards hand.
Proof.
  unfold wildcards.
  rewrite <- (length_fmap snd all_jokers).
  pose proof (filter_snd (λ card : Card, number card = -1) candidates) as Hsnd.
  simpl in Hsnd. rewrite Hsnd.
  by rewrite AnyList_candidates_perm, snd_enumerate.
Qed.

(** The inner loop spends every joker it was given, one on each number
    that no card bears. *)
Lemma streak_loop_spends (fuel : nat) (streak : list PositionSet)
    (jokers : list (nat * Card)) (n : Z) (out : list PositionSet) (n' : Z) :
  streak_loop fuel candidates streak jokers n = Ok (out, n') →
  ∃ streak',
    out = streak ++ streak' ∧
    missing_count hand n (length streak') = length jokers.
Proof.
  revert streak jokers n.
  induction fuel as [|fuel IH]; intros streak jokers n Hrun; [done|].
  cbn [streak_loop] in Hrun.
  destruct (exactly n) as [|c0 cs0] eqn:Hex.
  - apply exactly_nil_iff in Hex.
    destruct (decide (jokers = [])) as [->|Hne].
    + simpl in Hrun. injection Hrun as <- <-. exists [].
      by rewrite app_nil_r.
    + destruct (pop_snoc jokers Hne) as (jokers' & joker & Hpop & Hjokers).
      replace (len jokers >? 0) with true in Hrun
        by (symmetry; apply Z.gtb_lt; unfold len; destruct jokers; simpl; [done|lia]).
      simpl in Hrun. rewrite Hpop in Hrun. simpl in Hrun.
      apply IH in Hrun as (streak' & -> & Hcount).
      exists ({[ joker.1 ]} :: streak'). rewrite <- (assoc_L _ _).
      split; [done|]. cbn [length missing_count].
      rewrite decide_True by done. rewrite Hcount, Hjokers, length_app. simpl. lia.
  - assert (¬ missing hand n) as Hhere.
    { intros Hmissing%exactly_nil_iff. by rewrite Hex in Hmissing. }
    change (len (c0 :: cs0) =? 0) with false in Hrun.
    change (len (c0 :: cs0) >? 0) with true in Hrun. cbn [andb] in Hrun.
    apply IH in Hrun as (streak' & -> & Hcount).
    exists (list_to_set (c0 :: cs0).*1 :: streak'). rewrite <- (assoc_L _ _).
    split; [done|]. cbn [length missing_count].
    by rewrite decide_False by done.
Qed.

(** One streak of the outer loop. *)
Lemma streak_of (n : Z) :
  0 ≤ n →
  ∃ streak,
    streak_loop (S (length candidates)) candidates [] all_jokers n
      = Ok (streak, n + len streak + 1) ∧
    missing_count hand n (length streak) = wildcards hand ∧
    missing hand (n + len streak) ∧
    Forall (λ slot : PositionSet, ∃ p, p ∈ slot) streak.
Proof.
  intros Hn. destruct (streak_loop_returns hand n Hn) as (streak & n' & Hstreak).
  destruct (streak_loop_slots _ _ _ _ _ _ _ Hstreak)
    as (streak' & Hout & -> & Hstop & Hslots).
  destruct (streak_loop_spends _ _ _ _ _ _ Hstreak) as (streak'' & Hout' & Hcount).
  simpl in Hout, Hout'. subst streak' streak''. exists streak.
  rewrite length_all_jokers in Hcount. split_and!; [done..| |].
  - apply exactly_nil_iff.
    replace (n + len streak) with (n + len streak + 1 - 1) by lia. done.
  - apply Forall_forall. intros slot Hslot.
    apply list_elem_of_lookup in Hslot as [j Hj].
    destruct (Hslots j slot Hj) as [[Hne ->]|(_ & joker & _ & ->)].
    + destruct (exactly (n + Z.of_nat j)) as [|[p card] l]; [done|].
      exists p. set_solver.
    + exists joker.1. set_solver.
Qed.

Lemma choice_exists (slots : list PositionSet) :
  Forall (λ slot : PositionSet, ∃ p, p ∈ slot) slots → ∃ ps, choice_of slots ps.
Proof.
  induction 1 as [|slot slots [p Hp] _ [ps Hps]].
  - exists []. constructor.
  - exists (p :: ps). by constructor.
Qed.

(** A streak yields a set exactly when it is long enough. *)
Lemma get_possibilities_nonempty (k : Z) (streak combinations : list PositionSet) :
  1 ≤ k → Forall (λ slot : PositionSet, ∃ p, p ∈ slot) streak →
  get_possibilities k streak = Ok combinations →
  combinations ≠ [] ↔ (Z.to_nat k ≤ length streak)%nat.
Proof.
  intros Hk Hslots Hcomb.
  destruct (get_possibilities_spec k streak Hk) as (combinations' & Hcomb' & Hin).
  rewrite Hcomb in Hcomb'. injection Hcomb' as <-. split.
  - intros Hne. destruct combinations as [|X combinations]; [done|].
    destruct (proj1 (Hin X)) as (i & ps & Hi & _); [apply list_elem_of_here|]. lia.
  - intros Hlen.
    destruct (choice_exists (take (Z.to_nat k) (drop 0 streak))) as [ps Hps].
    { apply Forall_take. by rewrite drop_0. }
    assert (list_to_set ps ∈ combinations) as Hmem.
    { apply Hin. exists 0%nat, ps. split_and!; [lia|done..]. }
    intros ->. by apply elem_of_nil in Hmem.
Qed.

(** The outer loop returns a set only if some streak it starts is long
    enough. *)
Lemma streaks_loop_passes_inv (fuel : nat) (k : Z) (acc res : list PositionSet) (n : Z) :
  1 ≤ k → 1 ≤ n → streak_start hand n →
  streaks_loop fuel k candidates acc n = Ok res → res ≠ [] →
  acc ≠ [] ∨
  ∃ m, streak_start hand m ∧ m ≤ 12 ∧
       (missing_count hand m (Z.to_nat k) ≤ wildcards hand)%nat.
Proof.
  intros Hk. revert acc n.
  induction fuel as [|fuel IH]; intros acc n Hn Hstart Hres Hne.
  { destruct (decide (12 < n)) as [Hdone|Hgo].
    - rewrite streaks_loop_done in Hres by done. injection Hres as <-. by left.
    - cbn [streaks_loop] in Hres. by destruct (Z.leb_spec n 12); [|lia]. }
  destruct (decide (12 < n)) as [Hdone|Hgo].
  { rewrite streaks_loop_done in Hres by done. injection Hres as <-. by left. }
  destruct (streak_of n) as (streak & Hstreak & Hcount & Hgap & Hslots); [lia|].
  destruct (get_possibilities_spec k streak Hk) as (combinations & Hcomb & _).
  rewrite (streaks_loop_step fuel k candidates acc streak combinations n
             (n + len streak + 1)) in Hres by (done || lia).
  destruct (IH (acc ++ combinations) (n + len streak + 1))
    as [Hacc|Hlater]; [unfold len; lia| |done|done| |by right].
  { unfold len. apply streak_start_next; [done|lia|done..]. }
  destruct acc as [|X acc]; [|by left]. right. simpl in Hacc.
  exists n. split_and!; [done|lia|].
  apply (streak_length_at_least hand n (length streak)); [done..|].
  by apply (get_possibilities_nonempty k streak combinations).
Qed.

(** The outer loop comes by every start of a streak. *)
Lemma streaks_loop_reaches (k : Z) (m : Z) :
  1 ≤ k → streak_start hand m →
  1 ≤ m ∧
  ∃ (used : nat) (acc : list PositionSet),
    Z.of_nat used + 13 - m ≤ 12 ∧
    ∀ fuel, (used ≤ fuel)%nat →
      streaks_loop fuel k candidates [] 1 =
      streaks_loop (fuel - used) k candidates acc m.
Proof.
  intros Hk. induction 1 as [|n l Hstart (Hn & used & acc & Hused & Hloop) Hle Hcount Hgap].
  { split; [done|]. exists 0%nat, []. split; [lia|]. intros fuel _.
    by rewrite Nat.sub_0_r. }
  split; [lia|].
  destruct (streak_of n) as (streak & Hstreak & Hcount' & Hgap' & _); [lia|].
  assert (length streak = l) as Hlen.
  { unfold len in Hgap'. by eapply streak_length_unique. }
  destruct (get_possibilities_spec k streak Hk) as (combinations & Hcomb & _).
  exists (S used), (acc ++ combinations). split; [lia|]. intros fuel Hfuel.
  rewrite Hloop by lia.
  replace (fuel - used)%nat with (S (fuel - S used)) by lia.
  rewrite (streaks_loop_step _ k candidates acc streak combinations n
             (n + len streak + 1)) by (done || lia).
  unfold len. by rewrite Hlen.
Qed.

End pass.

(** X21. Which hands pass [AnyList(k)], [k >= 1]: those for which some
    streak is started at a number [m <= 12] such that, among the [k]
    numbers from [m] on, those that no card bears are at most as many as
    the cards numbered -1.  Streaks start at 1 and behind the number at
    which the streak before broke, so the wildcards are spent on the first
    numbers after each start that no card bears. *)
Theorem AnyList_hand_passed_iff `{SetOrder} (k : Z) (hand : Hand) :
  1 ≤ k →
  hand_passed (AnyList k) hand = Ok true ↔
  ∃ m, streak_start hand m ∧ m ≤ 12 ∧
       (missing_count hand m (Z.to_nat k) ≤ wildcards hand)%nat.
Proof.
  intros Hk. split.
  - intros (res & Hres & Hlen)%hand_passed_true_inv.
    destruct (streaks_loop_passes_inv hand 12 k [] res 1) as [?|?];
      [done|done|constructor|done| |done..].
    intros ->. simpl in Hlen. lia.
  - intros (m & Hstart & Hm & Hcount).
    destruct (streaks_loop_reaches hand k m Hk Hstart)
      as (Hm1 & used & acc & Hused & Hloop).
    destruct (streak_of hand m) as (streak & Hstreak & Hcount' & Hgap & Hslots); [lia|].
    destruct (get_possibilities_spec k streak Hk) as (combinations & Hcomb & _).
    assert (combinations ≠ []) as Hne.
    { apply (get_possibilities_nonempty k streak combinations); [done..|].
      by apply (streak_length_at_least hand m (length streak)). }
    destruct (streaks_loop_spec (12 - S used) k (AnyList_candidates hand)
                (acc ++ combinations) (m + len streak + 1)) as (res & Hres & _);
      [apply AnyList_candidates_NoDup|done|unfold len; lia|unfold len; lia|].
    apply (hand_passed_nonempty _ _ ((acc ++ combinations) ++ res)).
    + cbn [possibilities AnyList]. unfold ListBased_possibilities.
      rewrite Hloop by lia.
      replace (12 - used)%nat with (S (12 - S used)) by lia.
      by rewrite (streaks_loop_step _ k (AnyList_candidates hand) acc streak
                    combinations m (m + len streak + 1)) by (done || lia).
    + intros Hnil. apply app_eq_nil in Hnil as [Hnil _].
      apply app_eq_nil in Hnil as [_ Hnil]. done.
Qed.

Lemma AnyList_hand_passed_iff_witness :
  hand_passed (H:=elements_order) (AnyList 3) test_hand = Ok true ↔
  ∃ m, streak_start test_hand m ∧ m ≤ 12 ∧
       (missing_count test_hand m (Z.to_nat 3) ≤ wildcards test_hand)%nat.
Proof. apply (@AnyList_hand_passed_iff elements_order 3 test_hand). lia. Defined.

(** ** Runs of one colour *)

Lemma prefix_refl (s : string) : String.prefix s s = true.
Proof.
  induction s as [|a s IH]; [done|]. simpl.
  by destruct (Ascii.ascii_dec a a).
Qed.

Lemma str_in_refl (s : string) : str_in s s = true.
Proof. destruct s as [|a s]; [done|]. cbn [str_in]. by rewrite prefix_refl. Qed.

Lemma filter_each_Ok_all {A} (f : A → outcome bool) (l l' : list A) :
  filter_each f l = Ok l' → ∀ x, x ∈ l → ∃ b, f x = Ok b.
Proof.
  revert l'. induction l as [|x l IH]; intros l' Hl' y Hy.
  { by apply elem_of_nil in Hy. }
  simpl in Hl'. apply bind_Ok in Hl' as (b & Hb & Hl').
  apply bind_Ok in Hl' as (ys & Hys & _).
  apply elem_of_cons in Hy as [->|Hy]; eauto.
Qed.

Lemma filter_each_Ok_elem_of {A} (f : A → outcome bool) (l l' : list A) :
  filter_each f l = Ok l' → ∀ x, x ∈ l' ↔ x ∈ l ∧ f x = Ok true.
Proof.
  intros Hl'.
  destruct (filter_each_total f l (filter_each_Ok_all f l l' Hl')) as (l'' & Hl'' & Hin).
  rewrite Hl' in Hl''. by injection Hl'' as <-.
Qed.

Section one_colour.
Context `{SetOrder}.

Lemma colour_loop_true_inv (hand : Hand) (target : Card) (positions : list nat) :
  colour_loop hand target positions = Ok true →
  ∀ i, i ∈ positions →
       ∃ card, cards hand !! i = Some card ∧
               str_in (colour target) (colour card) = true.
Proof.
  induction positions as [|pos positions IH]; intros Hloop i Hi.
  { by apply elem_of_nil in Hi. }
  simpl in Hloop. apply bind_Ok in Hloop as (card & Hget & Hloop).
  unfold getitem in Hget. destruct (cards hand !! pos) as [card'|] eqn:Hpos; [|done].
  injection Hget as ->.
  destruct (str_in (colour target) (colour card)) eqn:Hin; [|done]. simpl in Hloop.
  apply elem_of_cons in Hi as [->|Hi]; eauto.
Qed.

(** What [all_same_colour] has checked when it returns [True]. *)
Lemma all_same_colour_true_inv (hand : Hand) (positions : PositionSet) :
  all_same_colour hand positions = Ok true →
  (∀ i, i ∈ positions → ∃ card, cards hand !! i = Some card ∧ number card = -1) ∨
  (∃ t target,
     t ∈ positions ∧ cards hand !! t = Some target ∧ number target ≠ -1 ∧
     ∀ i, i ∈ positions →
          ∃ card, cards hand !! i = Some card ∧
                  str_in (colour target) (colour card) = true).
Proof.
  unfold all_same_colour. intros (targets & Htargets & Hrest)%bind_Ok.
  assert (∀ i, i ∈ iter positions → (i < length (cards hand))%nat) as Hvalid.
  { intros i Hi.
    destruct (filter_each_Ok_all _ _ _ Htargets i Hi) as (b & (card & Hget & _)%bind_Ok).
    unfold getitem in Hget. destruct (cards hand !! i) eqn:Hpos; [|done].
    by eapply lookup_lt_Some. }
  destruct (all_same_colour_targets hand (iter positions) Hvalid)
    as (targets' & Htargets' & Hin).
  rewrite Htargets in Htargets'. injection Htargets' as <-.
  destruct targets as [|first targets].
  - left. intros i Hi.
    destruct (lookup_lt_is_Some_2 (cards hand) i) as [card Hcard].
    { by apply Hvalid, elem_of_iter. }
    exists card. split; [done|].
    destruct (decide (number card = -1)) as [|Hnum]; [done|].
    assert (i ∈ @nil nat) as Hnil by (apply Hin; split; [by apply elem_of_iter|eauto]).
    by apply elem_of_nil in Hnil.
  - right. change (len (first :: targets) =? 0) with false in Hrest. simpl in Hrest.
    destruct (proj1 (Hin first)) as (Hfirst & target & Htarget & Hnum); [by left|].
    rewrite (getitem_Ok _ _ _ Htarget) in Hrest. simpl in Hrest.
    exists first, target. split_and!; [by apply elem_of_iter|done..|].
    intros i Hi. apply (colour_loop_true_inv hand target (iter positions)); [done|].
    by apply elem_of_iter.
Qed.

Lemma all_same_colour_wildcards (hand : Hand) (positions : PositionSet) :
  (∀ i, i ∈ positions → ∃ card, cards hand !! i = Some card ∧ number card = -1) →
  all_same_colour hand positions = Ok true.
Proof.
  intros Hall. unfold all_same_colour.
  assert (∀ i, i ∈ iter positions → (i < length (cards hand))%nat) as Hvalid.
  { intros i Hi%elem_of_iter. destruct (Hall i Hi) as (card & Hcard & _).
    by eapply lookup_lt_Some. }
  destruct (all_same_colour_targets hand (iter positions) Hvalid)
    as (targets & -> & Hin).
  simpl. destruct targets as [|first targets]; [done|].
  destruct (proj1 (Hin first)) as (Hfirst%elem_of_iter & target & Htarget & Hnum);
    [by left|].
  destruct (Hall first Hfirst) as (card & Hcard & Hwild). congruence.
Qed.

Lemma deck_card_colour (col : string) (card : Card) :
  col ∈ deck_colours → deck_card card → str_in col (colour card) = true →
  colour card = col ∧ number card ≠ -1.
Proof.
  intros Hcol [(Hcolour & Hnum & _)| ->] Hin.
  - split; [|lia]. unfold deck_colours in *.
    repeat (apply elem_of_cons in Hcol as [->|Hcol]);
      try (by apply elem_of_nil in Hcol);
      repeat (apply elem_of_cons in Hcolour as [Hc|Hcolour]);
      try (by apply elem_of_nil in Hcolour);
      rewrite Hc in *; done.
  - unfold deck_colours in *.
    repeat (apply elem_of_cons in Hcol as [->|Hcol]);
      try (by apply elem_of_nil in Hcol); done.
Qed.

End one_colour.

(** X22. [SameColourList(k)] returns a part of what [AnyList(k)] returns,
    in the same order, and fails whenever [AnyList(k)] fails: a hand that
    passes the run of one colour passes the plain run. *)
Theorem SameColourList_within_AnyList `{SetOrder} (k : Z) (hand : Hand) :
  (∀ res, possibilities (SameColourList k) hand = Ok res →
          ∃ all, possibilities (AnyList k) hand = Ok all ∧ res `sublist_of` all) ∧
  (∀ e, possibilities (AnyList k) hand = Raise e →
        possibilities (SameColourList k) hand = Raise e) ∧
  (hand_passed (SameColourList k) hand = Ok true →
   hand_passed (AnyList k) hand = Ok true).
Proof.
  assert (∀ res, possibilities (SameColourList k) hand = Ok res →
            ∃ all, possibilities (AnyList k) hand = Ok all ∧ res `sublist_of` all)
    as Hwithin.
  { intros res Hres. cbn [possibilities SameColourList AnyList] in *.
    apply bind_Ok in Hres as (all & Hall & Hres).
    exists all. split; [done|]. by eapply filter_each_sublist. }
  split_and!.
  - done.
  - intros e He. cbn [possibilities SameColourList AnyList] in *. by rewrite He.
  - intros (res & Hres & Hlen)%hand_passed_true_inv.
    destruct (Hwithin res Hres) as (all & Hall & Hsub).
    apply (hand_passed_nonempty _ _ all); [done|].
    intros ->. apply sublist_nil_r in Hsub as ->. simpl in Hlen. lia.
Qed.

(** X23. A set that [SameColourList(k)] returns has passed the colour
    check in one of two ways: all its cards are numbered -1, or it holds a
    card with another number, and the colour of that card occurs in the
    colour of every card of the set, the cards numbered -1 included. *)
Theorem SameColourList_possibilities_colours `{SetOrder}
    (k : Z) (hand : Hand) (res : list PositionSet) (X : PositionSet) :
  possibilities (SameColourList k) hand = Ok res → X ∈ res →
  (∀ i, i ∈ X → ∃ card, cards hand !! i = Some card ∧ number card = -1) ∨
  (∃ t target,
     t ∈ X ∧ cards hand !! t = Some target ∧ number target ≠ -1 ∧
     ∀ i, i ∈ X → ∃ card, cards hand !! i = Some card ∧
                          str_in (colour target) (colour card) = true).
Proof.
  intros Hres HX. cbn [possibilities SameColourList] in Hres.
  apply bind_Ok in Hres as (all & Hall & Hres).
  apply (filter_each_Ok_elem_of _ _ _ Hres) in HX as [_ Hcheck].
  by apply all_same_colour_true_inv.
Qed.

Lemma SameColourList_possibilities_colours_witness :
  (∀ i, i ∈ (list_to_set [0; 1; 2]%nat : PositionSet) →
        ∃ card, cards test_hand !! i = Some card ∧ number card = -1) ∨
  (∃ t target,
     t ∈ (list_to_set [0; 1; 2]%nat : PositionSet) ∧
     cards test_hand !! t = Some target ∧ number target ≠ -1 ∧
     ∀ i, i ∈ (list_to_set [0; 1; 2]%nat : PositionSet) →
          ∃ card, cards test_hand !! i = Some card ∧
                  str_in (colour target) (colour card) = true).
Proof.
  apply (@SameColourList_possibilities_colours elements_order 3 test_hand
           (match possibilities (H:=elements_order) (SameColourList 3) test_hand with
            | Ok res => res
            | _ => []
            end)).
  - vm_compute. reflexivity.
  - vm_compute. apply list_elem_of_here.
Defined.

(** X24. On a hand of cards as [init_deck] makes them, a set that
    [AnyList(k)] returns, [k >= 1], is returned by [SameColourList(k)]
    exactly when its cards are all jokers, or all of one colour and none
    of them a joker: a joker never completes a run of one colour. *)
Theorem SameColourList_deck_hand `{SetOrder} (k : Z) (hand : Hand) :
  Forall deck_card (cards hand) → 1 ≤ k →
  ∃ all res,
    possibilities (AnyList k) hand = Ok all ∧
    possibilities (SameColourList k) hand = Ok res ∧
    ∀ X, X ∈ res ↔
         X ∈ all ∧
         ((∀ i, i ∈ X → cards hand !! i = Some deck_joker) ∨
          (∃ col, ∀ i, i ∈ X → ∃ card, cards hand !! i = Some card ∧
                                       colour card = col ∧ number card ≠ -1)).
Proof.
  intros Hdeck Hk.
  destruct (ListBased_possibilities_finishes k hand Hk) as (all & Hall & Hvalid).
  rewrite Forall_forall in Hvalid.
  destruct (filter_each_total (all_same_colour hand) all) as (res & Hres & Hin).
  { intros Y HY. apply all_same_colour_total. by apply Hvalid. }
  exists all, res. cbn [possibilities SameColourList AnyList]. rewrite Hall.
  split_and!; [done..|].
  assert (∀ i card, cards hand !! i = Some card → deck_card card) as Hcard.
  { intros i card Hi. apply (proj1 (Forall_forall _ _) Hdeck).
    by eapply list_elem_of_lookup_2. }
  intros X. rewrite Hin. apply and_iff_compat_l. split.
  - intros [Hwild|(t & target & Ht & Htarget & Hnum & Hcols)]%all_same_colour_true_inv.
    + left. intros i Hi. destruct (Hwild i Hi) as (card & Hi' & Hnum).
      destruct (Hcard i card Hi') as [(_ & ? & _)| ->]; [lia|done].
    + right. exists (colour target).
      assert (colour target ∈ deck_colours) as Hcol.
      { destruct (Hcard t target Htarget) as [(? & _)| ->]; done. }
      intros i Hi. destruct (Hcols i Hi) as (card & Hi' & Hstr).
      exists card. split; [done|].
      by apply deck_card_colour; [|eapply Hcard|].
  - intros [Hjokers|(col & Hcol)].
    + apply all_same_colour_wildcards. intros i Hi. rewrite (Hjokers i Hi). eauto.
    + apply (all_same_colour_uniform hand X col); [apply str_in_refl|].
      intros i Hi. destruct (Hcol i Hi) as (card & ? & ? & _). eauto.
Qed.

Lemma SameColourList_deck_hand_witness :
  ∃ all res,
    possibilities (H:=elements_order) (AnyList 3) test_hand_deck_jokers = Ok all ∧
    possibilities (H:=elements_order) (SameColourList 3) test_hand_deck_jokers = Ok res ∧
    ∀ X, X ∈ res ↔
         X ∈ all ∧
         ((∀ i, i ∈ X → cards test_hand_deck_jokers !! i = Some deck_joker) ∨
          (∃ col, ∀ i, i ∈ X →
                       ∃ card, cards test_hand_deck_jokers !! i = Some card ∧
                               colour card = col ∧ number card ≠ -1)).
Proof.
  apply (@SameColourList_deck_hand elements_order 3 test_hand_deck_jokers).
  - simpl.
    repeat (apply Forall_cons; split;
            [(by right) ||
             (left; split_and!; [unfold deck_colours; set_solver|simpl; lia..|done])|]).
    apply Forall_nil_2.
  - lia.
Defined.

(** ** The deck and the hands dealt from it *)

Lemma filter_sublist_mono {A} (P : A → Prop) `{!∀ x, Decision (P x)} (l1 l2 : list A) :
  l1 `sublist_of` l2 → filter P l1 `sublist_of` filter P l2.
Proof.
  induction 1 as [|x l1 l2 Hsub IH|x l1 l2 Hsub IH]; [done| |].
  - rewrite !filter_cons. destruct (decide (P x)); [by constructor|done].
  - rewrite filter_cons. destruct (decide (P x)); [by constructor|done].
Qed.

Lemma Forall_deck_card_unshuffled : Forall deck_card unshuffled_deck.
Proof.
  apply Forall_app. split.
  - apply Forall_forall. intros card (col & Hcard & Hcol)%list_elem_of_bind.
    apply list_elem_of_fmap in Hcard as (i & -> & Hi%elem_of_seqZ).
    left. simpl. split_and!; [done|lia|lia|done].
  - apply Forall_forall. intros card [-> _]%elem_of_replicate. by right.
Qed.

Lemma NoDup_numbered_unshuffled :
  NoDup (filter (λ card, number card ≠ -1) unshuffled_deck).
Proof.
  pose (dec := ltac:(solve_decision) : EqDecision Card).
  apply (bool_decide_unpack (NoDup (filter (λ card, number card ≠ -1) unshuffled_deck))).
  vm_compute. exact I.
Qed.

Lemma deal_take {A} (deck : list A) :
  (10 ≤ length deck)%nat → slice deck 0 10 = take 10 deck.
Proof.
  intros Hlen. unfold slice, slice_index. change (0 <? 0) with false.
  change (10 <? 0) with false. cbv iota.
  replace (Z.to_nat (0 `min` len deck)) with 0%nat by (unfold len; lia).
  replace (Z.to_nat (10 `min` len deck)) with 10%nat by (unfold len; lia).
  done.
Qed.

Lemma deal_enough (deck : list Card) :
  (10 ≤ length deck)%nat → deal deck = Ok (mkHand (take 10 deck)).
Proof.
  intros Hlen. unfold deal, Hand_init.
  rewrite deal_take by done. unfold len. rewrite length_take.
  replace (Z.of_nat (10 `min` length deck)) with 10 by lia. done.
Qed.

(** X25. [Hand(deck[0:10])] takes the first ten cards of a deck of ten or
    more; on a shorter deck the slice is the whole deck and [Hand] raises
    its error. *)
Theorem deal_outcome (deck : list Card) :
  ((10 ≤ length deck)%nat → deal deck = Ok (mkHand (take 10 deck))) ∧
  ((length deck < 10)%nat →
   deal deck = Raise (Exception "Invalid number of cards")).
Proof.
  split; intros Hlen; [by apply deal_enough|]. unfold deal, Hand_init.
  unfold slice, slice_index, len. change (0 <? 0) with false.
  change (10 <? 0) with false. cbv iota.
  replace (Z.to_nat (0 `min` Z.of_nat (length deck))) with 0%nat by lia.
  rewrite drop_0, length_take.
  destruct (Z.ltb_spec
              (Z.of_nat ((Z.to_nat (10 `min` Z.of_nat (length deck)) - 0)
                           `min` length deck)) 10) as [|Hge]; [done|lia].
Qed.

(** X26. Whatever permutation the shuffle produces, [init_deck] returns 56
    cards and a hand can be dealt from them; its ten cards are cards of
    the deck, at most eight of them jokers, and no card with a number
    occurs twice. *)
Theorem deal_from_init_deck (shuffle : list Card → list Card) :
  shuffle unshuffled_deck ≡ₚ unshuffled_deck →
  length (init_deck shuffle) = 56%nat ∧
  ∃ hand,
    deal (init_deck shuffle) = Ok hand ∧
    cards hand = take 10 (init_deck shuffle) ∧
    length (cards hand) = 10%nat ∧
    Forall deck_card (cards hand) ∧
    NoDup (filter (λ card, number card ≠ -1) (cards hand)) ∧
    (length (filter (λ card, number card = (-1)%Z) (cards hand)) ≤ 8)%nat.
Proof.
  intros Hperm. unfold init_deck.
  assert (length (shuffle unshuffled_deck) = 56%nat) as Hlen by (by rewrite Hperm).
  split; [done|]. exists (mkHand (take 10 (shuffle unshuffled_deck))).
  cbn [cards]. split_and!.
  - apply deal_enough. lia.
  - done.
  - rewrite length_take. lia.
  - apply Forall_take. rewrite Hperm. apply Forall_deck_card_unshuffled.
  - eapply sublist_NoDup; [|apply filter_sublist_mono, sublist_take].
    rewrite Hperm. apply NoDup_numbered_unshuffled.
  - etrans; [apply sublist_length, filter_sublist_mono, sublist_take|].
    by rewrite Hperm.
Qed.

Lemma deal_from_init_deck_witness :
  length (init_deck reverse) = 56%nat ∧
  ∃ hand,
    deal (init_deck reverse) = Ok hand ∧
    cards hand = take 10 (init_deck reverse) ∧
    length (cards hand) = 10%nat ∧
    Forall deck_card (cards hand) ∧
    NoDup (filter (λ card, number card ≠ -1) (cards hand)) ∧
    (length (filter (λ card, number card = (-1)%Z) (cards hand)) ≤ 8)%nat.
Proof. apply (deal_from_init_deck reverse). apply reverse_Permutation. Defined.

(** ** Experiments *)

Lemma hand_passed_returns `{SetOrder} (self : Condition) (hand : Hand) :
  valid_condition self → hand_passed self hand = Ok (passes self hand).
Proof.
  intros Hvalid. unfold passes.
  destruct (possibilities_total self hand Hvalid) as [res Hres].
  unfold hand_passed. rewrite Hres. simpl. by destruct (len res >? 0).
Qed.

(** X27. An experiment whose condition has required numbers from 1 to 10
    in all its leaves, run on a list of hands one after the other: no run
    raises, [runs] grows by the number of hands and [successes] by the
    number of hands that pass. *)
Theorem Experiment_run_all_counts `{SetOrder} (self : Experiment) (hands : list Hand) :
  valid_condition (condition self) →
  Experiment_run_all self hands =
  (mkExperiment (condition self) (runs self + len hands)
     (successes self + len (filter (λ hand, passes (condition self) hand = true) hands)),
   Ok ()).
Proof.
  intros Hvalid. revert self Hvalid.
  induction hands as [|hand hands IH]; intros [c r s] Hvalid; cbn [condition] in *.
  { unfold len. simpl. by rewrite !Z.add_0_r. }
  cbn [Experiment_run_all]. unfold Experiment_run. cbn [condition runs successes].
  rewrite hand_passed_returns by done. rewrite filter_cons.
  destruct (passes c hand) eqn:Hpass.
  - rewrite decide_True by done. rewrite IH by done. cbn [condition runs successes].
    f_equal. f_equal; unfold len; simpl; lia.
  - rewrite decide_False by done. rewrite IH by done. cbn [condition runs successes].
    f_equal. f_equal; unfold len; simpl; lia.
Qed.

Lemma Experiment_run_all_counts_witness :
  Experiment_run_all (H:=elements_order)
    (Experiment_init (GroupCondition [AnyList 5; AnyList 4]))
    [test_hand; high_run_hand] =
  (mkExperiment (GroupCondition [AnyList 5; AnyList 4]) (0 + len [test_hand; high_run_hand])
     (0 + len (filter (λ hand, passes (H:=elements_order)
                                 (GroupCondition [AnyList 5; AnyList 4]) hand = true)
                 [test_hand; high_run_hand])),
   Ok ()).
Proof.
  apply (@Experiment_run_all_counts elements_order
           (Experiment_init (GroupCondition [AnyList 5; AnyList 4]))
           [test_hand; high_run_hand]).
  apply valid_group. repeat constructor; (discriminate || lia).
Defined.

Lemma Experiment_run_step `{SetOrder} (self : Experiment) (hand : Hand) :
  condition (Experiment_run self hand).1 = condition self ∧
  runs (Experiment_run self hand).1 = runs self + 1 ∧
  0 ≤ successes (Experiment_run self hand).1 - successes self ≤ 1.
Proof.
  unfold Experiment_run.
  destruct (hand_passed (condition self) hand) as [[|]| |]; simpl;
    (split; [done|lia]).
Qed.

(** X28. Whatever the condition and the hands, and also when a run
    raises: every call of [run] is counted in [runs], the failing one
    included, [successes] never grows by more than [runs] does, and the
    condition stays the same.  So [0 <= successes <= runs] holds after the
    runs if it held before. *)
Theorem Experiment_counters `{SetOrder} (self : Experiment) (hands : list Hand) :
  condition (Experiment_run_all self hands).1 = condition self ∧
  runs self ≤ runs (Experiment_run_all self hands).1 ≤ runs self + len hands ∧
  0 ≤ successes (Experiment_run_all self hands).1 - successes self
    ≤ runs (Experiment_run_all self hands).1 - runs self ∧
  ((Experiment_run_all self hands).2 = Ok () →
   runs (Experiment_run_all self hands).1 = runs self + len hands) ∧
  (∀ hand e, hand_passed (condition self) hand = Raise e →
             Experiment_run self hand =
             (mkExperiment (condition self) (runs self + 1) (successes self), Raise e)).
Proof.
  assert (∀ hand e, hand_passed (condition self) hand = Raise e →
            Experiment_run self hand =
            (mkExperiment (condition self) (runs self + 1) (successes self), Raise e))
    as Hraise.
  { intros hand e He. unfold Experiment_run. by rewrite He. }
  cut (condition (Experiment_run_all self hands).1 = condition self ∧
       runs self ≤ runs (Experiment_run_all self hands).1 ≤ runs self + len hands ∧
       0 ≤ successes (Experiment_run_all self hands).1 - successes self
         ≤ runs (Experiment_run_all self hands).1 - runs self ∧
       ((Experiment_run_all self hands).2 = Ok () →
        runs (Experiment_run_all self hands).1 = runs self + len hands)).
  { intros (? & ? & ? & ?). done. }
  clear Hraise. revert self.
  induction hands as [|hand hands IH]; intros self.
  { unfold len. simpl. split; [done|lia]. }
  cbn [Experiment_run_all].
  destruct (Experiment_run_step self hand) as (Hc & Hr & Hs).
  destruct (Experiment_run self hand) as [self' o] eqn:Hstep. cbn [fst] in *.
  assert (len (hand :: hands) = len hands + 1) as -> by (unfold len; simpl; lia).
  assert (0 ≤ len hands) as Hlen by (unfold len; lia).
  destruct o as [[]|e|].
  - destruct (IH self') as (Hc' & Hr' & Hs' & Hok').
    split_and!; [congruence|lia..|]. intros Hok. specialize (Hok' Hok). lia.
  - cbn [fst snd]. split_and!; [done|lia..|done].
  - cbn [fst snd]. split_and!; [done|lia..|done].
Qed.

(** ** The order of the candidates of a run *)

Lemma by_number_then_position_trans (x y z : nat * Card) :
  by_number_then_position x y → by_number_then_position y z →
  by_number_then_position x z.
Proof. unfold by_number_then_position. lia. Qed.

Lemma insert_by_number_ordered (x : nat * Card) (l : list (nat * Card)) :
  ordered by_number_then_position l →
  Forall (λ y, (x.1 < y.1)%nat) l →
  ordered by_number_then_position (insert_by_number x l).
Proof.
  induction l as [|y l IH]; intros Hsorted Hlater; cbn [insert_by_number].
  { by repeat constructor. }
  destruct Hsorted as [Hy Hsorted].
  apply Forall_cons in Hlater as [Hxy Hlater].
  destruct (Z.leb_spec (number x.2) (number y.2)) as [Hle|Hgt].
  - assert (by_number_then_position x y) as Hfirst
      by (unfold by_number_then_position; lia).
    split; [|by split]. constructor; [done|].
    eapply Forall_impl; [exact Hy|]. intros z Hz.
    exact (by_number_then_position_trans x y z Hfirst Hz).
  - split; [|by apply IH].
    rewrite insert_by_number_perm. constructor; [|done].
    unfold by_number_then_position. lia.
Qed.

Lemma sorted_by_number_ordered (l : list (nat * Card)) :
  ordered (λ x y : nat * Card, (x.1 < y.1)%nat) l →
  ordered by_number_then_position (sorted_by_number l).
Proof.
  induction l as [|x l IH]; intros Hsorted; [done|].
  destruct Hsorted as [Hx Hsorted].
  cbn [sorted_by_number foldr]. apply insert_by_number_ordered; [by apply IH|].
  fold (sorted_by_number l). by rewrite sorted_by_number_perm.
Qed.

Lemma imap_positions_ordered {A} (g : nat → nat) (l : list A) :
  (∀ i j, (i < j)%nat → (g i < g j)%nat) →
  ordered (λ x y : nat * A, (x.1 < y.1)%nat) (imap (λ i x, (g i, x)) l).
Proof.
  revert g. induction l as [|x l IH]; intros g Hg; [done|].
  rewrite imap_cons. split.
  - apply Forall_forall. intros y (i & z & -> & _)%elem_of_lookup_imap.
    simpl. apply Hg. lia.
  - apply (IH (g ∘ S)). intros i j Hij. apply Hg. lia.
Qed.

(** X29. [AnyList.candidates] returns the positions of the hand with their
    cards, each once, in the order of the numbers of the cards, and in the
    order of the positions among cards of one number. *)
Theorem AnyList_candidates_sorted (hand : Hand) :
  AnyList_candidates hand ≡ₚ enumerate (cards hand) ∧
  (∀ i card, (i, card) ∈ AnyList_candidates hand ↔ cards hand !! i = Some card) ∧
  ordered by_number_then_position (AnyList_candidates hand).
Proof.
  split_and!.
  - apply AnyList_candidates_perm.
  - intros i card. by rewrite AnyList_candidates_perm, elem_of_enumerate.
  - apply sorted_by_number_ordered. apply (imap_positions_ordered id). auto.
Qed.
